(** * monorepo-watcher: the event-dispatch and action-execution pipeline

    A shallow embedding of [src/helpers/config-utils.ts] (configuration
    normalisation and merge) and of the abstract class [Events] (package
    resolution, the watcher's listeners, the action runner, the debounced
    and locked change listener), followed by the properties of the
    specification stated and proved over it.

    Layout: the definitions come first (strings, packages, configuration,
    the watcher, the lock, the debouncer, sample data), the lemmas and
    theorems after them. *)

From Stdlib Require Import ZArith Lia Bool Ascii.
From stdpp Require Import base option list strings gmap.

(** ** JavaScript strings

    A string is a sequence of code units; [includes] and [split] only
    compare code units, so the element type plays no role. *)

Module JsString.

(** [hay.startsWith(needle)], the test at one position of the search that
    [String.prototype.includes] performs. *)
Fixpoint startsWith (hay needle : string) {struct needle} : bool :=
  match needle, hay with
  | EmptyString, _ => true
  | String _ _, EmptyString => false
  | String a needle', String b hay' =>
      if Ascii.eqb a b then startsWith hay' needle' else false
  end.

(** [hay.includes(needle)]: [needle] occurs in [hay] at some position. *)
Fixpoint includes (hay needle : string) : bool :=
  startsWith hay needle ||
  match hay with
  | EmptyString => false
  | String _ hay' => includes hay' needle
  end.

(** [s.split(sep)] for a separator of one code unit. The result always has
    at least one element: [("").split("/")] is [[""]]. *)
Fixpoint split (sep : ascii) (s : string) : list string :=
  match s with
  | EmptyString => [EmptyString]
  | String c rest =>
      if Ascii.eqb c sep then EmptyString :: split sep rest
      else match split sep rest with
           | seg :: segs => String c seg :: segs
           | [] => [String c EmptyString]
           end
  end.

(** [arr.pop()]: the last element, [undefined] on an empty array. *)
Definition pop (arr : list string) : option string := last arr.

(** [arr.join(sep)] for a separator of one code unit; the program does not
    call it, it states what [split] returns. *)
Fixpoint join (sep : ascii) (segs : list string) : string :=
  match segs with
  | [] => ""
  | [seg] => seg
  | seg :: segs' => seg +:+ String sep (join sep segs')
  end.

(** No code unit of [s] is [c]. *)
Fixpoint lacks (c : ascii) (s : string) : bool :=
  match s with
  | EmptyString => true
  | String a rest => negb (Ascii.eqb a c) && lacks c rest
  end.

(** The line feed, and a message that ends with one. *)
Definition lf : string := String "010" "".
Definition line (s : string) : string := s +:+ lf.

End JsString.

(** ** Packages and package resolution *)

(** [Package] of @manypkg/get-packages, reduced to the two members the
    program reads: [packageJson.name] and [dir]. *)
Record Package := mkPackage {
  name : string;
  dir : string;
}.

(** The pair returned by [Events.getPackage]. *)
Record Resolved := mkResolved {
  currentPkg : string;
  packagePath : string;
}.

(** [pkg.dir.split("/").pop() as string] *)
Definition dirBasename (d : string) : string :=
  default "" (JsString.pop (JsString.split "/" d)).

(** What a match assigns to the two variables of [getPackage]. *)
Definition resolvedOf (pkg : Package) : Resolved :=
  {| currentPkg := dirBasename (dir pkg); packagePath := dir pkg |}.

(** The body of the [forEach] callback of [getPackage]: a match overwrites
    both variables, a miss leaves them. *)
Definition getPackage_visit (path : string) (acc : Resolved) (pkg : Package)
  : Resolved :=
  let match_ := JsString.includes path (dir pkg) in
  if match_ then resolvedOf pkg else acc.

(** [Events.getPackage]: both variables start empty and every package is
    visited, in list order. *)
Definition getPackage (packages : list Package) (path : string) : Resolved :=
  fold_left (getPackage_visit path) packages
            {| currentPkg := ""; packagePath := "" |}.

(** The packages whose directory the path contains, in list order. *)
Definition matching (packages : list Package) (path : string) : list Package :=
  filter (λ pkg, JsString.includes path (dir pkg) = true) packages.

(** ** Values thrown and results *)

(** What a [throw] carries: [new Error(message)], a [TypeError] of the
    runtime, or an error object handed over by the operating system
    ([cp.error]), identified by its code. *)
Inductive Thrown :=
  | Error (message : string)
  | TypeError (message : string)
  | SystemError (code : string).

(** A computation that returns or throws. *)
Inductive Result (A : Type) :=
  | Ok (a : A)
  | Throw (e : Thrown).
Arguments Ok {A} a.
Arguments Throw {A} e.

(** Sequencing: a [throw] skips the rest. *)
#[global] Instance Result_bind : MBind Result := λ A B k r,
  match r with
  | Ok a => k a
  | Throw e => Throw e
  end.

Definition returned {A} (r : Result A) : bool :=
  match r with
  | Ok _ => true
  | Throw _ => false
  end.

(** ** Child processes *)

(** One entry of the [stdio] option of [child_process]: the child's stream is
    the parent's ("inherit"), a pipe whose output the parent collects in the
    spawn result ("pipe"), discarded ("ignore"), or attached to the stream
    object [process.stderr] of the parent. *)
Inductive Stdio :=
  | Inherit
  | Pipe
  | Ignore
  | ProcessStderr.

(** [StdioOptions]: one string for all three streams, or an array indexed by
    file descriptor (0 stdin, 1 stdout, 2 stderr). *)
Inductive StdioOptions :=
  | StdioAll (s : Stdio)
  | StdioArray (l : list Stdio).

(** The entry that governs the child's file descriptor [fd]. *)
Definition childStream (o : StdioOptions) (fd : nat) : option Stdio :=
  match o with
  | StdioAll s => if bool_decide (fd < 3) then Some s else None
  | StdioArray l => l !! fd
  end.

(** The arguments of [spawn.sync(command, args, {env, cwd, stdio})];
    [command] is [None] when the program passes [undefined]. *)
Record SpawnRequest := mkSpawnRequest {
  command : option string;
  args : list string;
  spawnEnv : gmap string string;
  cwd : string;
  stdio : StdioOptions;
}.

(** The members of the spawn result that the program reads: [cp.error]
    (absent, or an error object) and [cp.stderr] ([null], or the buffer of
    what the child wrote to a piped stderr; a buffer is truthy whatever its
    length). *)
Record SpawnResult := mkSpawnResult {
  error : option string;
  stderr : option string;
}.

(** ** The host

    What the program calls and this repository's files do not define: the
    user's action functions, [isAsync] and [convertPath] of helpers/utils,
    [spawn.sync] of cross-spawn and [fs.statSync]. They are parameters of
    the model. *)
Class Host := {
  (** the functions a configuration file may give as actions *)
  Fn : Type;
  (** [fs.Stats] *)
  Stats : Type;
  (** [isAsync(fn)]: the function is recognised as asynchronous *)
  isAsync : Fn → bool;
  (** [convertPath(root, filePath)]: the path as shown in the log *)
  convertPath : string → string → string;
  (** [spawn.sync]: runs the child to its end and returns the result, or
      throws *)
  spawnSync : SpawnRequest → Result SpawnResult;
  (** [fs.statSync] *)
  statSync : string → Result Stats;
}.

(** ** Configuration *)

(** [ArgsOptions], reduced to the member read here. *)
Record ArgsOptions := mkArgs {
  run : list string;
}.

(** [IConfig], the configuration file's export. An absent member is [None].
    [actions] keeps the keys in the order [Object.keys] lists them; a key
    may hold [undefined]. *)
Record IConfig `{Host} := mkIConfig {
  prefix : option string;
  actions : option (list (string * option Fn));
  include : option (list string);
  runScripts : option (list string);
  noChildProcessLogs : option bool;
}.

(** [InternalConfig], what the watcher runs with. *)
Record InternalConfig `{Host} := mkInternalConfig {
  i_prefix : string;
  i_actions : list (string * option Fn);
  i_include : list string;
  i_runScripts : list string;
  i_noChildProcessLogs : bool;
}.

Section Config.

Context `{Host}.

(** [defaultConfig] of helpers/consts. *)
Variable defaultConfig : ArgsOptions → InternalConfig.

(** [!config.prefix]: absent or the empty string. *)
Definition falsyString (s : option string) : bool :=
  match s with
  | None => true
  | Some s => bool_decide (s = "")
  end.

(** The [forEach] over [Object.keys(config.actions)]: the first key whose
    value is a function that [isAsync] does not recognise throws. *)
Fixpoint checkActions (entries : list (string * option Fn)) : Result unit :=
  match entries with
  | [] => Ok ()
  | (actionName, action) :: rest =>
      match action with
      | Some f =>
          if negb (isAsync f)
          then Throw (Error ("Action " +:+ actionName +:+ " is not async"))
          else checkActions rest
      | None => checkActions rest
      end
  end.

(** The first statement of [normalizeConfig]: acquiring the prefix from the
    first package's manifest name. *)
Definition acquirePrefix (config : IConfig) (packages : list Package)
  : Result IConfig :=
  if falsyString (prefix config) then
    match packages with
    | [] => Throw (TypeError "Cannot read properties of undefined")
    | pkg0 :: _ =>
        match JsString.split "/" (name pkg0) with
        | [] => Throw (Error "Couldn't get package name. Please specfiy one in the config file")
        | name0 :: _ =>
            Ok {| prefix := Some name0; actions := actions config;
                  include := include config; runScripts := runScripts config;
                  noChildProcessLogs := noChildProcessLogs config |}
        end
    end
  else Ok config.

(** [if (!config.include) config.include = ["src"]] *)
Definition defaultInclude (config : IConfig) : IConfig :=
  match include config with
  | None => {| prefix := prefix config; actions := actions config;
               include := Some ["src"]; runScripts := runScripts config;
               noChildProcessLogs := noChildProcessLogs config |}
  | Some _ => config
  end.

(** [argv.run.length === 0 && config.runScripts?.length === 0 && !config.actions] *)
Definition nothingToRun (config : IConfig) (argv : ArgsOptions) : bool :=
  bool_decide (run argv = [])
  && from_option (λ rs, bool_decide (rs = [])) false (runScripts config)
  && negb (bool_decide (is_Some (actions config))).

(** [if (argv.run.length > 0) config.runScripts = argv.run] *)
Definition mergeArgs (config : IConfig) (argv : ArgsOptions) : IConfig :=
  if bool_decide (run argv ≠ [])
  then {| prefix := prefix config; actions := actions config;
          include := include config; runScripts := Some (run argv);
          noChildProcessLogs := noChildProcessLogs config |}
  else config.

(** [normalizeConfig] *)
Definition normalizeConfig (config : IConfig) (packages : list Package)
    (argv : ArgsOptions) : Result IConfig :=
  config ← acquirePrefix config packages;
  _ ← from_option checkActions (Ok ()) (actions config);
  let config := defaultInclude config in
  if nothingToRun config argv
  then Throw (Error "Please pass a command or a list of actions to the config file")
  else Ok (mergeArgs config argv).

(** *** [mergeWith(object, source)] of lodash, without a customizer

    Every own key of [source] is visited. A source value that is [undefined]
    leaves the destination; a string or boolean replaces it; an array is
    merged into the destination array index by index, so the destination
    keeps its elements past the source's length; a function replaces the
    destination's value under its key. *)

Definition mergePrimitive {A} (dst : A) (src : option A) : A :=
  default dst src.

Definition mergeArray {A} (dst : list A) (src : option (list A)) : list A :=
  match src with
  | None => dst
  | Some src => src ++ drop (length src) dst
  end.

(** [obj[key] = v], the key keeping its place when the object has it. *)
Fixpoint assign {A} (key : string) (v : A) (obj : list (string * A))
  : list (string * A) :=
  match obj with
  | [] => [(key, v)]
  | (k, w) :: rest =>
      if bool_decide (k = key) then (k, v) :: rest
      else (k, w) :: assign key v rest
  end.

Definition mergeObject (dst : list (string * option Fn))
    (src : option (list (string * option Fn))) : list (string * option Fn) :=
  match src with
  | None => dst
  | Some src =>
      fold_left (λ acc '(k, v),
                   match v with
                   | Some f => assign k (Some f) acc
                   | None => if bool_decide (k ∈ acc.*1) then acc
                             else assign k None acc
                   end) src dst
  end.

Definition mergeWith (object : InternalConfig) (source : IConfig)
  : InternalConfig :=
  {| i_prefix := mergePrimitive (i_prefix object) (prefix source);
     i_actions := mergeObject (i_actions object) (actions source);
     i_include := mergeArray (i_include object) (include source);
     i_runScripts := mergeArray (i_runScripts object) (runScripts source);
     i_noChildProcessLogs :=
       mergePrimitive (i_noChildProcessLogs object) (noChildProcessLogs source) |}.

(** [MergeNormalizeConfig] *)
Definition MergeNormalizeConfig (config : IConfig) (packages : list Package)
    (argv : ArgsOptions) : Result InternalConfig :=
  config ← normalizeConfig config packages argv;
  Ok (mergeWith (defaultConfig argv) config).

End Config.

(** ** The logger sink

    The calls that [Events] makes on its logger, recorded as data. *)

(** The object form of a logger argument, with the members that [Events]
    sets; an absent flag is [false]. *)
Record LoggerActions := mkLoggerActions {
  message : string;
  clr : bool;
  spaceContent : bool;
}.

Inductive LogParams :=
  | Plain (text : string)
  | Structured (params : LoggerActions).

(** A piece of the template literal handed to [Custom]: literal text, or
    [logger.raw(params, kind)]. *)
Inductive Piece :=
  | Lit (text : string)
  | Raw (params : LogParams) (kind : string).

Inductive LogCall :=
  | Log (params : LogParams) (kind : string)
  | Custom (pieces : list Piece)
  | LineBreak.

(** [Events.EndLogger]: the two calls, in order. *)
Definition EndLogger (eventName path : string) : list LogCall :=
  [ Log (Plain (JsString.line "Action Completed")) "log";
    Custom [ Raw (Structured {| message := eventName; clr := false;
                                spaceContent := true |}) "success";
             Lit " - ";
             Raw (Plain path) "log";
             Lit JsString.lf ] ].

(** ** The watcher *)

Section Events.

Context `{Host}.

(** [ActionOpts]: the object handed to an action. *)
Record ActionOpts := mkActionOpts {
  o_currentPkg : string;
  o_filePath : string;
  o_packagePath : string;
  o_stats : option Stats;
}.

(** The members of an [Events] object that are set once, by the
    constructor. *)
Record Events := mkEvents {
  root : string;
  config : InternalConfig;
  packages : list Package;
}.

(** What the program does to the world, oldest first in a trace: a call on
    the logger; the call [fn(opts)] of an action, which returns promise [p];
    a child process run to its end; [instance.add(path)] and
    [instance.unwatch(path)] on the watcher. *)
Inductive Effect :=
  | Logged (c : LogCall)
  | Called (f : Fn) (opts : ActionOpts) (p : nat)
  | Spawned (req : SpawnRequest)
  | WatchAdd (path : string)
  | WatchUnwatch (path : string).

(** A promise returned by an action and not yet settled, with what the
    reaction registered by [.then] has captured. *)
Record PendingAction := mkPendingAction {
  p_id : nat;
  p_eventName : string;
  p_relativePath : string;
}.

(** The captured variables of the function that the change listener hands
    to [lock.acquire]. *)
Record Job := mkJob {
  j_options : ActionOpts;
  j_fn : option Fn;
}.

(** The mutable state: the watcher's watch set, [process.env], the trace,
    the pending action promises, the number of promises created, the
    rejections nothing handles, and the lock under [LOCK_NAME]: the promise
    it waits for when it is held between two tasks, and the functions
    queued behind it. *)
Record State := mkState {
  watched : gset string;
  env : gmap string string;
  trace : list Effect;
  pending : list PendingAction;
  promises : nat;
  unhandled : list Thrown;
  lockAwaits : option nat;
  lockQueue : list Job;
}.

Definition emit (e : Effect) (st : State) : State :=
  {| watched := watched st; env := env st; trace := trace st ++ [e];
     pending := pending st; promises := promises st;
     unhandled := unhandled st; lockAwaits := lockAwaits st;
     lockQueue := lockQueue st |}.

Definition logAll (calls : list LogCall) (st : State) : State :=
  fold_left (λ st c, emit (Logged c) st) calls st.

Definition setWatched (w : gset string) (st : State) : State :=
  {| watched := w; env := env st; trace := trace st;
     pending := pending st; promises := promises st;
     unhandled := unhandled st; lockAwaits := lockAwaits st;
     lockQueue := lockQueue st |}.

Definition setEnv (key value : string) (st : State) : State :=
  {| watched := watched st; env := <[key := value]> (env st);
     trace := trace st; pending := pending st; promises := promises st;
     unhandled := unhandled st; lockAwaits := lockAwaits st;
     lockQueue := lockQueue st |}.

Definition setPending (ps : list PendingAction) (n : nat) (st : State) : State :=
  {| watched := watched st; env := env st; trace := trace st;
     pending := ps; promises := n;
     unhandled := unhandled st; lockAwaits := lockAwaits st;
     lockQueue := lockQueue st |}.

Definition reject (e : Thrown) (st : State) : State :=
  {| watched := watched st; env := env st; trace := trace st;
     pending := pending st; promises := promises st;
     unhandled := unhandled st ++ [e]; lockAwaits := lockAwaits st;
     lockQueue := lockQueue st |}.

Definition setLock (awaits : option nat) (queue : list Job) (st : State) : State :=
  {| watched := watched st; env := env st; trace := trace st;
     pending := pending st; promises := promises st;
     unhandled := unhandled st; lockAwaits := awaits;
     lockQueue := queue |}.

(** [instance.add(path)] and [instance.unwatch(path)] *)
Definition watchAdd (path : string) (st : State) : State :=
  emit (WatchAdd path) (setWatched ({[path]} ∪ watched st) st).

Definition watchUnwatch (path : string) (st : State) : State :=
  emit (WatchUnwatch path) (setWatched (watched st ∖ {[path]}) st).

(** A call on the watcher. *)
Definition isWatcherCall (e : Effect) : bool :=
  match e with
  | WatchAdd _ | WatchUnwatch _ => true
  | _ => false
  end.

(** The calls of actions in a trace. *)
Definition actionCalls (tr : list Effect) : list Effect :=
  filter (λ e, match e with Called _ _ _ => true | _ => false end = true) tr.

(** The child processes of a trace. *)
Definition spawnRequests (tr : list Effect) : list SpawnRequest :=
  omap (λ e, match e with Spawned req => Some req | _ => None end) tr.

(** [this.config?.actions?.[key]] *)
Definition action (this : Events) (key : string) : option Fn :=
  match list_find (λ kv, kv.1 = key) (i_actions (config this)) with
  | Some (_, (_, v)) => v
  | None => None
  end.

(** [fn && isAsync(fn) === true] *)
Definition asyncAction (fn : option Fn) : option Fn :=
  match fn with
  | Some f => if isAsync f then Some f else None
  | None => None
  end.

(** The [stdio] option that [runUserFn] builds. *)
Definition stdioFor (this : Events) : StdioOptions :=
  if i_noChildProcessLogs (config this)
  then StdioAll Ignore
  else StdioArray [Inherit; Pipe; ProcessStderr].

(** The arguments of the [spawn.sync] call of [runUserFn]. *)
Definition spawnRequest (this : Events) (options : ActionOpts)
    (env : gmap string string) : SpawnRequest :=
  {| command := head (i_runScripts (config this));
     args := drop 1 (i_runScripts (config this));
     spawnEnv := env;
     cwd := o_packagePath options;
     stdio := stdioFor this |}.

(** The state in which the child process of [runUserFn] has run. *)
Definition spawned (this : Events) (options : ActionOpts) (st : State) : State :=
  {| watched := watched st; env := <["FORCE_COLOR" := "true"]> (env st);
     trace := trace st ++
              [Spawned (spawnRequest this options
                          (<["FORCE_COLOR" := "true"]> (env st)))];
     pending := pending st; promises := promises st;
     unhandled := unhandled st; lockAwaits := lockAwaits st;
     lockQueue := lockQueue st |}.

(** [Events.runUserFn]. It returns nothing: the promise of [fn(...).then(...)]
    is dropped, the reaction staying registered on it. *)
Definition runUserFn (this : Events) (eventName : string)
    (options : ActionOpts) (fn : option Fn) (st : State)
  : State * Result unit :=
  let relativePath := convertPath (root this) (o_filePath options) in
  match asyncAction fn with
  | Some f =>
      let p := promises st in
      let st := emit (Called f options p) st in
      let st := setPending
                  (pending st ++ [ {| p_id := p; p_eventName := eventName;
                                      p_relativePath := relativePath |} ])
                  (S p) st in
      (st, Ok ())
  | None =>
      (* INFO: Experimental *)
      let st := setEnv "FORCE_COLOR" "true" st in
      let req := spawnRequest this options (env st) in
      let st := emit (Spawned req) st in
      match spawnSync req with
      | Throw e => (st, Throw e)
      | Ok cp =>
          match error cp with
          | Some code => (st, Throw (SystemError code))
          | None =>
              match stderr cp with
              | Some buffer => (st, Throw (Error buffer))
              | None => (logAll (EndLogger eventName relativePath) st, Ok ())
              end
          end
      end
  end.

(** How a promise settles. *)
Inductive Settlement :=
  | Fulfilled
  | Rejected (e : Thrown).

(** The reaction of [runUserFn] on the promise of an action: on fulfilment
    [EndLogger]; a rejection has no handler and goes unhandled. *)
Definition settleAction (pa : PendingAction) (s : Settlement) (st : State)
  : State :=
  match s with
  | Fulfilled => logAll (EndLogger (p_eventName pa) (p_relativePath pa)) st
  | Rejected e => reject e st
  end.

(** *** The listeners *)

Definition optsFor (this : Events) (filePath : string) (stats : option Stats)
  : ActionOpts :=
  let r := getPackage (packages this) filePath in
  {| o_currentPkg := currentPkg r; o_filePath := filePath;
     o_packagePath := packagePath r; o_stats := stats |}.

(** The listener of "add" *)
Definition onAdd (this : Events) (filePath : string) (stats : option Stats)
    (st : State) : State * Result unit :=
  let add := action this "add" in
  let options := optsFor this filePath stats in
  (* Add file to watch list *)
  let st := watchAdd filePath st in
  (* Run user function *)
  runUserFn this "Add" options add st.

(** The listener of "addDir" *)
Definition onAddDir (this : Events) (filePath : string) (stats : option Stats)
    (st : State) : State * Result unit :=
  let addDir := action this "addDir" in
  let options := optsFor this filePath stats in
  let st := watchAdd filePath st in
  runUserFn this "Add Dir" options addDir st.

(** The listener of "unlink" *)
Definition onUnlink (this : Events) (filePath : string) (st : State)
  : State * Result unit :=
  let unlink := action this "unlink" in
  let options := optsFor this filePath None in
  (* Remove File from watch list *)
  let st := watchUnwatch filePath st in
  runUserFn this "Remove" options unlink st.

(** The listener of "unlinkDir" *)
Definition onUnlinkDir (this : Events) (filePath : string) (st : State)
  : State * Result unit :=
  let unlinkDir := action this "unlinkDir" in
  let options := optsFor this filePath None in
  let st := watchUnwatch filePath st in
  runUserFn this "Remove Dir" options unlinkDir st.

(** The listener of "error" *)
Definition onError (error_message error_stack : string) (st : State) : State :=
  logAll [ LineBreak;
           Custom [ Raw (Structured {| message := "Error"; clr := false;
                                       spaceContent := true |}) "error";
                    Lit " - "; Lit error_message;
                    Lit ("." +:+ JsString.lf +:+ " Stack - ");
                    Lit error_stack ] ] st.

(** *** The lock

    [AsyncLock.acquire(key, fn)] with a function of no parameter: when the
    key is free [fn] runs at once, otherwise it is queued. The key is
    released when [fn] has returned and, if it returned a promise, when that
    promise has settled; the next queued function then runs. An exception
    of [fn] releases the key as well and rejects the promise that [acquire]
    returned. *)

(** What the function handed to [acquire] hands back. *)
Inductive Handback :=
  | Undefined
  | Promise (p : nat)
  | Threw (e : Thrown).

(** The function that the change listener hands to [acquire],
    [() => { this.runUserFn("Change", ..., change) }]: a body in braces with
    no [return], so it hands back [undefined] unless [runUserFn] throws. *)
Definition changeJob (this : Events) (job : Job) (st : State)
  : State * Handback :=
  match runUserFn this "Change" (j_options job) (j_fn job) st with
  | (st, Ok _) => (st, Undefined)
  | (st, Throw e) => (st, Threw e)
  end.

(** Run the queued functions while the key is free. The promise returned by
    [acquire] is dropped by the listener, so its rejection goes unhandled. *)
Fixpoint runQueue (this : Events) (queue : list Job) (st : State) : State :=
  match queue with
  | [] => setLock None [] st
  | job :: rest =>
      match changeJob this job st with
      | (st, Undefined) => runQueue this rest st
      | (st, Threw e) => runQueue this rest (reject e st)
      | (st, Promise p) => setLock (Some p) rest st
      end
  end.

(** [this.lock.acquire(LOCK_NAME, fn)] *)
Definition acquire (this : Events) (job : Job) (st : State) : State :=
  match lockAwaits st with
  | Some p => setLock (Some p) (lockQueue st ++ [job]) st
  | None => runQueue this [job] st
  end.

(** The function wrapped by [debounce] in [onChange]: what runs when the
    debouncer lets a call through. *)
Definition changeListener (this : Events) (filePath : string)
    (stats : option Stats) (st : State) : State * Result unit :=
  let change := action this "change" in
  let r := getPackage (packages this) filePath in
  match (match stats with
         | Some s => Ok s
         | None => statSync filePath
         end) with
  | Throw e => (st, Throw e)
  | Ok stats =>
      let st :=
        logAll
          [ Log (Structured {| message := JsString.line "Performing Action";
                               clr := true; spaceContent := false |}) "log";
            Custom [ Raw (Structured {| message := "File Changed"; clr := false;
                                        spaceContent := true |}) "info";
                     Lit " - ";
                     Raw (Plain (convertPath (root this) filePath)) "log";
                     Lit JsString.lf ] ] st in
      (* Run user function *)
      let job := {| j_options := {| o_currentPkg := currentPkg r;
                                    o_filePath := filePath;
                                    o_packagePath := packagePath r;
                                    o_stats := Some stats |};
                    j_fn := change |} in
      (acquire this job st, Ok ())
  end.

(** *** Tasks of the event loop

    One task is one notification of the watcher, one call let through by
    the debouncer, or the settlement of an action's promise. *)
Inductive Task :=
  | Add (filePath : string) (stats : option Stats)
  | AddDir (filePath : string) (stats : option Stats)
  | Unlink (filePath : string)
  | UnlinkDir (filePath : string)
  | WatcherError (error_message error_stack : string)
  | Change (filePath : string) (stats : option Stats)
  | Settle (p : nat) (s : Settlement).

(** A promise settles: its reaction runs, and the lock is released if it
    was waiting for this promise. *)
Definition settle (this : Events) (p : nat) (s : Settlement) (st : State)
  : State :=
  match list_find (λ pa, p_id pa = p) (pending st) with
  | None => st
  | Some (_, pa) =>
      let st := setPending (filter (λ pa, p_id pa ≠ p) (pending st))
                           (promises st) st in
      let st := settleAction pa s st in
      if bool_decide (lockAwaits st = Some p)
      then runQueue this (lockQueue st) st
      else st
  end.

Definition step (this : Events) (st : State) (task : Task)
  : State * Result unit :=
  match task with
  | Add filePath stats => onAdd this filePath stats st
  | AddDir filePath stats => onAddDir this filePath stats st
  | Unlink filePath => onUnlink this filePath st
  | UnlinkDir filePath => onUnlinkDir this filePath st
  | WatcherError m s => (onError m s st, Ok ())
  | Change filePath stats => changeListener this filePath stats st
  | Settle p s => (settle this p s st, Ok ())
  end.

(** A run of tasks; an exception that escapes a listener ends its task, not
    the loop. *)
Definition runTasks (this : Events) (st : State) (tasks : list Task) : State :=
  fold_left (λ st task, (step this st task).1) tasks st.

(** The state when watching starts. *)
Definition initialState (env0 : gmap string string) (include0 : list string)
  : State :=
  {| watched := list_to_set include0; env := env0; trace := [];
     pending := []; promises := 0; unhandled := [];
     lockAwaits := None; lockQueue := [] |}.

(** The action promises that are in flight and stem from the change
    listener. *)
Definition changeBodiesInFlight (st : State) : list PendingAction :=
  filter (λ pa, p_eventName pa = "Change") (pending st).

End Events.

(** ** The debouncer

    [debounce(func, wait, options)] of lodash, as a machine over the
    variables of its closure. Time is [Date.now()], in milliseconds. A
    pending timer is the time at which it is due; it runs [timerExpired] at
    that time. *)

Module Debounce.

Local Open Scope Z_scope.

(** The [options] object; an absent member is [None]. *)
Record Options := mkOptions {
  o_leading : option bool;
  o_maxWait : option Z;
  o_trailing : option bool;
}.

(** One invocation of [func]: when, and with which arguments ([None] when
    [func] is applied to no argument). *)
Record Fire (A : Type) := mkFire {
  at_ : Z;
  with_ : option A;
}.
Arguments mkFire {A} at_ with_.
Arguments at_ {A} f.
Arguments with_ {A} f.

(** The variables of the closure, and the timers set and not yet run or
    cleared. [timerId] holds the due time of the timer it names. *)
Record Closure (A : Type) := mkClosure {
  lastArgs : option A;
  timerId : option Z;
  lastCallTime : option Z;
  lastInvokeTime : Z;
  timers : list Z;
}.
Arguments mkClosure {A} lastArgs timerId lastCallTime lastInvokeTime timers.
Arguments lastArgs {A} c.
Arguments timerId {A} c.
Arguments lastCallTime {A} c.
Arguments lastInvokeTime {A} c.
Arguments timers {A} c.

Section Debounce.

Context {A : Type}.

(** The arguments of [debounce]. [clearsTimer] tells the two published
    variants apart: in the branch "handle invocations in a tight loop" the
    later one calls [clearTimeout(timerId)] before it sets a new timer, the
    earlier one does not. *)
Variable wait : Z.
Variable options : Options.
Variable clearsTimer : bool.

Definition leading : bool := default false (o_leading options).
Definition maxing : bool := bool_decide (is_Some (o_maxWait options)).
Definition maxWait : Z := Z.max (default 0 (o_maxWait options)) wait.
Definition trailing : bool := default true (o_trailing options).

(** The variables when [debounce] returns. *)
Definition initial : Closure A :=
  {| lastArgs := None; timerId := None; lastCallTime := None;
     lastInvokeTime := 0; timers := [] |}.

(** [timerId = setTimeout(timerExpired, delay)] at time [now]; a delay
    under one millisecond is one millisecond. *)
Definition setTimer (now delay : Z) (c : Closure A) : Closure A :=
  let due := now + Z.max 1 delay in
  {| lastArgs := lastArgs c; timerId := Some due;
     lastCallTime := lastCallTime c; lastInvokeTime := lastInvokeTime c;
     timers := timers c ++ [due] |}.

(** Remove one timer due at [due]. *)
Fixpoint removeTimer (due : Z) (ts : list Z) : list Z :=
  match ts with
  | [] => []
  | t :: ts' => if bool_decide (t = due) then ts' else t :: removeTimer due ts'
  end.

(** [clearTimeout(timerId)] *)
Definition clearTimer (c : Closure A) : Closure A :=
  match timerId c with
  | None => c
  | Some due =>
      {| lastArgs := lastArgs c; timerId := timerId c;
         lastCallTime := lastCallTime c; lastInvokeTime := lastInvokeTime c;
         timers := removeTimer due (timers c) |}
  end.

(** [invokeFunc(time)] *)
Definition invokeFunc (time : Z) (c : Closure A) : Closure A * list (Fire A) :=
  ({| lastArgs := None; timerId := timerId c;
      lastCallTime := lastCallTime c; lastInvokeTime := time;
      timers := timers c |},
   [ {| at_ := time; with_ := lastArgs c |} ]).

(** [leadingEdge(time)] *)
Definition leadingEdge (time : Z) (c : Closure A) : Closure A * list (Fire A) :=
  (* Reset any maxWait timer. *)
  let c := {| lastArgs := lastArgs c; timerId := timerId c;
              lastCallTime := lastCallTime c; lastInvokeTime := time;
              timers := timers c |} in
  (* Start the timer for the trailing edge. *)
  let c := setTimer time wait c in
  (* Invoke the leading edge. *)
  if leading then invokeFunc time c else (c, []).

(** [remainingWait(time)]; it is only called when [lastCallTime] is set. *)
Definition remainingWait (time : Z) (c : Closure A) : Z :=
  let timeSinceLastCall := time - default time (lastCallTime c) in
  let timeSinceLastInvoke := time - lastInvokeTime c in
  let timeWaiting := wait - timeSinceLastCall in
  if maxing
  then Z.min timeWaiting (maxWait - timeSinceLastInvoke)
  else timeWaiting.

(** [shouldInvoke(time)] *)
Definition shouldInvoke (time : Z) (c : Closure A) : bool :=
  match lastCallTime c with
  | None => true
  | Some lastCallTime =>
      let timeSinceLastCall := time - lastCallTime in
      let timeSinceLastInvoke := time - lastInvokeTime c in
      (wait <=? timeSinceLastCall) || (timeSinceLastCall <? 0)
      || (maxing && (maxWait <=? timeSinceLastInvoke))
  end.

(** [trailingEdge(time)] *)
Definition trailingEdge (time : Z) (c : Closure A) : Closure A * list (Fire A) :=
  let c := {| lastArgs := lastArgs c; timerId := None;
              lastCallTime := lastCallTime c;
              lastInvokeTime := lastInvokeTime c; timers := timers c |} in
  (* Only invoke if we have lastArgs, which means func has been debounced at
     least once. *)
  if trailing && bool_decide (is_Some (lastArgs c))
  then invokeFunc time c
  else ({| lastArgs := None; timerId := None;
           lastCallTime := lastCallTime c;
           lastInvokeTime := lastInvokeTime c; timers := timers c |}, []).

(** [timerExpired()], run at time [time] by a timer that is no longer in
    [timers]. *)
Definition timerExpired (time : Z) (c : Closure A) : Closure A * list (Fire A) :=
  if shouldInvoke time c
  then trailingEdge time c
  else (* Restart the timer. *)
       (setTimer time (remainingWait time c) c, []).

(** [debounced(...args)] called at time [time]. *)
Definition debounced (time : Z) (args : A) (c : Closure A)
  : Closure A * list (Fire A) :=
  let isInvoking := shouldInvoke time c in
  let c := {| lastArgs := Some args; timerId := timerId c;
              lastCallTime := Some time;
              lastInvokeTime := lastInvokeTime c; timers := timers c |} in
  let otherwise :=
    match timerId c with
    | None => (setTimer time wait c, [])
    | Some _ => (c, [])
    end in
  if isInvoking then
    match timerId c with
    | None => leadingEdge time c
    | Some _ =>
        if maxing then
          (* Handle invocations in a tight loop. *)
          let c := if clearsTimer then clearTimer c else c in
          let c := setTimer time wait c in
          invokeFunc time c
        else otherwise
    end
  else otherwise.

(** *** Running the timers

    The earliest pending timer runs first. [elapse fuel horizon c] runs the
    timers that are due at [horizon] or before, all of them when there is no
    horizon; fuel bounds the number of timers run. *)

Definition earliest (ts : list Z) : option Z :=
  match ts with
  | [] => None
  | t :: ts' => Some (fold_left Z.min ts' t)
  end.

Definition dueBy (horizon : option Z) (t : Z) : bool :=
  match horizon with
  | None => true
  | Some h => t <=? h
  end.

Fixpoint elapse (fuel : nat) (horizon : option Z) (c : Closure A)
  : Closure A * list (Fire A) :=
  match fuel with
  | O => (c, [])
  | S fuel' =>
      match earliest (timers c) with
      | None => (c, [])
      | Some t =>
          if dueBy horizon t then
            let c := {| lastArgs := lastArgs c; timerId := timerId c;
                        lastCallTime := lastCallTime c;
                        lastInvokeTime := lastInvokeTime c;
                        timers := removeTimer t (timers c) |} in
            let '(c, fired) := timerExpired t c in
            let '(c, later) := elapse fuel' horizon c in
            (c, fired ++ later)
          else (c, [])
      end
  end.

(** No timer is left to run up to the horizon. *)
Definition quiet (horizon : option Z) (c : Closure A) : bool :=
  match earliest (timers c) with
  | None => true
  | Some t => negb (dueBy horizon t)
  end.

(** The calls of a list, each at its time, the timers due by then running
    before it. *)
Fixpoint calls (fuel : nat) (cs : list (Z * A)) (c : Closure A)
  : Closure A * list (Fire A) :=
  match cs with
  | [] => (c, [])
  | (time, args) :: cs' =>
      let '(c, f1) := elapse fuel (Some time) c in
      let '(c, f2) := debounced time args c in
      let '(c, f3) := calls fuel cs' c in
      (c, f1 ++ f2 ++ f3)
  end.

(** A whole burst: the calls, then every timer that is still pending. *)
Definition burst (fuel : nat) (cs : list (Z * A)) : Closure A * list (Fire A) :=
  let '(c, f1) := calls fuel cs initial in
  let '(c, f2) := elapse fuel None c in
  (c, f1 ++ f2).

(** The calls of a list made on the closure that earlier calls have left,
    then every timer that is still pending; [burst] is [resume] on the
    closure that [debounce] returns. *)
Definition resume (fuel : nat) (cs : list (Z * A)) (c : Closure A)
  : Closure A * list (Fire A) :=
  let '(c, f1) := calls fuel cs c in
  let '(c, f2) := elapse fuel None c in
  (c, f1 ++ f2).

End Debounce.

(** The debouncer of [Events.onChange]:
    [debounce(listener, 2000, { maxWait: 3000, leading: true })]. The
    arguments of a call are the path of the notification. *)
Definition onChangeOptions : Options :=
  {| o_leading := Some true; o_maxWait := Some 3000; o_trailing := None |}.

Definition onChange (clearsTimer : bool) (fuel : nat) (cs : list (Z * string))
  : Closure string * list (Fire string) :=
  burst 2000 onChangeOptions clearsTimer fuel cs.

(** The same debouncer later in its life, on the closure [c] that earlier
    notifications have left. *)
Definition onChangeFrom (clearsTimer : bool) (fuel : nat) (c : Closure string)
    (cs : list (Z * string)) : Closure string * list (Fire string) :=
  resume 2000 onChangeOptions clearsTimer fuel cs c.

(** Nothing is pending: no arguments and no timer. The closure that
    [debounce] returns is so, and so is the closure when the last timer of
    a burst has run. *)
Definition idle {A} (c : Closure A) : Prop :=
  lastArgs c = None ∧ timerId c = None ∧ timers c = [].

(** The quiet window has passed at time [t] since the last call, if there
    was one: a call at [t] starts a new burst. *)
Definition quietSince {A} (c : Closure A) (t : Z) : Prop :=
  match lastCallTime c with
  | None => True
  | Some lc => lc + 2000 ≤ t
  end.

(** What holds of the closure between two tasks: pending arguments have a
    timer set and a call time recorded, and the timer that [timerId] names
    is pending. *)
Definition armed {A} (c : Closure A) : Prop :=
  (is_Some (lastArgs c) → is_Some (timerId c)) ∧
  (is_Some (lastArgs c) → is_Some (lastCallTime c)) ∧
  (∀ due, timerId c = Some due → due ∈ timers c).

(** The times of a list of calls never decrease. *)
Fixpoint ordered {A} (prev : Z) (cs : list (Z * A)) : Prop :=
  match cs with
  | [] => True
  | (t, _) :: cs' => prev ≤ t ∧ ordered t cs'
  end.

(** The calls keep arriving: each comes less than the quiet window after
    the one before it, and all come less than the maximum wait after the
    first call of the burst, made at [first]. *)
Fixpoint sustained {A} (first prev : Z) (cs : list (Z * A)) : Prop :=
  match cs with
  | [] => True
  | (t, _) :: cs' =>
      prev ≤ t ∧ t < prev + 2000 ∧ t < first + 3000 ∧ sustained first t cs'
  end.

End Debounce.

(** ** From the debouncer to the event loop *)

(** Each invocation by the debouncer is one task of the change listener. *)
Definition changeTasks `{Host} (fires : list (Debounce.Fire string))
  : list Task :=
  (λ f, Change (default "" (Debounce.with_ f)) None) <$> fires.

(** ** Reachable states *)

(** Promise identifiers are handed out in increasing order: every pending
    one is below the counter. *)
Definition freshIds `{Host} (st : State) : Prop :=
  Forall (λ pa, p_id pa < promises st) (pending st).

(** Between two tasks of a run that starts from [initialState], the
    identifiers are fresh and the lock is free with nothing queued (see
    [ready_step] below). *)
Definition ready `{Host} (st : State) : Prop :=
  freshIds st ∧ lockAwaits st = None ∧ lockQueue st = [].

(** The part of a trace that a step has added to an earlier one. *)
Definition added `{Host} (before after : State) : list Effect :=
  drop (length (trace before)) (trace after).

(** A host hands back a [stderr] buffer only for a request that pipes file
    descriptor 2, as [spawn.sync] of Node does. *)
Definition respectsStdio `{Host} : Prop :=
  ∀ req cp,
    spawnSync req = Ok cp →
    childStream (stdio req) 2 ≠ Some Pipe →
    stderr cp = None.

(** ** Sample data *)

Definition pkgCore : Package :=
  {| name := "@acme/core"; dir := "/repo/packages/core" |}.
Definition pkgCoreUtils : Package :=
  {| name := "@acme/utils"; dir := "/repo/packages/core/utils" |}.
Definition pkgWeb : Package :=
  {| name := "web"; dir := "/repo/apps/web" |}.

(** A host whose functions are named; "legacy" is the one function that
    [isAsync] does not recognise. [spawn.sync] behaves as that of Node:
    without a command it throws; in the working directory "" and for the
    command "missing" nothing can be started, and the result carries the
    error object ENOENT; otherwise the command runs to its end, and what it
    wrote to its standard error is handed back only when the request pipes
    file descriptor 2: for every other stdio entry the member [stderr] of
    the result is [null]. The command "noisy" writes a warning to its
    standard error and fails; a failing exit status is no error object. *)
Definition sampleHost : Host :=
  {| Fn := string;
     Stats := nat;
     isAsync := λ f, negb (bool_decide (f = "legacy"));
     convertPath := λ root filePath, filePath;
     spawnSync := λ req,
       match command req with
       | None => Throw (TypeError "The file argument must be of type string")
       | Some c =>
           if bool_decide (cwd req = "") || bool_decide (c = "missing")
           then Ok {| error := Some "ENOENT"; stderr := None |}
           else Ok {| error := None;
                      stderr :=
                        match childStream (stdio req) 2 with
                        | Some Pipe =>
                            Some (if bool_decide (c = "noisy")
                                  then "warning: deprecated" else "")
                        | _ => None
                        end |}
       end;
     statSync := λ path, Ok 0 |}.

Definition sampleConfig (scripts : list string)
    (acts : list (string * option (@Fn sampleHost)))
  : @InternalConfig sampleHost :=
  @mkInternalConfig sampleHost "@acme" acts ["src"] scripts false.

Definition sampleEvents (scripts : list string)
    (acts : list (string * option (@Fn sampleHost)))
  : @Events sampleHost :=
  @mkEvents sampleHost "/repo" (sampleConfig scripts acts) [pkgCore; pkgWeb].

Definition sampleState : @State sampleHost := @initialState sampleHost ∅ ["src"].

Definition sampleOpts : @ActionOpts sampleHost :=
  @mkActionOpts sampleHost "core" "/repo/packages/core/a.ts"
                "/repo/packages/core" None.

Definition sampleDefault (argv : ArgsOptions) : @InternalConfig sampleHost :=
  sampleConfig (run argv) [].

Definition sampleIConfig : @IConfig sampleHost :=
  @mkIConfig sampleHost None None None (Some ["npm"; "run"; "build"]) None.

(** ** Proof steps *)

(** Unfold the functions of the debouncer at the options of [onChange]. *)
Ltac unfold_debounce :=
  unfold Debounce.debounced, Debounce.timerExpired, Debounce.trailingEdge,
    Debounce.leadingEdge, Debounce.invokeFunc, Debounce.setTimer,
    Debounce.clearTimer, Debounce.remainingWait;
  change (Debounce.maxing Debounce.onChangeOptions) with true;
  change (Debounce.maxWait 2000 Debounce.onChangeOptions) with 3000%Z;
  change (Debounce.leading Debounce.onChangeOptions) with true;
  change (Debounce.trailing Debounce.onChangeOptions) with true;
  cbn [Debounce.lastArgs Debounce.timerId Debounce.lastCallTime
       Debounce.lastInvokeTime Debounce.timers default from_option id
       andb app].


(** ** Further sample data *)

(** A default configuration with three include entries and a default action
    under "change". *)
Definition sampleDefaultWide (argv : ArgsOptions) : @InternalConfig sampleHost :=
  @mkInternalConfig sampleHost "@acme" [("change", Some "rebuild")]
                    ["src"; "lib"; "test"] (run argv) false.

(** A configuration file with one include entry and an action under "add". *)
Definition sampleUserConfig : @IConfig sampleHost :=
  @mkIConfig sampleHost (Some "@org") (Some [("add", Some "notify")])
             (Some ["app"]) (Some ["make"]) None.

(** A package whose directory is written with a trailing separator. *)
Definition pkgDocs : Package :=
  {| name := "docs"; dir := "/repo/docs/" |}.

(** ** Whole runs of the watcher *)

(** The task is a notification that the path has been added, or removed. *)
Definition adds `{Host} (path : string) (task : Task) : bool :=
  match task with
  | Add filePath _ | AddDir filePath _ => bool_decide (filePath = path)
  | _ => false
  end.

Definition removes `{Host} (path : string) (task : Task) : bool :=
  match task with
  | Unlink filePath | UnlinkDir filePath => bool_decide (filePath = path)
  | _ => false
  end.

(** The keys under which the listeners look for an action. *)
Definition eventKeys : list string :=
  ["add"; "addDir"; "unlink"; "unlinkDir"; "change"].

(** An effect that the configuration accounts for, in a run that started
    with the environment [env0]: the call of a function that the
    configuration holds under an event key and that [isAsync] recognises,
    with the context resolved from the notified path; or the configured
    command, run for a resolved context in [env0] with [FORCE_COLOR] set.
    Logger and watcher calls are not restricted. *)
Definition configured `{Host} (this : Events) (env0 : gmap string string)
    (e : Effect) : Prop :=
  match e with
  | Called f opts _ =>
      isAsync f = true ∧
      (∃ key, key ∈ eventKeys ∧ action this key = Some f) ∧
      opts = optsFor this (o_filePath opts) (o_stats opts)
  | Spawned req =>
      ∃ filePath,
        req = spawnRequest this (optsFor this filePath None)
                (<["FORCE_COLOR" := "true"]> env0)
  | _ => True
  end.

(** ** Loading the configuration file *)

Module ConfigFile.

(** The state of a promise whose rejection reason is a string. *)
Inductive Promise (V : Type) :=
  | Pending
  | Fulfilled (value : V)
  | Rejected (reason : string).
Arguments Pending {V}.
Arguments Fulfilled {V} value.
Arguments Rejected {V} reason.

(** The two functions handed to the executor; a settled promise stays as it
    is. *)
Definition resolve {V} (value : V) (p : Promise V) : Promise V :=
  match p with
  | Pending => Fulfilled value
  | _ => p
  end.

Definition reject {V} (reason : string) (p : Promise V) : Promise V :=
  match p with
  | Pending => Rejected reason
  | _ => p
  end.

Section GetConfigFile.

(** The type of a configuration; [process.cwd()], [path.join] and the
    dynamic [import], which returns the module or throws. A module without
    a default export has [undefined] there. *)
Context {Config : Type}.
Variable cwd : string.
Variable join : string → string → string.

Record DynamicLoad := mkDynamicLoad {
  default_ : option Config;
}.

Variable import_ : string → Result DynamicLoad.

(** What a call leaves behind: the promise it returns, and how the
    [async] executor ended. The constructor of the promise ignores what the
    executor returns, so an exception of the executor is the rejection of a
    promise that nothing handles. *)
Record Outcome := mkOutcome {
  promise : Promise (option Config);
  executor : Result unit;
}.

(** [(configFile as DynamicLoad).default] *)
Definition readDefault (configFile : option DynamicLoad)
  : Result (option Config) :=
  match configFile with
  | Some m => Ok (default_ m)
  | None =>
      Throw (TypeError "Cannot read properties of undefined (reading 'default')")
  end.

(** [getConfigFile] *)
Definition getConfigFile (configPath : string) : Outcome :=
  let filePath := join cwd configPath in
  let p := Pending in
  let '(configFile, p) :=
    match import_ filePath with
    | Ok m => (Some m, p)
    | Throw err =>
        (None, reject ("Couldn't find the config file at " +:+ filePath) p)
    end in
  match readDefault configFile with
  | Ok value => {| promise := resolve value p; executor := Ok () |}
  | Throw e => {| promise := p; executor := Throw e |}
  end.

End GetConfigFile.

End ConfigFile.

(** ** The console logger *)

Module LoggerBase.

(** The styles of chalk that the logger uses. *)
Inductive Style :=
  | White
  | BgGreenBlack
  | BgBlueBrightBlack
  | BgRedBrightBlack
  | YellowBrightBlack.

(** [chalk]: how a style renders a text. *)
Definition Chalk : Type := Style → string → string.

(** The object form of an argument, as it is at run time: every member may
    be absent, an absent flag is [false]. *)
Record LoggerAction := mkLoggerAction {
  message : option string;
  br : bool;
  clr : bool;
  custom : option (Chalk → string);
}.

Inductive Params :=
  | Text (text : string)
  | Object (params : LoggerAction).

(** What reaches the terminal: [process.stdout.write(s)] and
    [console.log(s)]. *)
Inductive Output :=
  | StdoutWrite (s : string)
  | ConsoleLog (s : string).

(** A member in a string concatenation: [undefined] reads "undefined". *)
Definition concatenated (member : option string) : string :=
  default "undefined" member.

Section LoggerBase.

Variable chalk : Chalk.

(** [ClearScreen] *)
Definition ClearScreen : list Output := [StdoutWrite (String "027" "c")].

(** The decorator [clr()]: the method it returns in place of
    [originalMethod]. *)
Definition clr' (originalMethod : Params → list Output) (params : Params)
  : list Output :=
  match params with
  | Object o =>
      (if clr o then ClearScreen else []) ++ originalMethod params
  | Text _ => originalMethod params
  end.

(** The methods as written, before decoration. *)
Definition Log_method (params : Params) : list Output :=
  match params with
  | Text text => [ConsoleLog (chalk White text)]
  | Object o =>
      let br := if br o then JsString.lf else "" in
      let message := br in
      let message :=
        match custom o with
        | Some f => message +:+ f chalk
        | None => message +:+ concatenated (LoggerBase.message o)
        end in
      [ConsoleLog message]
  end.

Definition Sucessful_method (params : Params) : list Output :=
  match params with
  | Text text => [ConsoleLog (chalk BgGreenBlack text)]
  | Object o =>
      let br := if br o then JsString.lf else "" in
      let message := br +:+ concatenated (message o) in
      [ConsoleLog (chalk BgGreenBlack message)]
  end.

Definition Info_method (params : Params) : list Output :=
  match params with
  | Text text => [ConsoleLog (chalk BgBlueBrightBlack text)]
  | Object o =>
      let br := if br o then JsString.lf else "" in
      let message := br +:+ concatenated (message o) in
      [ConsoleLog (chalk BgBlueBrightBlack message)]
  end.

Definition Error_method (params : Params) : list Output :=
  match params with
  | Text text => [ConsoleLog (chalk BgRedBrightBlack text)]
  | Object o =>
      let br := if br o then JsString.lf else "" in
      let message := br +:+ concatenated (message o) in
      [ConsoleLog (chalk BgRedBrightBlack message)]
  end.

Definition Warn_method (params : Params) : list Output :=
  match params with
  | Text text => [ConsoleLog (chalk YellowBrightBlack text)]
  | Object o =>
      let br := if br o then JsString.lf else "" in
      let message := br +:+ concatenated (message o) in
      [ConsoleLog (chalk YellowBrightBlack message)]
  end.

(** The methods of a [LoggerBase], each decorated with [@clr()]. *)
Definition Log : Params → list Output := clr' Log_method.
Definition Sucessful : Params → list Output := clr' Sucessful_method.
Definition Info : Params → list Output := clr' Info_method.
Definition Error : Params → list Output := clr' Error_method.
Definition Warn : Params → list Output := clr' Warn_method.

End LoggerBase.

(** A chalk that writes the style's name around the text. *)
Definition sampleChalk : Chalk := λ style text,
  match style with
  | White => "white(" +:+ text +:+ ")"
  | BgGreenBlack => "bgGreen.black(" +:+ text +:+ ")"
  | BgBlueBrightBlack => "bgBlueBright.black(" +:+ text +:+ ")"
  | BgRedBrightBlack => "bgRedBright.black(" +:+ text +:+ ")"
  | YellowBrightBlack => "yellowBright.black(" +:+ text +:+ ")"
  end.

End LoggerBase.

(** The key under which the listener of a notification looks for its
    action, the event name it hands to [runUserFn], and the notified path;
    [None] for a task that is no notification of a file event. *)
Definition notified `{Host} (task : Task) : option (string * string * string) :=
  match task with
  | Add filePath _ => Some ("add", "Add", filePath)
  | AddDir filePath _ => Some ("addDir", "Add Dir", filePath)
  | Unlink filePath => Some ("unlink", "Remove", filePath)
  | UnlinkDir filePath => Some ("unlinkDir", "Remove Dir", filePath)
  | Change filePath _ => Some ("change", "Change", filePath)
  | _ => None
  end.

(** * Properties *)

(** ** Strings *)

Lemma append_cons a (s1 s2 : string) : String a s1 +:+ s2 = String a (s1 +:+ s2).
Proof. reflexivity. Qed.

Lemma append_assoc (s1 s2 s3 : string) :
  (s1 +:+ s2) +:+ s3 = s1 +:+ (s2 +:+ s3).
Proof.
  induction s1 as [|a s1 IH]; [done |].
  rewrite !append_cons. by f_equal.
Qed.

Lemma startsWith_spec hay needle :
  JsString.startsWith hay needle = true ↔ ∃ post, hay = needle +:+ post.
Proof.
  revert hay. induction needle as [|a needle IH]; intros hay; simpl.
  - split; [intros _; by exists hay | done].
  - setoid_rewrite append_cons. destruct hay as [|b hay].
    + split; [done | intros [post Hp]; discriminate].
    + destruct (Ascii.eqb_spec a b) as [->|Hne].
      * rewrite IH. split; intros [post Hp]; exists post.
        -- by rewrite Hp.
        -- by injection Hp.
      * split; [done | intros [post Hp]; injection Hp; congruence].
Qed.

(** [includes] is substring containment. *)
Lemma includes_spec hay needle :
  JsString.includes hay needle = true ↔
  ∃ pre post, hay = pre +:+ needle +:+ post.
Proof.
  induction hay as [|b hay IH]; simpl.
  - rewrite orb_false_r, startsWith_spec. split.
    + intros [post Hp]. by exists "", post.
    + intros [pre [post Hp]]. destruct pre; [by exists post | discriminate].
  - rewrite orb_true_iff, IH. split.
    + intros [Hs | [pre [post Hp]]].
      * apply startsWith_spec in Hs as [post Hp]. by exists "", post.
      * exists (String b pre), post. rewrite append_cons. by rewrite Hp.
    + intros [pre [post Hp]]. destruct pre as [|c pre].
      * left. apply startsWith_spec. by exists post.
      * right. rewrite append_cons in Hp. injection Hp as _ Hp.
        by exists pre, post.
Qed.

Lemma split_nonempty sep s : JsString.split sep s ≠ [].
Proof.
  destruct s as [|c rest]; simpl; [done |].
  destruct (Ascii.eqb c sep); [done |].
  by destruct (JsString.split sep rest).
Qed.

(** Joining the segments gives the string back. *)
Lemma join_split sep s : JsString.join sep (JsString.split sep s) = s.
Proof.
  induction s as [|c rest IH]; simpl; [done |].
  pose proof (split_nonempty sep rest) as Hn.
  destruct (Ascii.eqb_spec c sep) as [->|Hne].
  - destruct (JsString.split sep rest) as [|seg segs]; [done |].
    by rewrite <- IH.
  - destruct (JsString.split sep rest) as [|seg segs]; [done |].
    rewrite <- IH. by destruct segs.
Qed.

(** No segment holds the separator. *)
Lemma split_lacks sep s :
  Forall (λ seg, JsString.lacks sep seg = true) (JsString.split sep s).
Proof.
  induction s as [|c rest IH]; simpl; [by repeat constructor |].
  destruct (Ascii.eqb_spec c sep) as [->|Hne]; [by constructor |].
  assert (negb (Ascii.eqb c sep) = true) as Hc
    by (apply negb_true_iff; by apply Ascii.eqb_neq).
  destruct (JsString.split sep rest) as [|seg segs].
  - repeat constructor. simpl. by rewrite Hc.
  - inversion IH as [|? ? Hseg Hsegs]; subst. constructor; [|done].
    simpl. by rewrite Hc, Hseg.
Qed.

Lemma last_cons_cons {A} (x y : A) l : last (x :: y :: l) = last (y :: l).
Proof. done. Qed.

Lemma join_last sep segs :
  segs ≠ [] →
  JsString.join sep segs = default "" (last segs) ∨
  ∃ pre, JsString.join sep segs = pre +:+ String sep (default "" (last segs)).
Proof.
  induction segs as [|seg segs IH]; [done |]. intros _.
  destruct segs as [|seg' segs]; [by left |].
  right. rewrite last_cons_cons.
  change (JsString.join sep (seg :: seg' :: segs))
    with (seg +:+ String sep (JsString.join sep (seg' :: segs))).
  destruct IH as [IH | [pre IH]]; [done | |]; rewrite IH.
  - by exists seg.
  - exists (seg +:+ String sep pre). by rewrite append_assoc.
Qed.

(** The basename of a directory is its part after the last separator, or
    all of it when it has none. *)
Lemma dirBasename_spec d :
  JsString.lacks "/" (dirBasename d) = true ∧
  (d = dirBasename d ∨ ∃ pre, d = pre +:+ String "/" (dirBasename d)).
Proof.
  unfold dirBasename, JsString.pop.
  pose proof (split_nonempty "/" d) as Hn.
  pose proof (split_lacks "/" d) as Hl.
  pose proof (join_last "/" _ Hn) as Hj. rewrite join_split in Hj.
  split; [|done].
  destruct (last (JsString.split "/" d)) as [seg|] eqn:E; [|done].
  apply last_Some in E as [l' E]. rewrite E in Hl.
  apply Forall_app in Hl as [_ Hl]. by inversion Hl.
Qed.

(** ** Package resolution *)

Lemma getPackage_fold path packages acc :
  fold_left (getPackage_visit path) packages acc =
  from_option resolvedOf acc (last (matching packages path)).
Proof.
  revert acc. induction packages as [|pkg packages IH]; intros acc; [done |].
  cbn [fold_left]. rewrite IH. unfold matching. rewrite filter_cons.
  unfold getPackage_visit.
  destruct (JsString.includes path (dir pkg)) eqn:E.
  - rewrite decide_True by done.
    destruct (filter _ packages) as [|p ps] eqn:F; [done |].
    rewrite last_cons_cons.
    assert (is_Some (last (p :: ps))) as [q ->] by by apply last_is_Some.
    done.
  - by rewrite decide_False by congruence.
Qed.

(** The scan returns what the last matching package gives, and the two
    empty strings when no package matches. *)
Lemma getPackage_last_match packages path :
  getPackage packages path =
  from_option resolvedOf {| currentPkg := ""; packagePath := "" |}
              (last (matching packages path)).
Proof. apply getPackage_fold. Qed.

(** C3, as amended. Containment is the test the scan performs, that the
    package's directory occurs in the path ([path.includes(pkg.dir)]). When
    exactly one package of the list contains the path, resolution returns
    the basename of that package's directory as the name, and the directory;
    when none does it returns two empty strings; when several do, the last
    one in list order decides. The function is total. *)
Theorem getPackage_resolution (packages : list Package) (path : string) :
  (∀ pkg, matching packages path = [pkg] →
     getPackage packages path = resolvedOf pkg) ∧
  (matching packages path = [] →
     getPackage packages path = {| currentPkg := ""; packagePath := "" |}) ∧
  (∀ earlier pkg, matching packages path = earlier ++ [pkg] →
     getPackage packages path = resolvedOf pkg).
Proof.
  rewrite getPackage_last_match. repeat split.
  - by intros pkg ->.
  - by intros ->.
  - intros earlier pkg ->. by rewrite last_snoc.
Qed.

Lemma getPackage_resolution_witness :
  getPackage [pkgCore; pkgWeb] "/repo/packages/core/src/index.ts"
    = resolvedOf pkgCore ∧
  getPackage [pkgCore; pkgWeb] "/repo/README.md"
    = {| currentPkg := ""; packagePath := "" |} ∧
  getPackage [pkgCore; pkgCoreUtils; pkgWeb] "/repo/packages/core/utils/a.ts"
    = resolvedOf pkgCoreUtils.
Proof.
  split; [|split].
  - exact (proj1 (getPackage_resolution [pkgCore; pkgWeb]
                    "/repo/packages/core/src/index.ts") pkgCore eq_refl).
  - exact (proj1 (proj2 (getPackage_resolution [pkgCore; pkgWeb]
                           "/repo/README.md")) eq_refl).
  - exact (proj2 (proj2 (getPackage_resolution [pkgCore; pkgCoreUtils; pkgWeb]
                           "/repo/packages/core/utils/a.ts"))
                 [pkgCore] pkgCoreUtils eq_refl).
Defined.

(** C3 as the specification words it fails on a scoped package: exactly one
    package contains the path, and the name returned is the basename of its
    directory, which is not the package's name. *)
Lemma getPackage_name_counterexample :
  matching [pkgCore; pkgWeb] "/repo/packages/core/src/index.ts" = [pkgCore] ∧
  currentPkg (getPackage [pkgCore; pkgWeb] "/repo/packages/core/src/index.ts")
    = "core" ∧
  name pkgCore = "@acme/core" ∧
  currentPkg (getPackage [pkgCore; pkgWeb] "/repo/packages/core/src/index.ts")
    ≠ name pkgCore.
Proof. split; [|split; [|split]]; [by vm_compute.. | discriminate]. Qed.

(** C10. Whenever a package matches, the reported [currentPkg] is the last
    "/"-separated segment of the directory of the last matching package, and
    [packagePath] is that directory; the manifest name is not consulted, so
    [currentPkg] equals the declared name exactly when the basename does. *)
Theorem getPackage_currentPkg_is_basename (packages : list Package) (path : string) :
  match last (matching packages path) with
  | Some pkg =>
      currentPkg (getPackage packages path)
        = default "" (last (JsString.split "/" (dir pkg))) ∧
      packagePath (getPackage packages path) = dir pkg ∧
      JsString.lacks "/" (currentPkg (getPackage packages path)) = true ∧
      (dir pkg = currentPkg (getPackage packages path) ∨
       ∃ pre, dir pkg = pre +:+ String "/" (currentPkg (getPackage packages path))) ∧
      (currentPkg (getPackage packages path) = name pkg ↔
       dirBasename (dir pkg) = name pkg)
  | None => currentPkg (getPackage packages path) = ""
  end.
Proof.
  rewrite getPackage_last_match.
  destruct (last (matching packages path)) as [pkg|]; [|done]. simpl.
  pose proof (dirBasename_spec (dir pkg)) as [Hl Hd]. done.
Qed.

(** The declared name and the reported name differ on a scoped package. *)
Example getPackage_scoped_package :
  currentPkg (getPackage [pkgCore] "/repo/packages/core/a.ts") = "core" ∧
  name pkgCore ≠ "core".
Proof. split; [by vm_compute | discriminate]. Qed.

(** Containment is occurrence of the directory in the path: a sibling
    directory whose name extends a package's directory matches it too. *)
Example getPackage_sibling_prefix :
  getPackage [ {| name := "core-extra"; dir := "/repo/packages/core-extra" |};
               pkgCore ] "/repo/packages/core-extra/x.ts"
  = resolvedOf pkgCore.
Proof. by vm_compute. Qed.

(** ** Configuration *)

Section ConfigProperties.

Context `{Host}.
Variable defaultConfig : ArgsOptions → InternalConfig.

Lemma acquirePrefix_keeps config packages config' :
  acquirePrefix config packages = Ok config' →
  actions config' = actions config ∧ include config' = include config ∧
  runScripts config' = runScripts config.
Proof.
  unfold acquirePrefix. destruct (falsyString (prefix config)).
  - destruct packages as [|pkg0 ?]; [done |].
    destruct (JsString.split "/" (name pkg0)); [done |].
    by intros [= <-].
  - by intros [= <-].
Qed.

Lemma acquirePrefix_returns config packages :
  (falsyString (prefix config) = true → packages ≠ []) →
  ∃ config', acquirePrefix config packages = Ok config'.
Proof.
  unfold acquirePrefix. intros Hp.
  destruct (falsyString (prefix config)); [|by eexists].
  destruct packages as [|pkg0 ?]; [by destruct Hp |].
  pose proof (split_nonempty "/" (name pkg0)).
  destruct (JsString.split "/" (name pkg0)); [done | by eexists].
Qed.







End ConfigProperties.



(** Without run arguments the configuration file's list stays. *)
Example config_file_runScripts_kept :
  (λ r, match r with Ok final => Some (i_runScripts final) | Throw _ => None end)
    (@MergeNormalizeConfig sampleHost sampleDefault sampleIConfig [pkgCore]
                           (mkArgs []))
  = Some ["npm"; "run"; "build"].
Proof. reflexivity. Qed.

(** ** The action runner *)

Section RunnerProperties.

Context `{Host}.
Implicit Types (this : Events) (st : State) (options : ActionOpts).

Lemma logAll_app calls st :
  logAll calls st =
  {| watched := watched st; env := env st;
     trace := trace st ++ (Logged <$> calls);
     pending := pending st; promises := promises st;
     unhandled := unhandled st; lockAwaits := lockAwaits st;
     lockQueue := lockQueue st |}.
Proof.
  revert st. induction calls as [|c calls IH]; intros st.
  - destruct st. cbn. by rewrite app_nil_r.
  - cbn [logAll fold_left]. fold (logAll calls (emit (Logged c) st)).
    rewrite IH. cbn. by rewrite <- app_assoc.
Qed.

(** The asynchronous branch: the action is called once, its promise is
    recorded with the reaction, and [runUserFn] returns. *)
Lemma runUserFn_async this eventName options fn f st :
  asyncAction fn = Some f →
  runUserFn this eventName options fn st =
  ({| watched := watched st; env := env st;
      trace := trace st ++ [Called f options (promises st)];
      pending := pending st ++
                 [ {| p_id := promises st; p_eventName := eventName;
                      p_relativePath := convertPath (root this) (o_filePath options) |} ];
      promises := S (promises st);
      unhandled := unhandled st; lockAwaits := lockAwaits st;
      lockQueue := lockQueue st |}, Ok ()).
Proof. intros Hf. unfold runUserFn. by rewrite Hf. Qed.

(** The fallback branch: the child process runs once; [EndLogger] follows
    only when the result has neither an error nor a stderr buffer. *)
Lemma runUserFn_spawn this eventName options fn st :
  asyncAction fn = None →
  runUserFn this eventName options fn st =
  match spawnSync (spawnRequest this options
                     (<["FORCE_COLOR" := "true"]> (env st))) with
  | Throw e => (spawned this options st, Throw e)
  | Ok cp =>
      match error cp, stderr cp with
      | Some code, _ => (spawned this options st, Throw (SystemError code))
      | None, Some buffer => (spawned this options st, Throw (Error buffer))
      | None, None =>
          (logAll (EndLogger eventName
                     (convertPath (root this) (o_filePath options)))
                  (spawned this options st), Ok ())
      end
  end.
Proof.
  intros Hf. unfold runUserFn. rewrite Hf. cbn.
  destruct (spawnSync _) as [cp|e]; [|done].
  destruct (error cp); [done |]. by destruct (stderr cp).
Qed.

Lemma settle_fresh this st0 st pa s :
  freshIds st →
  lockAwaits st0 = None →
  pending st0 = pending st ++ [pa] →
  p_id pa = promises st →
  settle this (promises st) s st0 =
  settleAction pa s (setPending (pending st) (promises st0) st0).
Proof.
  intros Hfresh Hlock Hp Hid. unfold settle. rewrite Hp.
  assert (Forall (λ pa', ¬ p_id pa' = promises st) (pending st)) as Hne.
  { eapply Forall_impl; [exact Hfresh |]. simpl. lia. }
  assert (list_find (λ pa', p_id pa' = promises st) (pending st ++ [pa])
          = Some (length (pending st), pa)) as ->.
  { apply list_find_Some. split; [by apply list_lookup_middle |].
    split; [done |]. intros j y Hj Hlt.
    rewrite lookup_app_l in Hj by done.
    eapply Forall_lookup_1 in Hne; [|done]. done. }
  assert (filter (λ pa', p_id pa' ≠ promises st) (pending st ++ [pa])
          = pending st) as ->.
  { rewrite filter_app, filter_cons, decide_False, filter_nil, app_nil_r
      by (intros Hc; by apply Hc).
    clear -Hne. induction (pending st) as [|x l IH]; [done |].
    inversion Hne; subst. rewrite filter_cons, decide_True by done.
    by rewrite IH. }
  assert (lockAwaits (settleAction pa s
            (setPending (pending st) (promises st0) st0)) = None) as Hl.
  { destruct s; cbn [settleAction]; [by rewrite logAll_app | done]. }
  by rewrite Hl, bool_decide_eq_false_2.
Qed.


(** The stdio that [runUserFn] builds never pipes the child's standard
    error. *)
Lemma stdioFor_stderr this :
  childStream (stdioFor this) 2 ≠ Some Pipe.
Proof. unfold stdioFor. by destruct (i_noChildProcessLogs (config this)). Qed.

(** C6. The promise of an asynchronous action has one reaction, for
    fulfilment. When the action rejects, the rejection is recorded as
    unhandled, the action has been called once, and no logger call is
    made. *)
Theorem rejected_action_unhandled this (eventName : string) options
    (fn : option Fn) (f : Fn) st (e : Thrown) :
  ready st →
  asyncAction fn = Some f →
  let after := (runUserFn this eventName options fn st).1 in
  let final := settle this (promises st) (Rejected e) after in
  (runUserFn this eventName options fn st).2 = Ok () ∧
  unhandled final = unhandled st ++ [e] ∧
  trace final = trace st ++ [Called f options (promises st)] ∧
  pending final = pending st.
Proof.
  intros (Hfresh & Hlock & _) Hf. cbv zeta.
  rewrite (runUserFn_async _ _ _ _ _ _ Hf). cbn [fst snd].
  by erewrite settle_fresh; [| exact Hfresh | done | done | done].
Qed.

(** C7, as amended. The fallback runs the head of the command list with the
    rest of the list as arguments, in the package directory of the context,
    with [process.env] in which [FORCE_COLOR] has been set to "true". With
    [noChildProcessLogs] all three streams are ignored; without it stdin is
    inherited, stdout is a pipe that the parent collects, and stderr is the
    parent's [process.stderr]. The call is synchronous: the result is
    examined and the entry logged within the same call of [runUserFn]. *)
Theorem spawn_contract this (eventName : string) options (fn : option Fn) st :
  asyncAction fn = None →
  let req := spawnRequest this options (<["FORCE_COLOR" := "true"]> (env st)) in
  let after := (runUserFn this eventName options fn st).1 in
  (∃ rest, trace after = trace st ++ Spawned req :: rest) ∧
  command req = head (i_runScripts (config this)) ∧
  args req = drop 1 (i_runScripts (config this)) ∧
  (∀ exe rest, i_runScripts (config this) = exe :: rest →
     command req = Some exe ∧ args req = rest) ∧
  cwd req = o_packagePath options ∧
  spawnEnv req = <["FORCE_COLOR" := "true"]> (env st) ∧
  env after = <["FORCE_COLOR" := "true"]> (env st) ∧
  (i_noChildProcessLogs (config this) = true →
     ∀ fd, fd < 3 → childStream (stdio req) fd = Some Ignore) ∧
  (i_noChildProcessLogs (config this) = false →
     childStream (stdio req) 0 = Some Inherit ∧
     childStream (stdio req) 1 = Some Pipe ∧
     childStream (stdio req) 2 = Some ProcessStderr).
Proof.
  intros Hf. cbv zeta. rewrite (runUserFn_spawn _ _ _ _ _ Hf).
  split_and!; try done.
  - destruct (spawnSync _) as [[[code|] [buffer|]]|e];
      cbn [error stderr fst snd spawned trace]; try (by exists []).
    rewrite logAll_app. cbn [trace spawned]. rewrite <- app_assoc. by eexists.
  - intros exe rest Hr. cbn. by rewrite Hr.
  - destruct (spawnSync _) as [[[code|] [buffer|]]|e];
      cbn [error stderr fst snd spawned env]; try done;
      by rewrite logAll_app.
  - intros Hn fd Hfd. cbn. unfold stdioFor. rewrite Hn. cbn.
    by rewrite bool_decide_eq_true_2.
  - intros Hn. cbn. unfold stdioFor. by rewrite Hn.
Qed.

End RunnerProperties.

(** ** The listeners and the watch set *)

Section ListenerProperties.

Context `{Host}.
Implicit Types (this : Events) (st : State) (options : ActionOpts).

(** [runUserFn] leaves the watch set and the lock alone, and only adds to
    the trace. *)
Lemma runUserFn_frame this eventName options fn st :
  let after := (runUserFn this eventName options fn st).1 in
  watched after = watched st ∧
  lockAwaits after = lockAwaits st ∧
  lockQueue after = lockQueue st ∧
  unhandled after = unhandled st ∧
  trace after = trace st ++ added st after.
Proof.
  cbv zeta. unfold added. destruct (asyncAction fn) as [f|] eqn:Hf.
  - rewrite (runUserFn_async _ _ _ _ _ _ Hf). cbn.
    by rewrite drop_app_length.
  - rewrite (runUserFn_spawn _ _ _ _ _ Hf).
    destruct (spawnSync _) as [[[code|] [buffer|]]|e];
      cbn [error stderr fst snd spawned]; rewrite ?logAll_app; cbn;
      rewrite <- ?app_assoc; by rewrite drop_app_length.
Qed.

(** What the action runner adds to the trace is no call on the watcher. *)
Lemma runUserFn_no_watcher_call this eventName options fn st :
  Forall (λ e, isWatcherCall e = false)
         (added st (runUserFn this eventName options fn st).1).
Proof.
  unfold added. destruct (asyncAction fn) as [f|] eqn:Hf.
  - rewrite (runUserFn_async _ _ _ _ _ _ Hf). cbn.
    rewrite drop_app_length. by repeat constructor.
  - rewrite (runUserFn_spawn _ _ _ _ _ Hf).
    destruct (spawnSync _) as [[[code|] [buffer|]]|e];
      cbn [error stderr fst snd spawned]; rewrite ?logAll_app; cbn;
      rewrite <- ?app_assoc; rewrite drop_app_length; by repeat constructor.
Qed.

(** Each listener hands the event's name, the context resolved from the
    notified path and the action configured under the event's key to the
    action runner, after its call on the watcher. *)
Lemma listeners_hand_over this (filePath : string) (stats : option Stats) st :
  step this st (Add filePath stats)
    = runUserFn this "Add" (optsFor this filePath stats) (action this "add")
                (watchAdd filePath st) ∧
  step this st (AddDir filePath stats)
    = runUserFn this "Add Dir" (optsFor this filePath stats)
                (action this "addDir") (watchAdd filePath st) ∧
  step this st (Unlink filePath)
    = runUserFn this "Remove" (optsFor this filePath None)
                (action this "unlink") (watchUnwatch filePath st) ∧
  step this st (UnlinkDir filePath)
    = runUserFn this "Remove Dir" (optsFor this filePath None)
                (action this "unlinkDir") (watchUnwatch filePath st) ∧
  o_packagePath (optsFor this filePath stats)
    = packagePath (getPackage (packages this) filePath) ∧
  o_currentPkg (optsFor this filePath stats)
    = currentPkg (getPackage (packages this) filePath) ∧
  o_filePath (optsFor this filePath stats) = filePath.
Proof. done. Qed.

Lemma watch_add_twice (p : string) (w : gset string) :
  {[p]} ∪ ({[p]} ∪ w) = {[p]} ∪ w.
Proof. by rewrite (assoc_L (∪)), union_idemp_L. Qed.

Lemma watch_remove_twice (p : string) (w : gset string) :
  w ∖ {[p]} ∖ {[p]} = w ∖ {[p]}.
Proof.
  apply set_eq. intros x. rewrite !elem_of_difference. tauto.
Qed.

(** C8. The listeners of "add" and "addDir" put the notified path into the
    watch set and those of "unlink" and "unlinkDir" take it out. The call on
    the watcher is the first thing a listener adds to the trace, everything
    the action runner does comes after it. Adding a path twice or removing it
    twice gives the watch set of doing it once, and the call on the watcher
    cannot fail: a listener returns or throws as the action runner does. *)
Theorem add_unlink_update_watch_set this (filePath : string)
    (stats : option Stats) st :
  let added1 := (onAdd this filePath stats st).1 in
  let removed1 := (onUnlink this filePath st).1 in
  (watched added1 = {[filePath]} ∪ watched st ∧
   watched (onAddDir this filePath stats st).1 = {[filePath]} ∪ watched st ∧
   watched removed1 = watched st ∖ {[filePath]} ∧
   watched (onUnlinkDir this filePath st).1 = watched st ∖ {[filePath]}) ∧
  (filePath ∈ watched added1 ∧ filePath ∉ watched removed1) ∧
  (∃ rest, trace added1 = trace st ++ WatchAdd filePath :: rest ∧
           Forall (λ e, isWatcherCall e = false) rest) ∧
  (∃ rest, trace (onAddDir this filePath stats st).1
             = trace st ++ WatchAdd filePath :: rest ∧
           Forall (λ e, isWatcherCall e = false) rest) ∧
  (∃ rest, trace removed1 = trace st ++ WatchUnwatch filePath :: rest ∧
           Forall (λ e, isWatcherCall e = false) rest) ∧
  (∃ rest, trace (onUnlinkDir this filePath st).1
             = trace st ++ WatchUnwatch filePath :: rest ∧
           Forall (λ e, isWatcherCall e = false) rest) ∧
  (watched (onAdd this filePath stats added1).1 = watched added1 ∧
   watched (onAddDir this filePath stats added1).1 = watched added1 ∧
   watched (onUnlink this filePath removed1).1 = watched removed1 ∧
   watched (onUnlinkDir this filePath removed1).1 = watched removed1) ∧
  ((onAdd this filePath stats added1).2
     = (runUserFn this "Add" (optsFor this filePath stats) (action this "add")
          (watchAdd filePath added1)).2 ∧
   (onUnlink this filePath removed1).2
     = (runUserFn this "Remove" (optsFor this filePath None)
          (action this "unlink") (watchUnwatch filePath removed1)).2).
Proof.
  cbv zeta. unfold onAdd, onAddDir, onUnlink, onUnlinkDir.
  assert (∀ eventName options fn s e,
            trace s = trace st ++ [e] →
            ∃ rest, trace (runUserFn this eventName options fn s).1
                      = trace st ++ e :: rest ∧
                    Forall (λ e, isWatcherCall e = false) rest) as Htrace.
  { intros eventName options fn s e Hs.
    exists (added s (runUserFn this eventName options fn s).1).
    split; [|apply runUserFn_no_watcher_call].
    destruct (runUserFn_frame this eventName options fn s) as (_ & _ & _ & _ & ->).
    by rewrite Hs, <- app_assoc. }
  split_and!;
    repeat (match goal with
            | |- context [watched (runUserFn ?t ?n ?o ?f ?s).1] =>
                rewrite (proj1 (runUserFn_frame t n o f s))
            end; cbn [watchAdd watchUnwatch emit setWatched watched]);
    try (by apply Htrace); try done.
  - apply elem_of_union_l. by apply elem_of_singleton.
  - rewrite elem_of_difference, elem_of_singleton. tauto.
  - apply watch_add_twice.
  - apply watch_add_twice.
  - apply watch_remove_twice.
  - apply watch_remove_twice.
Qed.

End ListenerProperties.

(** ** The lock and the event loop *)

Section LockProperties.

Context `{Host}.
Implicit Types (this : Events) (st : State) (options : ActionOpts).

Lemma ready_initial env0 include0 : ready (initialState env0 include0).
Proof. by repeat split; [constructor | ..]. Qed.

Lemma runUserFn_ready this eventName options fn st :
  ready st → ready (runUserFn this eventName options fn st).1.
Proof.
  intros (Hfresh & Hlock & Hqueue).
  destruct (asyncAction fn) as [f|] eqn:Hf.
  - rewrite (runUserFn_async _ _ _ _ _ _ Hf). repeat split; try done.
    unfold freshIds in *. cbn. apply Forall_app. split.
    + eapply Forall_impl; [exact Hfresh |]. simpl. lia.
    + repeat constructor.
  - rewrite (runUserFn_spawn _ _ _ _ _ Hf).
    destruct (spawnSync _) as [[[code|] [buffer|]]|e];
      cbn [error stderr fst snd spawned]; rewrite ?logAll_app; done.
Qed.

Lemma logAll_ready calls st : ready st → ready (logAll calls st).
Proof. intros Hr. by rewrite logAll_app. Qed.

(** When the key is free, [acquire] runs the function at once and the key
    is free again when [acquire] returns: the function of the change
    listener never hands back a promise to wait for. *)
Lemma acquire_releases this job st :
  ready st →
  ready (acquire this job st) ∧
  ∃ after result,
    runUserFn this "Change" (j_options job) (j_fn job) st = (after, result) ∧
    acquire this job st =
    setLock None []
      match result with
      | Ok _ => after
      | Throw e => reject e after
      end.
Proof.
  intros Hr. pose proof (runUserFn_ready this "Change" (j_options job) (j_fn job) st Hr) as Hr'.
  destruct Hr as (Hfresh & Hlock & Hqueue).
  unfold acquire. rewrite Hlock. cbn [runQueue]. unfold changeJob.
  destruct (runUserFn this "Change" (j_options job) (j_fn job) st)
    as [after [[]|e]]; cbn [fst] in Hr'; destruct Hr' as (? & ? & ?).
  - split; [done | by exists after, (Ok ())].
  - split; [done | by exists after, (Throw e)].
Qed.

Lemma changeListener_ready this filePath stats st :
  ready st → ready (changeListener this filePath stats st).1.
Proof.
  intros Hr. unfold changeListener.
  destruct (match stats with Some s => Ok s | None => statSync filePath end);
    [|done].
  cbn [fst]. apply acquire_releases. by apply logAll_ready.
Qed.

Lemma settle_ready this p s st : ready st → ready (settle this p s st).
Proof.
  intros (Hfresh & Hlock & Hqueue). unfold settle.
  destruct (list_find _ (pending st)) as [[i pa]|]; [|done].
  assert (ready (settleAction pa s
            (setPending (filter (λ pa', p_id pa' ≠ p) (pending st))
                        (promises st) st))) as Hr.
  { assert (freshIds (setPending (filter (λ pa', p_id pa' ≠ p) (pending st))
                                 (promises st) st)) as Hf
      by (unfold freshIds in *; cbn; apply Forall_forall;
          intros x [_ Hx]%list_elem_of_filter;
          by eapply Forall_forall in Hfresh).
    destruct s; cbn [settleAction]; [by apply logAll_ready |].
    done. }
  destruct Hr as (? & Hl & ?). rewrite Hl.
  by rewrite bool_decide_eq_false_2.
Qed.

(** Every task leaves the lock free, with nothing queued. *)
Lemma ready_step this st task : ready st → ready (step this st task).1.
Proof.
  intros Hr. destruct task; cbn [step fst].
  - apply runUserFn_ready. by destruct Hr.
  - apply runUserFn_ready. by destruct Hr.
  - apply runUserFn_ready. by destruct Hr.
  - apply runUserFn_ready. by destruct Hr.
  - by apply logAll_ready.
  - by apply changeListener_ready.
  - by apply settle_ready.
Qed.

Lemma ready_runTasks this st tasks : ready st → ready (runTasks this st tasks).
Proof.
  revert st. induction tasks as [|task tasks IH]; intros st Hr; [done |].
  apply IH. by apply ready_step.
Qed.

(** Whatever the tasks, the lock is free between two of them. *)
Lemma lock_free_between_tasks this env0 include0 tasks :
  let st := runTasks this (initialState env0 include0) tasks in
  lockAwaits st = None ∧ lockQueue st = [].
Proof.
  destruct (ready_runTasks this _ tasks (ready_initial env0 include0))
    as (_ & ? & ?). done.
Qed.

(** A change call that is let through starts a new action body next to
    those in flight: the earlier promises stay pending. *)
Lemma change_starts_next_to_pending this filePath (stats : Stats) f st :
  ready st →
  action this "change" = Some f →
  isAsync f = true →
  let after := (changeListener this filePath (Some stats) st).1 in
  pending after =
    pending st ++
    [ {| p_id := promises st; p_eventName := "Change";
         p_relativePath := convertPath (root this) filePath |} ] ∧
  lockAwaits after = None.
Proof.
  intros Hr Ha Hf. cbv zeta. unfold changeListener. cbn [fst].
  rewrite Ha.
  match goal with
  | |- context [acquire this ?job ?s] =>
      destruct (acquire_releases this job s) as (_ & after & result & Hrun & ->)
  end; [by apply logAll_ready |].
  assert (asyncAction (Some f) = Some f) as Hasync
    by (unfold asyncAction; by rewrite Hf).
  cbn [j_fn j_options] in Hrun.
  rewrite (runUserFn_async _ _ _ _ _ _ Hasync) in Hrun.
  by injection Hrun as <- <-.
Qed.

End LockProperties.

(** C1 on the code. The configuration has an asynchronous action for
    "change". Two change calls are let through one after the other, the
    second while the promise of the first is still pending: both action
    bodies are in flight at once, and the lock is free. *)
Theorem change_bodies_overlap :
  let this := sampleEvents ["echo"; "hi"] [("change", Some "rebuild")] in
  let st := @runTasks sampleHost this sampleState
              [ Change "/repo/packages/core/a.ts" None;
                Change "/repo/apps/web/b.ts" None ] in
  p_id <$> changeBodiesInFlight st = [0; 1] ∧
  lockAwaits st = None ∧
  actionCalls (trace st)
  = [ @Called sampleHost "rebuild"
        (@mkActionOpts sampleHost "core" "/repo/packages/core/a.ts"
                       "/repo/packages/core" (Some 0)) 0;
      @Called sampleHost "rebuild"
        (@mkActionOpts sampleHost "web" "/repo/apps/web/b.ts"
                       "/repo/apps/web" (Some 0)) 1 ].
Proof. by vm_compute. Qed.

(** ** The runner on sample data *)


Lemma sampleHost_respectsStdio : @respectsStdio sampleHost.
Proof.
  intros req cp. cbn. destruct (command req) as [c|]; [|done].
  destruct (_ || _); [by intros [= <-] |].
  intros [= <-] Hfd. cbn.
  destruct (childStream (stdio req) 2) as [[]|]; done.
Qed.

(** C5 on the code. [runUserFn] tests [cp.stderr] after [cp.error], but it
    never asks for the child's standard error: file descriptor 2 is ignored
    or is the parent's [process.stderr], and [spawn.sync] fills [stderr] only
    for a pipe. On every host that behaves so, a command that was started
    makes [runUserFn] return and log the completion entry, whatever the
    command wrote to its standard error; only an error object makes it
    throw, before the entry. At the failing input, the command "noisy",
    which writes a warning to its standard error and fails, [runUserFn]
    returns normally and logs "Action Completed". *)
Theorem stderr_output_unnoticed :
  (∀ (H : Host), respectsStdio →
     ∀ (this : Events) (eventName : string) (options : ActionOpts)
       (fn : option Fn) (st : State) (cp : SpawnResult),
       asyncAction fn = None →
       spawnSync (spawnRequest this options
                    (<["FORCE_COLOR" := "true"]> (env st))) = Ok cp →
       childStream
         (stdio (spawnRequest this options
                   (<["FORCE_COLOR" := "true"]> (env st)))) 2 ≠ Some Pipe ∧
       stderr cp = None ∧
       match error cp with
       | Some code =>
           runUserFn this eventName options fn st
           = (spawned this options st, Throw (SystemError code)) ∧
           trace (spawned this options st)
           = trace st ++
             [ Spawned (spawnRequest this options
                          (<["FORCE_COLOR" := "true"]> (env st))) ]
       | None =>
           (runUserFn this eventName options fn st).2 = Ok () ∧
           trace (runUserFn this eventName options fn st).1
           = trace st ++
             [ Spawned (spawnRequest this options
                          (<["FORCE_COLOR" := "true"]> (env st)));
               Logged (Log (Plain (JsString.line "Action Completed")) "log");
               Logged (Custom
                         [ Raw (Structured {| message := eventName;
                                              clr := false;
                                              spaceContent := true |})
                               "success";
                           Lit " - ";
                           Raw (Plain (convertPath (root this)
                                         (o_filePath options))) "log";
                           Lit JsString.lf ]) ]
       end) ∧
  @respectsStdio sampleHost ∧
  (@runUserFn sampleHost (sampleEvents ["noisy"] []) "Change" sampleOpts None
              sampleState).2 = Ok () ∧
  trace (@runUserFn sampleHost (sampleEvents ["noisy"] []) "Change" sampleOpts
                    None sampleState).1
  = [ Spawned (@spawnRequest sampleHost (sampleEvents ["noisy"] []) sampleOpts
                 (<["FORCE_COLOR" := "true"]> ∅));
      Logged (Log (Plain (JsString.line "Action Completed")) "log");
      Logged (Custom [ Raw (Structured {| message := "Change"; clr := false;
                                          spaceContent := true |}) "success";
                       Lit " - ";
                       Raw (Plain "/repo/packages/core/a.ts") "log";
                       Lit JsString.lf ]) ] ∧
  (@runUserFn sampleHost (sampleEvents ["missing"] []) "Change" sampleOpts None
              sampleState).2 = Throw (SystemError "ENOENT").
Proof.
  split_and!; [| apply sampleHost_respectsStdio | done | done | done].
  intros H Hstdio this eventName options fn st cp Hf Hcp.
  pose proof (stdioFor_stderr this) as Hfd.
  pose proof (Hstdio _ _ Hcp Hfd) as Herr.
  split; [done |]. split; [done |].
  rewrite (runUserFn_spawn _ _ _ _ _ Hf), Hcp, Herr.
  destruct (error cp) as [code|]; cbn [fst snd]; [done |].
  split; [done |]. rewrite logAll_app. cbn [trace spawned].
  by rewrite <- app_assoc.
Qed.

(** The action "notify" rejects with an error: it is recorded as unhandled. *)
Lemma rejected_action_unhandled_witness :
  ready sampleState ∧
  unhandled
    (settle (sampleEvents ["echo"; "hi"] [("add", Some "notify")]) 0
       (Rejected (Error "boom"))
       (runUserFn (sampleEvents ["echo"; "hi"] [("add", Some "notify")]) "Add"
                  sampleOpts (Some "notify") sampleState).1)
  = [Error "boom"].
Proof.
  split; [apply ready_initial |].
  exact (proj1 (proj2 (rejected_action_unhandled
                         (sampleEvents ["echo"; "hi"] [("add", Some "notify")])
                         "Add" sampleOpts (Some "notify") "notify" sampleState
                         (Error "boom") (ready_initial _ _) eq_refl))).
Defined.

(** [runScripts = ["echo", "hi"]]: the executable is "echo", the argument
    "hi", the directory that of the package. *)
Lemma spawn_contract_witness :
  let req := spawnRequest (sampleEvents ["echo"; "hi"] []) sampleOpts
               (<["FORCE_COLOR" := "true"]> ∅) in
  command req = Some "echo" ∧ args req = ["hi"] ∧
  cwd req = "/repo/packages/core".
Proof.
  cbv zeta.
  pose proof (spawn_contract (sampleEvents ["echo"; "hi"] []) "Change"
                sampleOpts None sampleState eq_refl) as Hc.
  cbv zeta in Hc.
  destruct Hc as (_ & _ & _ & Hhead & Hcwd & _).
  destruct (Hhead "echo" ["hi"] eq_refl) as [Hexe Hargs].
  exact (conj Hexe (conj Hargs Hcwd)).
Defined.

(** C7 as the specification words it fails on stdout: without
    [noChildProcessLogs] the child's stdout is a pipe, not the parent's
    stdout. *)
Lemma stdout_piped_counterexample :
  let this := sampleEvents ["echo"; "hi"] [] in
  let req := spawnRequest this sampleOpts (<["FORCE_COLOR" := "true"]> ∅) in
  i_noChildProcessLogs (config this) = false ∧
  trace (runUserFn this "Change" sampleOpts None sampleState).1 !! 0
    = Some (Spawned req) ∧
  childStream (stdio req) 1 = Some Pipe ∧
  childStream (stdio req) 1 ≠ Some Inherit.
Proof. cbv zeta. split_and!; [done | done | done | discriminate]. Qed.

(** *** Scenarios *)

(** No action for "change" and [runScripts = ["echo", "hi"]]: a change
    under the package in /repo/packages/core runs [echo hi] in that
    directory, and the completion entry tagged "Change" ends the trace. *)
Example scenario_change_spawns_command :
  let this := sampleEvents ["echo"; "hi"] [] in
  let st := @runTasks sampleHost this sampleState
              [Change "/repo/packages/core/a.ts" None] in
  (λ req, (command req, args req, cwd req)) <$> spawnRequests (trace st)
    = [(Some "echo", ["hi"], "/repo/packages/core")] ∧
  drop 3 (trace st)
    = Logged <$> EndLogger "Change" "/repo/packages/core/a.ts" ∧
  unhandled st = [].
Proof. by vm_compute. Qed.

(** An asynchronous action for "add": adding a file under /repo/apps/web
    calls it with the context of that package, and the completion entry
    tagged "Add" follows when its promise fulfils. *)
Example scenario_add_calls_action :
  let this := sampleEvents ["echo"; "hi"] [("add", Some "notify")] in
  let st := @runTasks sampleHost this sampleState
              [Add "/repo/apps/web/n.ts" None; Settle 0 Fulfilled] in
  trace st
    = WatchAdd "/repo/apps/web/n.ts"
      :: @Called sampleHost "notify"
           (@mkActionOpts sampleHost "web" "/repo/apps/web/n.ts"
                          "/repo/apps/web" None) 0
      :: (Logged <$> EndLogger "Add" "/repo/apps/web/n.ts") ∧
  pending st = [].
Proof. by vm_compute. Qed.

(** The command cannot be started: the add listener throws the error
    object and nothing is logged; in the change listener the exception
    rejects the promise that [acquire] returned, which nothing handles. *)
Example scenario_spawn_error_raises :
  let this := sampleEvents ["missing"] [] in
  (@step sampleHost this sampleState (Add "/repo/apps/web/n.ts" None)).2
    = Throw (SystemError "ENOENT") ∧
  (@step sampleHost this sampleState (Change "/repo/apps/web/n.ts" None)).2
    = Ok () ∧
  unhandled (@step sampleHost this sampleState
               (Change "/repo/apps/web/n.ts" None)).1
    = [SystemError "ENOENT"] ∧
  length (trace (@step sampleHost this sampleState
                   (Change "/repo/apps/web/n.ts" None)).1) = 3.
Proof. by vm_compute. Qed.

(** ** The debouncer of the change listener *)

Section OnChange.

Import Debounce.
Local Open Scope Z_scope.

Context {A : Type}.
Variable clearsTimer : bool.

Local Abbreviation shouldInvoke := (@shouldInvoke A 2000 onChangeOptions).
Local Abbreviation timerExpired := (@timerExpired A 2000 onChangeOptions).
Local Abbreviation debounced := (@debounced A 2000 onChangeOptions clearsTimer).
Local Abbreviation elapse := (@elapse A 2000 onChangeOptions).
Local Abbreviation calls := (@calls A 2000 onChangeOptions clearsTimer).
Local Abbreviation burst := (@burst A 2000 onChangeOptions clearsTimer).
Local Abbreviation resume := (@resume A 2000 onChangeOptions clearsTimer).

Implicit Types (c : Closure A) (cs : list (Z * A)).

(** With the options of [onChange]: [shouldInvoke] holds on the first call,
    when the quiet window has passed since the last call, when the clock has
    gone back, and when the maximum wait has passed since the last
    invocation. *)
Lemma shouldInvoke_onChange time c :
  shouldInvoke time c = true ↔
  match lastCallTime c with
  | None => True
  | Some lc => 2000 ≤ time - lc ∨ time - lc < 0 ∨ 3000 ≤ time - lastInvokeTime c
  end.
Proof.
  unfold Debounce.shouldInvoke. destruct (lastCallTime c) as [lc|]; [|done].
  change (maxing onChangeOptions) with true.
  change (maxWait 2000 onChangeOptions) with 3000.
  rewrite !orb_true_iff, andb_true_l, !Z.leb_le, Z.ltb_lt. tauto.
Qed.

Lemma shouldInvoke_onChange_false time c lc :
  lastCallTime c = Some lc →
  0 ≤ time - lc < 2000 → time - lastInvokeTime c < 3000 →
  shouldInvoke time c = false.
Proof.
  intros Hlc H1 H2. apply not_true_is_false.
  rewrite shouldInvoke_onChange, Hlc. lia.
Qed.

(** The closure after the first call of a burst, made at [t1]: the function
    has been invoked and the timer of the trailing edge is set. *)
Lemma first_call t1 (p1 : A) fuel :
  calls fuel [(t1, p1)] (initial) =
  ({| lastArgs := None; timerId := Some (t1 + 2000);
      lastCallTime := Some t1; lastInvokeTime := t1;
      timers := [t1 + 2000] |},
   [ {| at_ := t1; with_ := Some p1 |} ]).
Proof. by destruct fuel. Qed.

Lemma calls_cons fuel t (a : A) cs c :
  calls fuel ((t, a) :: cs) c =
  let '(c1, f1) := elapse fuel (Some t) c in
  let '(c2, f2) := debounced t a c1 in
  let '(c3, f3) := calls fuel cs c2 in
  (c3, f1 ++ f2 ++ f3).
Proof. done. Qed.

Lemma elapse_one fuel horizon c t :
  earliest (timers c) = Some t →
  dueBy horizon t = true →
  elapse (S fuel) horizon c =
  let '(c1, f1) :=
    timerExpired t {| lastArgs := lastArgs c; timerId := timerId c;
                      lastCallTime := lastCallTime c;
                      lastInvokeTime := lastInvokeTime c;
                      timers := removeTimer t (timers c) |} in
  let '(c2, f2) := elapse fuel horizon c1 in
  (c2, f1 ++ f2).
Proof. intros He Hd. cbn [Debounce.elapse]. by rewrite He, Hd. Qed.

Lemma elapse_none fuel horizon c :
  quiet horizon c = true → elapse fuel horizon c = (c, []).
Proof.
  unfold quiet. destruct fuel; [done |]. cbn [Debounce.elapse].
  destruct (earliest (timers c)) as [t|]; [|done].
  by intros ->%negb_true_iff.
Qed.

(** Between two calls that keep arriving, a timer that is due restarts
    once and is then due after the next call. *)
Lemma elapse_sustained fuel t1 la due tprev t :
  (1 ≤ fuel)%nat →
  t1 ≤ tprev → tprev < due → due ≤ tprev + 2000 → due ≤ t1 + 3000 →
  tprev ≤ t → t < tprev + 2000 → t < t1 + 3000 →
  ∃ due',
    elapse fuel (Some t)
      {| lastArgs := la; timerId := Some due; lastCallTime := Some tprev;
         lastInvokeTime := t1; timers := [due] |}
    = ({| lastArgs := la; timerId := Some due'; lastCallTime := Some tprev;
          lastInvokeTime := t1; timers := [due'] |}, []) ∧
    t < due' ∧ due' ≤ tprev + 2000 ∧ due' ≤ t1 + 3000.
Proof.
  intros Hfuel H1 H2 H3 H4 H5 H6 H7.
  destruct (decide (due ≤ t)) as [Hdue|Hdue].
  - exists (Z.min (tprev + 2000) (t1 + 3000)).
    split; [|lia]. destruct fuel as [|fuel]; [lia |].
    rewrite (elapse_one _ _ _ due); [|done | by apply Z.leb_le].
    cbn [lastArgs timerId lastCallTime lastInvokeTime timers removeTimer].
    rewrite bool_decide_eq_true_2 by done.
    unfold Debounce.timerExpired.
    rewrite (shouldInvoke_onChange_false _ _ tprev) by (cbn; done || lia).
    unfold_debounce.
    replace (due + Z.max 1 (Z.min (2000 - (due - tprev)) (3000 - (due - t1))))
      with (Z.min (tprev + 2000) (t1 + 3000)) by lia.
    rewrite elapse_none; [done |].
    unfold quiet. cbn. apply negb_true_iff, Z.leb_gt. lia.
  - exists due. split; [|lia]. apply elapse_none.
    unfold quiet. cbn. apply negb_true_iff, Z.leb_gt. lia.
Qed.

(** A call that keeps arriving is recorded and invokes nothing. *)
Lemma debounced_sustained t1 la due tprev t (a : A) :
  t1 ≤ tprev → tprev ≤ t → t < tprev + 2000 → t < t1 + 3000 →
  debounced t a
    {| lastArgs := la; timerId := Some due; lastCallTime := Some tprev;
       lastInvokeTime := t1; timers := [due] |}
  = ({| lastArgs := Some a; timerId := Some due; lastCallTime := Some t;
        lastInvokeTime := t1; timers := [due] |}, []).
Proof.
  intros H1 H2 H3 H4. unfold Debounce.debounced.
  by rewrite (shouldInvoke_onChange_false _ _ tprev) by (cbn; done || lia).
Qed.

(** The calls of a sustained burst after its first one invoke nothing; the
    closure holds the arguments and the time of the last of them. *)
Lemma calls_sustained fuel t1 cs :
  (1 ≤ fuel)%nat →
  ∀ la due tprev,
    sustained t1 tprev cs →
    t1 ≤ tprev → tprev < due → due ≤ tprev + 2000 → due ≤ t1 + 3000 →
    ∃ due',
      calls fuel cs
        {| lastArgs := la; timerId := Some due; lastCallTime := Some tprev;
           lastInvokeTime := t1; timers := [due] |}
      = ({| lastArgs := from_option (λ call, Some call.2) la (last cs);
            timerId := Some due';
            lastCallTime := Some (from_option fst tprev (last cs));
            lastInvokeTime := t1; timers := [due'] |}, []) ∧
      from_option fst tprev (last cs) < due' ∧
      due' ≤ from_option fst tprev (last cs) + 2000 ∧
      due' ≤ t1 + 3000 ∧
      t1 ≤ from_option fst tprev (last cs).
Proof.
  intros Hfuel. induction cs as [|[t a] cs IH]; intros la due tprev Hs H1 H2 H3 H4.
  - exists due. by cbn.
  - destruct Hs as (H5 & H6 & H7 & Hs).
    destruct (elapse_sustained fuel t1 la due tprev t)
      as (d & He & Hd1 & Hd2 & Hd3); try done.
    rewrite calls_cons, He, (debounced_sustained t1 la d tprev t a) by done.
    destruct (IH (Some a) d t Hs) as (due' & Hc & Hr); try lia.
    exists due'. rewrite Hc. cbn [app].
    destruct cs as [|c' cs']; [done |].
    rewrite last_cons_cons.
    assert (is_Some (last (c' :: cs'))) as [q Hq] by by apply last_is_Some.
    by rewrite Hq in *.
Qed.

Lemma dueBy_earlier horizon d d' :
  d ≤ d' → dueBy horizon d' = true → dueBy horizon d = true.
Proof.
  destruct horizon as [h|]; [|done]. cbn. rewrite !Z.leb_le. lia.
Qed.

(** After the last call of a sustained burst, or before a call that comes
    after the ceiling, the pending timer invokes the function once, with the
    arguments of the last call made, when the quiet window after that call
    ends or the maximum wait after the first call is reached, whichever
    comes first; no timer is left. *)
Lemma settle_sustained fuel horizon t1 (a : A) due tN :
  (2 ≤ fuel)%nat →
  t1 ≤ tN → tN < due → due ≤ tN + 2000 → due ≤ t1 + 3000 →
  dueBy horizon (Z.min (tN + 2000) (t1 + 3000)) = true →
  elapse fuel horizon
    {| lastArgs := Some a; timerId := Some due; lastCallTime := Some tN;
       lastInvokeTime := t1; timers := [due] |}
  = ({| lastArgs := None; timerId := None; lastCallTime := Some tN;
        lastInvokeTime := Z.min (tN + 2000) (t1 + 3000); timers := [] |},
     [ {| at_ := Z.min (tN + 2000) (t1 + 3000); with_ := Some a |} ]).
Proof.
  intros Hfuel H1 H2 H3 H4 Hh.
  destruct fuel as [|[|fuel]]; [lia | lia |].
  assert (∀ k d,
            d = Z.min (tN + 2000) (t1 + 3000) →
            elapse (S k) horizon
              {| lastArgs := Some a; timerId := Some d; lastCallTime := Some tN;
                 lastInvokeTime := t1; timers := [d] |}
            = ({| lastArgs := None; timerId := None; lastCallTime := Some tN;
                  lastInvokeTime := d; timers := [] |},
               [ {| at_ := d; with_ := Some a |} ])) as Hfire.
  { intros k d Hd. rewrite (elapse_one _ _ _ d); [|done | by rewrite Hd].
    cbn [lastArgs timerId lastCallTime lastInvokeTime timers removeTimer].
    rewrite bool_decide_eq_true_2 by done.
    unfold Debounce.timerExpired.
    assert (shouldInvoke d
              {| lastArgs := Some a; timerId := Some d; lastCallTime := Some tN;
                 lastInvokeTime := t1; timers := [] |} = true) as ->
      by (apply shouldInvoke_onChange; cbn; lia).
    unfold_debounce. cbn [bool_decide decide_rel].
    rewrite bool_decide_eq_true_2 by by eexists.
    by rewrite elapse_none. }
  destruct (decide (due = Z.min (tN + 2000) (t1 + 3000))) as [Hdue|Hdue].
  - rewrite Hfire by done. by rewrite <- Hdue.
  - rewrite (elapse_one _ _ _ due);
      [|done | by apply (dueBy_earlier _ _ (Z.min (tN + 2000) (t1 + 3000)));
                  [lia |]].
    cbn [lastArgs timerId lastCallTime lastInvokeTime timers removeTimer].
    rewrite bool_decide_eq_true_2 by done.
    unfold Debounce.timerExpired.
    rewrite (shouldInvoke_onChange_false _ _ tN) by (cbn; done || lia).
    unfold_debounce.
    replace (due + Z.max 1 (Z.min (2000 - (due - tN)) (3000 - (due - t1))))
      with (Z.min (tN + 2000) (t1 + 3000)) by lia.
    by rewrite Hfire.
Qed.

Lemma calls_app fuel cs1 cs2 c :
  calls fuel (cs1 ++ cs2) c =
  let '(c1, f1) := calls fuel cs1 c in
  let '(c2, f2) := calls fuel cs2 c1 in (c2, f1 ++ f2).
Proof.
  revert c. induction cs1 as [|[t a] cs1 IH]; intros c.
  - cbn. by destruct (calls fuel cs2 c).
  - cbn [app]. rewrite !calls_cons.
    destruct (elapse fuel (Some t) c) as [c1 f1].
    destruct (debounced t a c1) as [c2 f2]. rewrite IH.
    destruct (calls fuel cs1 c2) as [c3 f3].
    destruct (calls fuel cs2 c3) as [c4 f4].
    by rewrite !app_assoc.
Qed.

(** One call: the function is invoked at once, with its arguments, and
    never again. *)
Lemma burst_single fuel t (p : A) :
  (1 ≤ fuel)%nat →
  burst fuel [(t, p)] =
  ({| lastArgs := None; timerId := None; lastCallTime := Some t;
      lastInvokeTime := t; timers := [] |},
   [ {| at_ := t; with_ := Some p |} ]).
Proof.
  intros Hfuel. unfold Debounce.burst. rewrite first_call.
  destruct fuel as [|fuel]; [lia |].
  rewrite (elapse_one _ _ _ (t + 2000)); [|done | done].
  cbn [lastArgs timerId lastCallTime lastInvokeTime timers removeTimer].
  rewrite bool_decide_eq_true_2 by done.
  unfold Debounce.timerExpired.
  assert (shouldInvoke (t + 2000)
            {| lastArgs := None; timerId := Some (t + 2000);
               lastCallTime := Some t; lastInvokeTime := t; timers := [] |}
          = true) as -> by (apply shouldInvoke_onChange; cbn; lia).
  unfold_debounce. rewrite bool_decide_eq_false_2 by by intros [? ?].
  by rewrite elapse_none.
Qed.

(** A sustained burst of two calls or more: the function is invoked twice,
    at once with the arguments of the first call, and with those of the last
    call when its quiet window ends or the maximum wait is reached. *)
Lemma burst_sustained fuel t1 (p1 : A) rest tN pN :
  (2 ≤ fuel)%nat →
  sustained t1 t1 rest →
  last rest = Some (tN, pN) →
  burst fuel ((t1, p1) :: rest) =
  ({| lastArgs := None; timerId := None; lastCallTime := Some tN;
      lastInvokeTime := Z.min (tN + 2000) (t1 + 3000); timers := [] |},
   [ {| at_ := t1; with_ := Some p1 |};
     {| at_ := Z.min (tN + 2000) (t1 + 3000); with_ := Some pN |} ]).
Proof.
  intros Hfuel Hs Hlast. unfold Debounce.burst.
  change ((t1, p1) :: rest) with ([(t1, p1)] ++ rest).
  rewrite calls_app, first_call.
  destruct (calls_sustained fuel t1 rest ltac:(lia) None (t1 + 2000) t1 Hs)
    as (due & -> & Hd1 & Hd2 & Hd3 & Hd4); try lia.
  rewrite Hlast in *. cbn [from_option fst snd] in *.
  by rewrite settle_sustained by (done || lia).
Qed.

(** When the calls keep arriving past the maximum wait, the function is
    invoked at the ceiling, 3000 after the first call, with the arguments of
    the last call made before it. *)
Lemma burst_reaches_ceiling fuel t1 (p1 : A) pre tp pp t (a : A) post :
  (2 ≤ fuel)%nat →
  sustained t1 t1 pre →
  last pre = Some (tp, pp) →
  t1 + 3000 ≤ t → t < tp + 2000 →
  ∃ later,
    (burst fuel ((t1, p1) :: pre ++ (t, a) :: post)).2
    = {| at_ := t1; with_ := Some p1 |}
      :: {| at_ := t1 + 3000; with_ := Some pp |} :: later.
Proof.
  intros Hfuel Hs Hlast Ht1 Ht2. unfold Debounce.burst.
  change ((t1, p1) :: pre ++ (t, a) :: post)
    with ([(t1, p1)] ++ pre ++ (t, a) :: post).
  rewrite calls_app, first_call, calls_app.
  destruct (calls_sustained fuel t1 pre ltac:(lia) None (t1 + 2000) t1 Hs)
    as (due & -> & Hd1 & Hd2 & Hd3 & Hd4); try lia.
  rewrite Hlast in *. cbn [from_option fst snd] in *.
  rewrite calls_cons.
  rewrite (settle_sustained fuel (Some t) t1 pp due tp)
    by (try done; try lia; cbn; apply Z.leb_le; lia).
  replace (Z.min (tp + 2000) (t1 + 3000)) with (t1 + 3000) by lia.
  destruct (debounced t a _) as [c2 f2].
  destruct (calls fuel post c2) as [c3 f3].
  destruct (elapse fuel None c3) as [c4 f4].
  cbn. by eexists.
Qed.

(** Calls that all fall within the quiet window of the first one keep
    arriving. *)
Lemma within_window_sustained t1 cs :
  ∀ prev, t1 ≤ prev →
    ordered prev cs → Forall (λ call, call.1 < t1 + 2000) cs →
    sustained t1 prev cs.
Proof.
  induction cs as [|[t a] cs IH]; intros prev Hp Ho Hw; [done |].
  destruct Ho as [Ho1 Ho2]. inversion Hw as [|? ? Hw1 Hw2]; subst.
  cbn in Hw1. cbn. split_and!; try lia. apply IH; [lia | done | done].
Qed.

(** *** Any two calls invoke the function twice *)

Lemma earliest_elem (ts : list Z) t : earliest ts = Some t → t ∈ ts.
Proof.
  destruct ts as [|t0 ts]; [done |]. cbn. intros [= <-].
  revert t0. induction ts as [|t1 ts IH]; intros t0; cbn;
    [apply list_elem_of_here |].
  specialize (IH (Z.min t0 t1)). apply elem_of_cons in IH as [Heq | IH].
  - rewrite Heq. destruct (Z.min_spec t0 t1) as [[_ Hm] | [_ Hm]]; rewrite Hm.
    + apply list_elem_of_here.
    + apply list_elem_of_further, list_elem_of_here.
  - by do 2 apply list_elem_of_further.
Qed.

Lemma removeTimer_length (ts : list Z) t :
  t ∈ ts → S (length (removeTimer t ts)) = length ts.
Proof.
  induction ts as [|t0 ts IH]; [by intros ?%elem_of_nil |].
  intros Ht. cbn. case_bool_decide; [done |].
  apply elem_of_cons in Ht as [->|Ht]; [done |].
  cbn. by rewrite IH.
Qed.

Lemma removeTimer_filter_length (P : Z → Prop) `{∀ x, Decision (P x)}
    (ts : list Z) t :
  t ∈ ts → P t →
  S (length (filter P (removeTimer t ts))) = length (filter P ts).
Proof.
  induction ts as [|t0 ts IH]; [by intros ?%elem_of_nil |].
  intros Ht HP. cbn [removeTimer]. case_bool_decide as Ht0.
  - subst. by rewrite filter_cons, decide_True.
  - apply elem_of_cons in Ht as [->|Ht]; [done |].
    rewrite !filter_cons. case_decide; cbn; by rewrite IH.
Qed.

(** [timerExpired] leaves the closure armed, whatever it was. *)
Lemma timerExpired_armed time c : armed (timerExpired time c).1.
Proof.
  unfold Debounce.timerExpired.
  destruct (shouldInvoke time c) eqn:Hs.
  - unfold Debounce.trailingEdge. change (trailing onChangeOptions) with true.
    cbn [lastArgs andb].
    case_bool_decide; cbn; (split_and!; [by intros [? ?].. | done]).
  - assert (is_Some (lastCallTime c)) as Hlc.
    { destruct (lastCallTime c) eqn:E; [done |].
      unfold Debounce.shouldInvoke in Hs. by rewrite E in Hs. }
    cbn. split_and!; [done | done |].
    intros due [= <-]. apply elem_of_app. right. apply list_elem_of_here.
Qed.

(** A call leaves an armed closure armed. *)
Lemma debounced_armed time (a : A) c :
  armed c → armed (debounced time a c).1.
Proof.
  intros (H1 & H2 & H3). unfold Debounce.debounced.
  cbn [lastArgs timerId lastCallTime lastInvokeTime timers].
  destruct (shouldInvoke time c); destruct (timerId c) as [due|] eqn:Ht.
  - change (maxing onChangeOptions) with true. cbn [fst].
    cbn. split_and!; [by intros [? ?].. |].
    intros d [= <-]. apply elem_of_app. right. apply list_elem_of_here.
  - unfold Debounce.leadingEdge. change (leading onChangeOptions) with true.
    cbn. split_and!; [by intros [? ?].. |].
    intros d [= <-]. apply elem_of_app. right. apply list_elem_of_here.
  - cbn. split_and!; [done | done |]. intros d [= <-]. by apply H3.
  - cbn. split_and!; [done | done |].
    intros d [= <-]. apply elem_of_app. right. apply list_elem_of_here.
Qed.

Lemma elapse_armed fuel horizon c :
  armed c → armed (elapse fuel horizon c).1.
Proof.
  revert c. induction fuel as [|fuel IH]; intros c Hc; [done |].
  cbn [Debounce.elapse]. destruct (earliest (timers c)) as [t|]; [|done].
  destruct (dueBy horizon t); [|done].
  match goal with
  | |- context [timerExpired t ?c0] =>
      pose proof (timerExpired_armed t c0) as Ha;
      destruct (timerExpired t c0) as [c1 f1]
  end.
  specialize (IH c1 Ha). by destruct (elapse fuel horizon c1).
Qed.

Lemma timerExpired_timers time c :
  (length (timers (timerExpired time c).1) ≤ S (length (timers c)))%nat.
Proof.
  unfold Debounce.timerExpired. destruct (shouldInvoke time c).
  - unfold Debounce.trailingEdge. change (trailing onChangeOptions) with true.
    cbn [lastArgs andb]. case_bool_decide; cbn; lia.
  - cbn. rewrite length_app. cbn. lia.
Qed.

Lemma elapse_timers fuel horizon c :
  (length (timers (elapse fuel horizon c).1) ≤ length (timers c))%nat.
Proof.
  revert c. induction fuel as [|fuel IH]; intros c; [done |].
  cbn [Debounce.elapse]. destruct (earliest (timers c)) as [t|] eqn:E; [|done].
  destruct (dueBy horizon t); [|done].
  apply earliest_elem, removeTimer_length in E.
  match goal with
  | |- context [timerExpired t ?c0] =>
      pose proof (timerExpired_timers t c0) as Hl;
      destruct (timerExpired t c0) as [c1 f1]
  end.
  specialize (IH c1). destruct (elapse fuel horizon c1).
  cbn [fst timers] in *. lia.
Qed.

Lemma removeTimer_shorter (ts : list Z) t :
  (length (removeTimer t ts) ≤ length ts)%nat.
Proof.
  induction ts as [|t0 ts IH]; [done |]. cbn.
  case_bool_decide; cbn; lia.
Qed.

Lemma debounced_timers time (a : A) c :
  (length (timers (debounced time a c).1) ≤ S (length (timers c)))%nat.
Proof.
  unfold Debounce.debounced.
  cbn [lastArgs timerId lastCallTime lastInvokeTime timers].
  destruct (shouldInvoke time c); destruct (timerId c) as [due|] eqn:Ht.
  - change (maxing onChangeOptions) with true.
    destruct clearsTimer; cbn; rewrite ?Ht; cbn; rewrite length_app; cbn;
      [pose proof (removeTimer_shorter (timers c) due) |]; lia.
  - unfold Debounce.leadingEdge. change (leading onChangeOptions) with true.
    cbn. rewrite length_app. cbn. lia.
  - cbn. lia.
  - cbn. rewrite length_app. cbn. lia.
Qed.

(** With arguments pending and no further call, the timers invoke the
    function: a timer that runs too early restarts for the time at which
    the quiet window or the maximum wait ends, and a timer that runs at that
    time or later invokes. *)
Lemma settle_fires fuel c (a : A) lc :
  lastArgs c = Some a →
  lastCallTime c = Some lc →
  timers c ≠ [] →
  (length (filter (λ d : Z, (d < Z.min (lc + 2000) (lastInvokeTime c + 3000))%Z)
                  (timers c)) < fuel)%nat →
  (elapse fuel None c).2 ≠ [].
Proof.
  revert c. induction fuel as [|fuel IH]; intros c Ha Hlc Hts Hm; [lia |].
  destruct (earliest (timers c)) as [t|] eqn:E;
    [|by destruct (timers c)].
  rewrite (elapse_one _ _ _ t) by done.
  pose proof (earliest_elem _ _ E) as Ht.
  unfold Debounce.timerExpired.
  match goal with |- context [shouldInvoke t ?c0] => set (c0' := c0) end.
  destruct (shouldInvoke t c0') eqn:Hs.
  - unfold Debounce.trailingEdge. change (trailing onChangeOptions) with true.
    subst c0'. cbn [lastArgs andb]. rewrite Ha.
    rewrite bool_decide_eq_true_2 by by eexists.
    unfold Debounce.invokeFunc.
    match goal with |- context [elapse fuel None ?c1] =>
      destruct (elapse fuel None c1) end.
    done.
  - assert (¬ (2000 ≤ t - lc ∨ t - lc < 0 ∨ 3000 ≤ t - lastInvokeTime c))
      as Hn.
    { intros Hc. apply not_true_iff_false in Hs. apply Hs.
      apply shouldInvoke_onChange. subst c0'. cbn. by rewrite Hlc. }
    subst c0'. unfold_debounce. rewrite Hlc. cbn [default from_option id].
    replace (t + Z.max 1 (Z.min (2000 - (t - lc))
                                  (3000 - (t - lastInvokeTime c))))
      with (Z.min (lc + 2000) (lastInvokeTime c + 3000)) by lia.
    match goal with |- context [elapse fuel None ?c1] =>
      pose proof (IH c1) as IH1; destruct (elapse fuel None c1) as [c2 f2] end.
    cbn [snd app] in *. apply IH1; cbn; try done.
    + by destruct (removeTimer t (timers c)).
    + rewrite filter_app, filter_cons, decide_False, filter_nil, app_nil_r
        by lia.
      assert (t < Z.min (lc + 2000) (lastInvokeTime c + 3000)) as Hlt by lia.
      pose proof (removeTimer_filter_length
                    (λ d : Z, d < Z.min (lc + 2000) (lastInvokeTime c + 3000))
                    (timers c) t Ht Hlt).
      lia.
Qed.

(** After any calls on an armed closure, the function is invoked at least
    once more, by one of the calls or by a timer. *)
Lemma calls_then_settle_fire fuel cs :
  cs ≠ [] →
  ∀ c, armed c →
    (length (timers c) + length cs < fuel)%nat →
    (calls fuel cs c).2 ≠ [] ∨
    (elapse fuel None (calls fuel cs c).1).2 ≠ [].
Proof.
  induction cs as [|[t a] cs IH]; [done |]. intros _ c Hc Hfuel.
  rewrite calls_cons.
  pose proof (elapse_armed fuel (Some t) c Hc) as Ha1.
  pose proof (elapse_timers fuel (Some t) c) as Hl1.
  destruct (elapse fuel (Some t) c) as [c1 f1]. cbn [fst] in *.
  pose proof (debounced_armed t a c1 Ha1) as Ha2.
  pose proof (debounced_timers t a c1) as Hl2.
  destruct (debounced t a c1) as [c2 f2] eqn:Hd. cbn [fst] in *.
  cbn [length] in Hfuel.
  destruct cs as [|call cs].
  - cbn [Debounce.calls fst snd].
    destruct f2 as [|fire f2]; [|left; by destruct f1].
    right.
    assert (lastArgs c2 = Some a ∧ lastCallTime c2 = Some t) as [Hla Hlc].
    { revert Hd. unfold Debounce.debounced.
      cbn [lastArgs timerId lastCallTime lastInvokeTime timers].
      unfold Debounce.leadingEdge, Debounce.invokeFunc.
      change (leading onChangeOptions) with true.
      change (maxing onChangeOptions) with true.
      destruct (shouldInvoke t c1); destruct (timerId c1);
        intros ?; by simplify_eq. }
    destruct Ha2 as (H1 & H2 & H3).
    destruct H1 as [due Hdue]; [by rewrite Hla |].
    apply H3 in Hdue.
    eapply (settle_fires fuel c2 a t); try done.
    + intros Hnil. rewrite Hnil in Hdue. by apply elem_of_nil in Hdue.
    + eapply Nat.le_lt_trans; [apply length_filter |]. lia.
  - destruct (IH ltac:(done) c2 Ha2) as [Hf | Hf]; [cbn [length] in *; lia | |].
    + left. destruct (calls fuel (call :: cs) c2) as [c3 f3]. cbn in *.
      destruct f1, f2, f3; done.
    + right. by destruct (calls fuel (call :: cs) c2) as [c3 f3].
Qed.

(** Two calls or more invoke the function at least twice, the first time at
    once with the arguments of the first call. *)
Lemma burst_two_or_more fuel t1 (p1 : A) rest :
  rest ≠ [] →
  (S (length rest) < fuel)%nat →
  ∃ later,
    (burst fuel ((t1, p1) :: rest)).2
      = {| at_ := t1; with_ := Some p1 |} :: later ∧ later ≠ [].
Proof.
  intros Hrest Hfuel. unfold Debounce.burst.
  rewrite calls_cons.
  assert (elapse fuel (Some t1) initial = (initial, [])) as ->
    by by destruct fuel.
  assert (debounced t1 p1 initial =
          ({| lastArgs := None; timerId := Some (t1 + 2000);
              lastCallTime := Some t1; lastInvokeTime := t1;
              timers := [t1 + 2000] |},
           [ {| at_ := t1; with_ := Some p1 |} ])) as -> by done.
  match goal with |- context [calls fuel rest ?c1] =>
    destruct (calls_then_settle_fire fuel rest Hrest c1) as [Hf | Hf];
    [ split_and!; [by intros [? ?] | by intros [? ?] |];
      intros due [= <-]; apply list_elem_of_here
    | cbn; lia | .. ];
    destruct (calls fuel rest c1) as [c2 f2]
  end.
  - cbn [fst snd] in *. destruct (elapse fuel None c2) as [c3 f3].
    cbn. eexists. split; [done |]. by destruct f2.
  - cbn [fst snd] in *. destruct (elapse fuel None c2) as [c3 f3].
    cbn in *. eexists. split; [done |]. by destruct f2, f3.
Qed.

(** *** Later bursts *)

(** The first call of a new burst on an idle closure does what the first
    call ever does: the function is invoked at once, and the closure is the
    same whatever the earlier bursts were. *)
Lemma first_call_idle t1 (p1 : A) fuel c :
  idle c → quietSince c t1 →
  calls fuel [(t1, p1)] c =
  ({| lastArgs := None; timerId := Some (t1 + 2000);
      lastCallTime := Some t1; lastInvokeTime := t1;
      timers := [t1 + 2000] |},
   [ {| at_ := t1; with_ := Some p1 |} ]).
Proof.
  destruct c as [la ti lc li ts]. intros (Hla & Hti & Hts) Hq.
  unfold quietSince in Hq. cbn in Hla, Hti, Hts, Hq. subst la ti ts.
  rewrite calls_cons, elapse_none by done.
  unfold Debounce.debounced.
  assert (shouldInvoke t1
            {| lastArgs := None; timerId := None; lastCallTime := lc;
               lastInvokeTime := li; timers := [] |} = true) as ->.
  { apply shouldInvoke_onChange. cbn. destruct lc as [lc|]; [lia | done]. }
  done.
Qed.

Lemma calls_idle fuel t1 (p1 : A) rest c :
  idle c → quietSince c t1 →
  calls fuel ((t1, p1) :: rest) c = calls fuel ((t1, p1) :: rest) initial.
Proof.
  intros Hi Hq. change ((t1, p1) :: rest) with ([(t1, p1)] ++ rest).
  by rewrite !calls_app, first_call_idle, first_call.
Qed.

Lemma resume_idle fuel t1 (p1 : A) rest c :
  idle c → quietSince c t1 →
  resume fuel ((t1, p1) :: rest) c = burst fuel ((t1, p1) :: rest).
Proof.
  intros Hi Hq. unfold Debounce.resume, Debounce.burst.
  by rewrite calls_idle.
Qed.

(** After a burst of one call the pending timer invokes nothing. *)
Lemma settle_single fuel horizon t :
  (1 ≤ fuel)%nat →
  dueBy horizon (t + 2000) = true →
  elapse fuel horizon
    {| lastArgs := @None A; timerId := Some (t + 2000);
       lastCallTime := Some t; lastInvokeTime := t; timers := [t + 2000] |}
  = ({| lastArgs := None; timerId := None; lastCallTime := Some t;
        lastInvokeTime := t; timers := [] |}, []).
Proof.
  intros Hfuel Hh. destruct fuel as [|fuel]; [lia |].
  rewrite (elapse_one _ _ _ (t + 2000)); [|done | done].
  cbn [lastArgs timerId lastCallTime lastInvokeTime timers removeTimer].
  rewrite bool_decide_eq_true_2 by done.
  unfold Debounce.timerExpired.
  assert (shouldInvoke (t + 2000)
            {| lastArgs := None; timerId := Some (t + 2000);
               lastCallTime := Some t; lastInvokeTime := t; timers := [] |}
          = true) as -> by (apply shouldInvoke_onChange; cbn; lia).
  unfold_debounce. rewrite bool_decide_eq_false_2 by by intros [? ?].
  by rewrite elapse_none.
Qed.

(** When the timers that run before a call leave the closure idle, the
    call starts a new burst: it and the calls after it do what they do on
    the closure that [debounce] returns. *)
Lemma calls_after_settle fuel c1 c' g u1 (q1 : A) rest2 :
  elapse fuel (Some u1) c1 = (c', g) →
  idle c' → quietSince c' u1 →
  calls fuel ((u1, q1) :: rest2) c1
  = ((calls fuel ((u1, q1) :: rest2) initial).1,
     g ++ (calls fuel ((u1, q1) :: rest2) initial).2).
Proof.
  intros He Hi Hq. rewrite <- (calls_idle fuel u1 q1 rest2 c' Hi Hq).
  rewrite !calls_cons, He.
  assert (elapse fuel (Some u1) c' = (c', [])) as ->.
  { apply elapse_none. unfold quiet. by rewrite (proj2 (proj2 Hi)). }
  destruct (debounced u1 q1 c') as [c2 f2].
  by destruct (calls fuel rest2 c2) as [c3 f3].
Qed.

(** Two bursts in a row. The first is a single call or a sustained burst
    whose last call comes at [tN]; the second starts when the quiet window
    after [tN] has passed. The timer of the first burst has then run, and
    the second burst does what it does as the first burst ever. *)
Lemma resume_two_bursts fuel c t1 (p1 : A) rest tN u1 (q1 : A) rest2 :
  (2 ≤ fuel)%nat →
  idle c → quietSince c t1 →
  (rest = [] ∧ tN = t1 ∨ sustained t1 t1 rest ∧ ∃ pN, last rest = Some (tN, pN)) →
  tN + 2000 ≤ u1 →
  resume fuel (((t1, p1) :: rest) ++ (u1, q1) :: rest2) c
  = ((burst fuel ((u1, q1) :: rest2)).1,
     (resume fuel ((t1, p1) :: rest) c).2
     ++ (burst fuel ((u1, q1) :: rest2)).2).
Proof.
  intros Hfuel Hi Hq Hrest Hgap.
  assert (∃ c1 c' g,
            calls fuel ((t1, p1) :: rest) c
            = (c1, [ {| at_ := t1; with_ := Some p1 |} ]) ∧
            elapse fuel (Some u1) c1 = (c', g) ∧
            elapse fuel None c1 = (c', g) ∧
            idle c' ∧ quietSince c' u1) as (c1 & c' & g & Hc1 & He1 & He2 & Hi' & Hq').
  { change ((t1, p1) :: rest) with ([(t1, p1)] ++ rest).
    rewrite calls_app, (first_call_idle _ _ _ _ Hi Hq).
    destruct Hrest as [[-> ->] | [Hs [pN Hlast]]].
    - eexists _, _, _. cbn [Debounce.calls].
      split; [reflexivity |].
      rewrite !settle_single by (try lia; try done; cbn; apply Z.leb_le; lia).
      split; [reflexivity |]. split; [reflexivity |].
      split; [done | unfold quietSince; cbn; lia].
    - destruct (calls_sustained fuel t1 rest ltac:(lia) None (t1 + 2000) t1 Hs)
        as (due & -> & Hd1 & Hd2 & Hd3 & Hd4); try lia.
      rewrite Hlast in *. cbn [from_option fst snd] in *.
      eexists _, _, _. split; [reflexivity |].
      rewrite !(settle_sustained fuel _ t1 pN due tN)
        by (try done; try lia; cbn; apply Z.leb_le; lia).
      split; [reflexivity |]. split; [reflexivity |].
      split; [done | unfold quietSince; cbn; lia]. }
  unfold Debounce.resume at 1. rewrite calls_app, Hc1.
  rewrite (calls_after_settle _ _ _ _ _ _ _ He1 Hi' Hq').
  unfold Debounce.resume, Debounce.burst. rewrite Hc1, He2.
  destruct (calls fuel ((u1, q1) :: rest2) initial) as [c3 F].
  cbn [fst snd]. destruct (elapse fuel None c3) as [c4 F'].
  cbn [fst snd]. by rewrite <- !app_assoc.
Qed.

End OnChange.

Section OnChangeBursts.

Import Debounce.
Local Open Scope Z_scope.

(** C2, as amended. With [debounce(listener, 2000, { maxWait: 3000,
    leading: true })] and enough fuel for the timers, on every burst of the
    debouncer's life: the closure [c] is the one that [debounce] returned,
    or any closure that earlier bursts have left idle, and the burst starts
    at [t1], when the quiet window since the last call has passed.
    - a single notification invokes the listener once, at once, with its
      path;
    - a burst of two or more notifications that all fall within the quiet
      window of the first invokes the listener exactly twice: at once with
      the path of the first notification, and with the path of the last one
      2000 after it, or 3000 after the first when that comes earlier;
    - the same holds of a burst whose notifications keep arriving, each
      less than 2000 after the one before and all less than 3000 after the
      first;
    - when the notifications keep arriving until 3000 after the first or
      later, the listener is invoked at the ceiling, 3000 after the first
      notification, with the path of the last notification before it;
    - any burst of two or more notifications invokes the listener at least
      twice, the first time at once with the first path; so does a burst that
      spans more than the maximum wait;
    - every such burst leaves the closure idle, with the time of its last
      call recorded; when a burst is followed by further calls after its
      quiet window, its timer has run before them and they are a new burst:
      the invocations are those of the first burst followed by those that
      the further calls make on a fresh debouncer.
    This holds for both published variants of the tight-loop branch. *)
Theorem onChange_debounce (clearsTimer : bool) (fuel : nat)
    (c : Closure string) :
  (2 ≤ fuel)%nat →
  idle c →
  (∀ t p,
     quietSince c t →
     onChangeFrom clearsTimer fuel c [(t, p)] =
     ({| lastArgs := None; timerId := None; lastCallTime := Some t;
         lastInvokeTime := t; timers := [] |},
      [ {| at_ := t; with_ := Some p |} ])) ∧
  (∀ t1 p1 rest tN pN,
     quietSince c t1 →
     ordered t1 rest →
     Forall (λ call, call.1 < t1 + 2000) rest →
     last rest = Some (tN, pN) →
     onChangeFrom clearsTimer fuel c ((t1, p1) :: rest) =
     ({| lastArgs := None; timerId := None; lastCallTime := Some tN;
         lastInvokeTime := Z.min (tN + 2000) (t1 + 3000); timers := [] |},
      [ {| at_ := t1; with_ := Some p1 |};
        {| at_ := Z.min (tN + 2000) (t1 + 3000); with_ := Some pN |} ])) ∧
  (∀ t1 p1 rest tN pN,
     quietSince c t1 →
     sustained t1 t1 rest →
     last rest = Some (tN, pN) →
     onChangeFrom clearsTimer fuel c ((t1, p1) :: rest) =
     ({| lastArgs := None; timerId := None; lastCallTime := Some tN;
         lastInvokeTime := Z.min (tN + 2000) (t1 + 3000); timers := [] |},
      [ {| at_ := t1; with_ := Some p1 |};
        {| at_ := Z.min (tN + 2000) (t1 + 3000); with_ := Some pN |} ])) ∧
  (∀ t1 p1 pre tp pp t a post,
     quietSince c t1 →
     sustained t1 t1 pre →
     last pre = Some (tp, pp) →
     t1 + 3000 ≤ t → t < tp + 2000 →
     ∃ later,
       (onChangeFrom clearsTimer fuel c
          ((t1, p1) :: pre ++ (t, a) :: post)).2
         = {| at_ := t1; with_ := Some p1 |}
           :: {| at_ := t1 + 3000; with_ := Some pp |} :: later) ∧
  (∀ t1 p1 rest,
     quietSince c t1 →
     rest ≠ [] →
     (S (length rest) < fuel)%nat →
     ∃ later,
       (onChangeFrom clearsTimer fuel c ((t1, p1) :: rest)).2
         = {| at_ := t1; with_ := Some p1 |} :: later ∧ later ≠ []) ∧
  (∀ t1 p1 rest tN pN,
     quietSince c t1 →
     last rest = Some (tN, pN) →
     t1 + 3000 < tN →
     (S (length rest) < fuel)%nat →
     (2 ≤ length (onChangeFrom clearsTimer fuel c ((t1, p1) :: rest)).2)%nat) ∧
  (∀ t1 p1 rest tN u1 q1 rest2,
     quietSince c t1 →
     (rest = [] ∧ tN = t1 ∨
      sustained t1 t1 rest ∧ ∃ pN, last rest = Some (tN, pN)) →
     tN + 2000 ≤ u1 →
     onChangeFrom clearsTimer fuel c (((t1, p1) :: rest) ++ (u1, q1) :: rest2)
     = ((onChange clearsTimer fuel ((u1, q1) :: rest2)).1,
        (onChangeFrom clearsTimer fuel c ((t1, p1) :: rest)).2
        ++ (onChange clearsTimer fuel ((u1, q1) :: rest2)).2)) ∧
  (idle (@initial string) ∧
   ∀ cs, onChangeFrom clearsTimer fuel initial cs = onChange clearsTimer fuel cs).
Proof.
  intros Hfuel Hi. unfold onChangeFrom, onChange. split_and!.
  - intros t p Hq. rewrite resume_idle by done. apply burst_single. lia.
  - intros t1 p1 rest tN pN Hq Ho Hw Hlast. rewrite resume_idle by done.
    apply burst_sustained; [done | | done].
    by apply within_window_sustained.
  - intros t1 p1 rest tN pN Hq Hs Hlast. rewrite resume_idle by done.
    by apply burst_sustained.
  - intros t1 p1 pre tp pp t a post Hq Hs Hlast Ht1 Ht2.
    rewrite resume_idle by done.
    by apply (burst_reaches_ceiling _ _ _ _ _ tp).
  - intros t1 p1 rest Hq Hrest Hlen. rewrite resume_idle by done.
    by apply burst_two_or_more.
  - intros t1 p1 rest tN pN Hq Hlast Hspan Hlen. rewrite resume_idle by done.
    destruct (burst_two_or_more clearsTimer fuel t1 p1 rest)
      as (later & -> & Hlater); [by destruct rest | done |].
    destruct later; [done | cbn; lia].
  - intros t1 p1 rest tN u1 q1 rest2 Hq Hrest Hgap.
    by apply (resume_two_bursts _ _ _ _ _ _ tN).
  - done.
  - done.
Qed.

(** Two bursts of two notifications, eight seconds apart: the listener runs
    at 0 and 2100 for the first and at 10000 and 12100 for the second, each
    burst starting with an invocation at once. *)
Lemma onChange_debounce_witness :
  (onChange false 5
     [(0, "a.ts"); (100, "b.ts"); (10000, "c.ts"); (10100, "d.ts")]).2
  = [ {| at_ := 0; with_ := Some "a.ts" |};
      {| at_ := 2100; with_ := Some "b.ts" |};
      {| at_ := 10000; with_ := Some "c.ts" |};
      {| at_ := 12100; with_ := Some "d.ts" |} ].
Proof.
  assert (idle (@initial string)) as Hi by done.
  destruct (onChange_debounce false 5 initial ltac:(lia) Hi)
    as (_ & _ & Hsus & _ & _ & _ & Htwo & _).
  change (onChange false 5
            [(0, "a.ts"); (100, "b.ts"); (10000, "c.ts"); (10100, "d.ts")])
    with (onChangeFrom false 5 initial
            (((0, "a.ts") :: [(100, "b.ts")])
             ++ (10000, "c.ts") :: [(10100, "d.ts")])).
  rewrite (Htwo 0 "a.ts" [(100, "b.ts")] 100 10000 "c.ts" [(10100, "d.ts")]);
    [| done | right; split; [cbn; lia | by eexists] | lia].
  cbn [snd].
  rewrite (Hsus 0 "a.ts" [(100, "b.ts")] 100 "b.ts");
    [| done | cbn; lia | done].
  change (onChange false 5 [(10000, "c.ts"); (10100, "d.ts")])
    with (onChangeFrom false 5 initial ((10000, "c.ts") :: [(10100, "d.ts")])).
  rewrite (Hsus 10000 "c.ts" [(10100, "d.ts")] 10100 "d.ts");
    [| done | cbn; lia | done].
  reflexivity.
Defined.

(** C2 as the specification words it fails on a burst of two notifications
    within the quiet window: the listener is invoked twice, not once, and
    the first invocation carries the first notification's path. No timer is
    left pending. *)
Lemma burst_fires_twice_counterexample :
  (onChange false 5 [(0, "a.ts"); (100, "b.ts")]).2
    = [ {| at_ := 0; with_ := Some "a.ts" |};
        {| at_ := 2100; with_ := Some "b.ts" |} ] ∧
  (onChange true 5 [(0, "a.ts"); (100, "b.ts")]).2
    = [ {| at_ := 0; with_ := Some "a.ts" |};
        {| at_ := 2100; with_ := Some "b.ts" |} ] ∧
  timers (onChange false 5 [(0, "a.ts"); (100, "b.ts")]).1 = [] ∧
  length (onChange false 5 [(0, "a.ts"); (100, "b.ts")]).2 ≠ 1%nat.
Proof. split_and!; [by vm_compute.. | by vm_compute]. Qed.

(** A burst that spans more than the maximum wait, on both variants. *)
Example burst_past_the_ceiling :
  (onChange false 9 [(0, "a"); (1500, "b"); (2900, "c"); (4500, "d"); (6100, "e")]).2
    = [ {| at_ := 0; with_ := Some "a" |};
        {| at_ := 3000; with_ := Some "c" |};
        {| at_ := 6100; with_ := Some "e" |} ] ∧
  (onChange true 9 [(0, "a"); (1500, "b"); (2900, "c"); (4500, "d"); (6100, "e")]).2
    = (onChange false 9 [(0, "a"); (1500, "b"); (2900, "c"); (4500, "d"); (6100, "e")]).2.
Proof. by vm_compute. Qed.

End OnChangeBursts.

(** The two invocations of one burst start two action bodies: the first is
    still pending when the second is let through. *)
Example burst_starts_two_bodies :
  let fires := (Debounce.onChange false 5
                  [ (0%Z, "/repo/packages/core/a.ts");
                    (100%Z, "/repo/packages/core/b.ts") ]).2 in
  let this := sampleEvents ["echo"; "hi"] [("change", Some "rebuild")] in
  let st := @runTasks sampleHost this sampleState (changeTasks fires) in
  Debounce.at_ <$> fires = [0%Z; 2100%Z] ∧
  p_id <$> changeBodiesInFlight st = [0; 1].
Proof. by vm_compute. Qed.

(** * Further properties of the code *)

(** ** Normalising a configuration *)

Section NormalizeProperties.

Context `{Host}.

(** Every action function before the first one that [isAsync] rejects is
    accepted; the error names the key of that first one. *)
Lemma checkActions_first_sync pre k f post :
  Forall (λ kv : string * option Fn, ∀ g, kv.2 = Some g → isAsync g = true) pre →
  isAsync f = false →
  checkActions (pre ++ (k, Some f) :: post)
  = Throw (Error ("Action " +:+ k +:+ " is not async")).
Proof.
  intros Hpre Hf. induction pre as [|[k' [g|]] pre IH]; cbn.
  - by rewrite Hf.
  - inversion Hpre as [|? ? Hg Hrest]; subst.
    rewrite (Hg g eq_refl). cbn. by apply IH.
  - inversion Hpre; subst. by apply IH.
Qed.

Lemma checkActions_ok entries :
  checkActions entries = Ok () ↔
  Forall (λ kv : string * option Fn, ∀ g, kv.2 = Some g → isAsync g = true)
         entries.
Proof.
  induction entries as [|[k [g|]] entries IH]; cbn.
  - split; [by constructor | done].
  - destruct (isAsync g) eqn:Hg; cbn.
    + rewrite IH. split.
      * intros Hf. constructor; [by intros ? [= <-] | done].
      * by inversion 1.
    + split; [done |]. inversion 1 as [|? ? Hk]; subst.
      specialize (Hk g eq_refl). congruence.
  - rewrite IH. split.
    + intros Hf. by constructor.
    + by inversion 1.
Qed.

(** X1. [normalizeConfig] refuses a configuration in which an action is a
    function that [isAsync] does not recognise: when a prefix can be
    obtained, it throws "Action <key> is not async" for the first such key in
    the order of the keys, whatever the command line and [runScripts] are.
    Conversely, when it returns, every action function is recognised as
    asynchronous. *)
Theorem normalizeConfig_rejects_sync_action (config : IConfig)
    (packages : list Package) (argv : ArgsOptions) :
  (∀ pre k f post,
     (falsyString (prefix config) = true → packages ≠ []) →
     actions config = Some (pre ++ (k, Some f) :: post) →
     Forall (λ kv : string * option Fn, ∀ g, kv.2 = Some g → isAsync g = true) pre →
     isAsync f = false →
     normalizeConfig config packages argv
     = Throw (Error ("Action " +:+ k +:+ " is not async"))) ∧
  (∀ normalized entries k f,
     normalizeConfig config packages argv = Ok normalized →
     actions config = Some entries →
     (k, Some f) ∈ entries →
     isAsync f = true).
Proof.
  split.
  - intros pre k f post Hp Ha Hpre Hf.
    unfold normalizeConfig, mbind, Result_bind.
    destruct (acquirePrefix_returns config packages Hp) as [c1 Hc1].
    rewrite Hc1. apply acquirePrefix_keeps in Hc1 as (-> & _ & _).
    rewrite Ha. cbn [from_option]. by rewrite checkActions_first_sync.
  - intros normalized entries k f Hn Ha Hin.
    unfold normalizeConfig, mbind, Result_bind in Hn.
    destruct (acquirePrefix config packages) as [c1|] eqn:Hc1; [|done].
    apply acquirePrefix_keeps in Hc1 as (Hc1 & _ & _).
    rewrite Hc1, Ha in Hn. cbn [from_option] in Hn.
    destruct (checkActions entries) as [[]|] eqn:Hc; [|done].
    apply checkActions_ok in Hc.
    eapply Forall_forall in Hc; [|exact Hin]. by apply Hc.
Qed.

End NormalizeProperties.

(** The action under "change" is the function "legacy": the configuration is
    refused, although the command line gives a command. *)
Lemma normalizeConfig_rejects_sync_action_witness :
  @normalizeConfig sampleHost
    (@mkIConfig sampleHost (Some "acme")
       (Some [("add", Some "notify"); ("change", Some "legacy")])
       None None None)
    [] (mkArgs ["make"])
  = Throw (Error "Action change is not async").
Proof.
  exact (proj1 (@normalizeConfig_rejects_sync_action sampleHost
                  (@mkIConfig sampleHost (Some "acme")
                     (Some [("add", Some "notify"); ("change", Some "legacy")])
                     None None None) [] (mkArgs ["make"]))
               [("add", Some "notify")] "change" "legacy" []
               ltac:(discriminate) eq_refl
               ltac:(repeat constructor; by intros ? [= <-]) eq_refl).
Defined.

Section NormalizeOutcome.

Context `{Host}.

(** What a returning [normalizeConfig] has gone through. *)
Lemma normalizeConfig_inv (config : IConfig) packages argv normalized :
  normalizeConfig config packages argv = Ok normalized →
  ∃ c1, acquirePrefix config packages = Ok c1 ∧
        from_option checkActions (Ok ()) (actions config) = Ok () ∧
        nothingToRun (defaultInclude c1) argv = false ∧
        normalized = mergeArgs (defaultInclude c1) argv.
Proof.
  unfold normalizeConfig, mbind, Result_bind.
  destruct (acquirePrefix config packages) as [c1|] eqn:Hc1; [|done].
  pose proof (acquirePrefix_keeps _ _ _ Hc1) as (Ha & _ & _). rewrite Ha.
  destruct (from_option checkActions (Ok ()) (actions config)) as [[]|];
    [|done].
  destruct (nothingToRun (defaultInclude c1) argv) eqn:Hn; [done |].
  intros [= <-]. by exists c1.
Qed.

(** X2. The check for something to run. When a prefix can be obtained and
    the actions pass, [normalizeConfig] throws "Please pass a command or a
    list of actions to the config file" exactly when the command line gives
    no command, [runScripts] is an empty list and there is no [actions]
    member. A configuration with no [runScripts] member at all passes the
    check: it is returned with [runScripts] still absent. *)
Theorem normalizeConfig_nothing_to_run (config : IConfig)
    (packages : list Package) (argv : ArgsOptions) :
  (falsyString (prefix config) = true → packages ≠ []) →
  from_option checkActions (Ok ()) (actions config) = Ok () →
  (normalizeConfig config packages argv
     = Throw (Error "Please pass a command or a list of actions to the config file")
   ↔ run argv = [] ∧ runScripts config = Some [] ∧ actions config = None) ∧
  (returned (normalizeConfig config packages argv) = false
   ↔ run argv = [] ∧ runScripts config = Some [] ∧ actions config = None) ∧
  (run argv = [] → runScripts config = None →
   ∃ normalized, normalizeConfig config packages argv = Ok normalized ∧
                 runScripts normalized = None).
Proof.
  intros Hp Ha. unfold normalizeConfig, mbind, Result_bind.
  destruct (acquirePrefix_returns config packages Hp) as [c1 Hc1].
  rewrite Hc1. apply acquirePrefix_keeps in Hc1 as (Hact & Hinc & Hrs).
  rewrite Hact, Ha.
  assert (nothingToRun (defaultInclude c1) argv = true ↔
          run argv = [] ∧ runScripts config = Some [] ∧ actions config = None)
    as Hn.
  { unfold nothingToRun, defaultInclude.
    assert (runScripts (match include c1 with
                        | Some _ => c1
                        | None => {| prefix := prefix c1; actions := actions c1;
                                     include := Some ["src"];
                                     runScripts := runScripts c1;
                                     noChildProcessLogs := noChildProcessLogs c1 |}
                        end) = runScripts config) as ->
      by by destruct (include c1).
    assert (actions (match include c1 with
                     | Some _ => c1
                     | None => {| prefix := prefix c1; actions := actions c1;
                                  include := Some ["src"];
                                  runScripts := runScripts c1;
                                  noChildProcessLogs := noChildProcessLogs c1 |}
                     end) = actions config) as ->
      by by destruct (include c1).
    rewrite !andb_true_iff, negb_true_iff, bool_decide_eq_true,
      bool_decide_eq_false.
    destruct (runScripts config) as [[|r rs]|], (actions config) as [a|];
      cbn; rewrite ?bool_decide_eq_true; split; try done;
      try (by intros [[? ?] ?]); try (by intros (? & ? & ?));
      try (intros [[? ?] Hs]; by destruct Hs);
      try (intros (-> & _ & _); split_and!; try done; by intros [? ?]). }
  split_and!.
  - destruct (nothingToRun (defaultInclude c1) argv); split; try done.
    + intros _. by apply Hn.
    + intros Hc. apply Hn in Hc. done.
  - destruct (nothingToRun (defaultInclude c1) argv); split; try done.
    + intros _. by apply Hn.
    + intros Hc. apply Hn in Hc. done.
  - intros Hr Hnone.
    destruct (nothingToRun (defaultInclude c1) argv) eqn:E.
    + destruct (proj1 Hn eq_refl) as (_ & E' & _). congruence.
    + eexists. split; [done |]. unfold mergeArgs.
      rewrite bool_decide_eq_false_2 by (intros Hc; by apply Hc).
      unfold defaultInclude. destruct (include c1); cbn; congruence.
Qed.

End NormalizeOutcome.

(** An empty [runScripts] with nothing else is refused; leaving the member
    out is not. *)
Lemma normalizeConfig_nothing_to_run_witness :
  @normalizeConfig sampleHost
    (@mkIConfig sampleHost (Some "acme") None None (Some []) None) []
    (mkArgs [])
  = Throw (Error "Please pass a command or a list of actions to the config file") ∧
  returned (@normalizeConfig sampleHost
              (@mkIConfig sampleHost (Some "acme") None None None None) []
              (mkArgs [])) = true.
Proof.
  split.
  - apply (proj1 (@normalizeConfig_nothing_to_run sampleHost
                    (@mkIConfig sampleHost (Some "acme") None None (Some []) None)
                    [] (mkArgs []) ltac:(discriminate) eq_refl)).
    by split_and!.
  - destruct (proj2 (proj2 (@normalizeConfig_nothing_to_run sampleHost
                    (@mkIConfig sampleHost (Some "acme") None None None None)
                    [] (mkArgs []) ltac:(discriminate) eq_refl))
                eq_refl eq_refl) as (normalized & Hn & _).
    by rewrite Hn.
Defined.

Section NormalizeFields.

Context `{Host}.

Lemma append_nil_r (s : string) : s +:+ "" = s.
Proof. induction s as [|a s IH]; [done |]. by rewrite append_cons, IH. Qed.

(** The first segment of a split is a prefix of the string and holds no
    separator. *)
Lemma split_head sep s :
  ∃ h t, JsString.split sep s = h :: t ∧
         JsString.lacks sep h = true ∧ JsString.startsWith s h = true.
Proof.
  pose proof (split_nonempty sep s) as Hn.
  pose proof (split_lacks sep s) as Hl.
  pose proof (join_split sep s) as Hj.
  destruct (JsString.split sep s) as [|h t]; [done |].
  exists h, t. split; [done |]. split; [by inversion Hl |].
  apply startsWith_spec. destruct t as [|h' t].
  - exists "". cbn in Hj. by rewrite append_nil_r.
  - eexists. symmetry. exact Hj.
Qed.

(** A string without the separator is its own single segment. *)
Lemma split_lacks_id sep s :
  JsString.lacks sep s = true → JsString.split sep s = [s].
Proof.
  induction s as [|a s IH]; [done |]. cbn.
  intros [Ha Hs]%andb_true_iff. apply negb_true_iff in Ha. rewrite Ha.
  by rewrite IH.
Qed.

Lemma acquirePrefix_flag config packages c1 :
  acquirePrefix config packages = Ok c1 →
  noChildProcessLogs c1 = noChildProcessLogs config.
Proof.
  unfold acquirePrefix. destruct (falsyString (prefix config)).
  - destruct packages as [|pkg0 ?]; [done |].
    destruct (JsString.split "/" (name pkg0)); [done |]. by intros [= <-].
  - by intros [= <-].
Qed.

Lemma defaultInclude_fields (c : IConfig) :
  prefix (defaultInclude c) = prefix c ∧
  actions (defaultInclude c) = actions c ∧
  runScripts (defaultInclude c) = runScripts c ∧
  noChildProcessLogs (defaultInclude c) = noChildProcessLogs c ∧
  include (defaultInclude c) = Some (default ["src"] (include c)).
Proof.
  unfold defaultInclude. destruct (include c) eqn:E; cbn; by rewrite ?E.
Qed.

Lemma mergeArgs_fields (c : IConfig) argv :
  prefix (mergeArgs c argv) = prefix c ∧
  actions (mergeArgs c argv) = actions c ∧
  include (mergeArgs c argv) = include c ∧
  noChildProcessLogs (mergeArgs c argv) = noChildProcessLogs c ∧
  runScripts (mergeArgs c argv)
    = if decide (run argv = []) then runScripts c else Some (run argv).
Proof.
  unfold mergeArgs. case_bool_decide as Hr.
  - by rewrite decide_False.
  - rewrite decide_True; [done |]. by destruct (run argv).
Qed.

Lemma normalizeConfig_prefix_cases (config : IConfig)
    (packages : list Package) (argv : ArgsOptions) (normalized : IConfig) :
  normalizeConfig config packages argv = Ok normalized →
  if falsyString (prefix config)
  then ∃ pkg0 rest p,
         packages = pkg0 :: rest ∧
         prefix normalized = Some p ∧
         head (JsString.split "/" (name pkg0)) = Some p ∧
         JsString.lacks "/" p = true ∧
         JsString.startsWith (name pkg0) p = true ∧
         (JsString.lacks "/" (name pkg0) = true → p = name pkg0)
  else prefix normalized = prefix config.
Proof.
  intros (c1 & Hc1 & _ & _ & ->)%normalizeConfig_inv.
  destruct (mergeArgs_fields (defaultInclude c1) argv) as (-> & _).
  destruct (defaultInclude_fields c1) as (-> & _).
  unfold acquirePrefix in Hc1.
  destruct (falsyString (prefix config)); [|by injection Hc1 as <-].
  destruct packages as [|pkg0 rest]; [done |].
  destruct (split_head "/" (name pkg0)) as (h & t & Hs & Hl & Hp).
  rewrite Hs in Hc1. injection Hc1 as <-.
  exists pkg0, rest, h. rewrite Hs. split_and!; try done.
  intros Hn. rewrite (split_lacks_id _ _ Hn) in Hs. by injection Hs.
Qed.

Lemma normalizeConfig_fields (config : IConfig) (packages : list Package)
    (argv : ArgsOptions) (normalized : IConfig) :
  normalizeConfig config packages argv = Ok normalized →
  actions normalized = actions config ∧
  noChildProcessLogs normalized = noChildProcessLogs config ∧
  include normalized = Some (default ["src"] (include config)) ∧
  runScripts normalized
    = (if decide (run argv = []) then runScripts config else Some (run argv)).
Proof.
  intros (c1 & Hc1 & _ & _ & ->)%normalizeConfig_inv.
  destruct (mergeArgs_fields (defaultInclude c1) argv) as (_ & -> & -> & -> & ->).
  destruct (defaultInclude_fields c1) as (_ & -> & -> & -> & ->).
  pose proof (acquirePrefix_flag _ _ _ Hc1) as ->.
  by apply acquirePrefix_keeps in Hc1 as (-> & -> & ->).
Qed.

Lemma checkActions_throws entries e :
  checkActions entries = Throw e →
  ∃ k, e = Error ("Action " +:+ k +:+ " is not async").
Proof.
  induction entries as [|[k [g|]] entries IH]; cbn; [done | | done].
  destruct (isAsync g); cbn; [done |]. intros [= <-]. by exists k.
Qed.

(** X3. The prefix. When the configuration gives no prefix, or an empty one,
    and there is no package, [normalizeConfig] throws a [TypeError], whatever
    else the configuration holds. When it returns, a given non-empty prefix
    is kept, and a missing one is the first "/"-separated segment of the first
    package's name: a prefix of that name without "/", the whole name when the
    name has no "/". The error for a package name without segments is never
    thrown: [split] returns at least one segment. *)
Theorem normalizeConfig_prefix (config : IConfig) (packages : list Package)
    (argv : ArgsOptions) :
  (falsyString (prefix config) = true → packages = [] →
   ∃ m, normalizeConfig config packages argv = Throw (TypeError m)) ∧
  (∀ normalized,
     normalizeConfig config packages argv = Ok normalized →
     if falsyString (prefix config)
     then ∃ pkg0 rest p,
            packages = pkg0 :: rest ∧
            prefix normalized = Some p ∧
            head (JsString.split "/" (name pkg0)) = Some p ∧
            JsString.lacks "/" p = true ∧
            JsString.startsWith (name pkg0) p = true ∧
            (JsString.lacks "/" (name pkg0) = true → p = name pkg0)
     else prefix normalized = prefix config) ∧
  normalizeConfig config packages argv
  ≠ Throw (Error "Couldn't get package name. Please specfiy one in the config file").
Proof.
  split_and!.
  - intros Hf ->. unfold normalizeConfig, mbind, Result_bind, acquirePrefix.
    rewrite Hf. by eexists.
  - apply normalizeConfig_prefix_cases.
  - unfold normalizeConfig, mbind, Result_bind.
    destruct (acquirePrefix config packages) as [c1|e] eqn:Hc1.
    + destruct (from_option checkActions (Ok ()) (actions c1))
        as [[]|e] eqn:Hchk.
      * by destruct (nothingToRun (defaultInclude c1) argv).
      * destruct (actions c1) as [entries|]; [|done]. cbn in Hchk.
        apply checkActions_throws in Hchk as [k ->].
        rewrite append_cons. discriminate.
    + unfold acquirePrefix in Hc1.
      destruct (falsyString (prefix config)); [|done].
      destruct packages as [|pkg0 rest]; [by injection Hc1 as <- |].
      pose proof (split_nonempty "/" (name pkg0)).
      by destruct (JsString.split "/" (name pkg0)).
Qed.

(** X4. [normalizeConfig] changes three members at most: it leaves [actions]
    and [noChildProcessLogs] as given, sets [include] to ["src"] only when it
    is absent (an empty list given is kept), and replaces [runScripts] only
    when the command line gives a command. *)
Theorem normalizeConfig_frame (config : IConfig) (packages : list Package)
    (argv : ArgsOptions) (normalized : IConfig) :
  normalizeConfig config packages argv = Ok normalized →
  actions normalized = actions config ∧
  noChildProcessLogs normalized = noChildProcessLogs config ∧
  include normalized = Some (default ["src"] (include config)) ∧
  runScripts normalized
    = (if decide (run argv = []) then runScripts config else Some (run argv)).
Proof. apply normalizeConfig_fields. Qed.

(** X5. Normalising twice is normalising once: a configuration that
    [normalizeConfig] has returned is returned unchanged when it is
    normalised again with the same packages and command line. *)
Theorem normalizeConfig_idempotent (config : IConfig) (packages : list Package)
    (argv : ArgsOptions) (normalized : IConfig) :
  normalizeConfig config packages argv = Ok normalized →
  normalizeConfig normalized packages argv = Ok normalized.
Proof.
  intros Hn.
  pose proof (normalizeConfig_fields _ _ _ _ Hn) as (Ha & Hf & Hi & Hr).
  pose proof (normalizeConfig_prefix_cases _ _ _ _ Hn) as Hp.
  apply normalizeConfig_inv in Hn as (c1 & Hc1 & Hchk & Hnr & Hnorm).
  assert (acquirePrefix normalized packages = Ok normalized) as Hacq.
  { unfold acquirePrefix.
    destruct (falsyString (prefix normalized)) eqn:Hfn; [|done].
    destruct (falsyString (prefix config)) eqn:Hfc.
    - destruct Hp as (pkg0 & rest & p & -> & Hpn & Hh & _).
      destruct (JsString.split "/" (name pkg0)) as [|h t]; [done |].
      injection Hh as ->. rewrite <- Hpn. by destruct normalized.
    - rewrite Hp in Hfn. congruence. }
  unfold normalizeConfig, mbind, Result_bind. rewrite Hacq, Ha, Hchk.
  assert (defaultInclude normalized = normalized) as ->
    by (unfold defaultInclude; by rewrite Hi).
  assert (nothingToRun normalized argv = false) as ->.
  { rewrite Hnorm. unfold mergeArgs. case_bool_decide as Hrun; [|done].
    unfold nothingToRun. by rewrite bool_decide_eq_false_2. }
  f_equal. unfold mergeArgs. case_bool_decide as Hrun; [|done].
  rewrite decide_False in Hr by done. rewrite <- Hr. by destruct normalized.
Qed.

End NormalizeFields.

(** The first package is named "@acme/core": the prefix is "@acme". *)
Lemma normalizeConfig_prefix_witness :
  ∃ normalized,
    @normalizeConfig sampleHost sampleIConfig [pkgCore; pkgWeb] (mkArgs [])
      = Ok normalized ∧
    prefix normalized = Some "@acme".
Proof.
  eexists. split; [reflexivity |].
  pose proof (proj1 (proj2 (@normalizeConfig_prefix sampleHost sampleIConfig
                              [pkgCore; pkgWeb] (mkArgs []))) _ eq_refl) as Hp.
  cbn [falsyString prefix sampleIConfig] in Hp.
  destruct Hp as (pkg0 & rest & p & [= <- <-] & -> & [= <-] & _).
  reflexivity.
Defined.

Lemma normalizeConfig_frame_witness :
  ∃ normalized,
    @normalizeConfig sampleHost sampleIConfig [pkgCore] (mkArgs [])
      = Ok normalized ∧
    include normalized = Some ["src"] ∧
    runScripts normalized = Some ["npm"; "run"; "build"].
Proof.
  eexists. split; [reflexivity |].
  destruct (@normalizeConfig_frame sampleHost sampleIConfig [pkgCore]
              (mkArgs []) _ eq_refl) as (_ & _ & Hi & Hr).
  exact (conj Hi Hr).
Defined.

Lemma normalizeConfig_idempotent_witness :
  ∃ normalized,
    @normalizeConfig sampleHost sampleIConfig [pkgCore] (mkArgs ["make"])
      = Ok normalized ∧
    @normalizeConfig sampleHost normalized [pkgCore] (mkArgs ["make"])
      = Ok normalized.
Proof.
  eexists. split; [reflexivity |].
  exact (@normalizeConfig_idempotent sampleHost sampleIConfig [pkgCore]
           (mkArgs ["make"]) _ eq_refl).
Defined.

Section MergeProperties.

Context `{Host}.
Variable defaultConfig : ArgsOptions → InternalConfig.

Local Abbreviation lookupAction acts key :=
  (action {| root := ""; config := {| i_prefix := ""; i_actions := acts;
                                      i_include := []; i_runScripts := [];
                                      i_noChildProcessLogs := false |};
             packages := [] |} key).

Local Abbreviation mergeEntry :=
  (λ (acc : list (string * option Fn)) '((k, v) : string * option Fn),
     match v with
     | Some f => assign k (Some f) acc
     | None => if bool_decide (k ∈ acc.*1) then acc else assign k None acc
     end).

Lemma mergeArray_length {A} (dst src : list A) :
  length (mergeArray dst (Some src)) = length src `max` length dst.
Proof. unfold mergeArray. rewrite length_app, length_drop. lia. Qed.

Lemma mergeArray_lookup {A} (dst src : list A) (i : nat) :
  mergeArray dst (Some src) !! i
  = if decide (i < length src) then src !! i else dst !! i.
Proof.
  unfold mergeArray. destruct (decide (i < length src)) as [Hi|Hi].
  - by rewrite lookup_app_l.
  - rewrite lookup_app_r, lookup_drop by lia. f_equal. lia.
Qed.

Lemma MergeNormalizeConfig_inv config packages argv final :
  MergeNormalizeConfig defaultConfig config packages argv = Ok final →
  ∃ normalized, normalizeConfig config packages argv = Ok normalized ∧
                final = mergeWith (defaultConfig argv) normalized.
Proof.
  unfold MergeNormalizeConfig, mbind, Result_bind.
  destruct (normalizeConfig config packages argv) as [normalized|e]; [|done].
  intros [= <-]. by exists normalized.
Qed.

Lemma lookup_absent (acts : list (string * option Fn)) key :
  key ∉ acts.*1 → lookupAction acts key = None.
Proof.
  unfold action. cbn. intros Hk.
  destruct (list_find _ acts) as [[i [k v]]|] eqn:E; [|done].
  apply list_find_Some in E as (Hi & Hkey & _). cbn in Hkey. subst k.
  exfalso. apply Hk. apply list_elem_of_fmap. exists (key, v). split; [done |].
  by eapply list_elem_of_lookup_2.
Qed.

Lemma lookup_assign_eq (acts : list (string * option Fn)) key v :
  lookupAction (assign key v acts) key = v.
Proof.
  unfold action. cbn. induction acts as [|[k w] rest IH]; cbn.
  - by rewrite decide_True.
  - case_bool_decide as Hk; cbn.
    + by rewrite decide_True.
    + rewrite decide_False by done.
      destruct (list_find _ (assign key v rest)) as [[i [k' v']]|]; cbn in *; done.
Qed.

Lemma lookup_assign_ne (acts : list (string * option Fn)) k key v :
  k ≠ key → lookupAction (assign k v acts) key = lookupAction acts key.
Proof.
  intros Hne. unfold action. cbn. induction acts as [|[k' w] rest IH]; cbn.
  - by rewrite decide_False.
  - case_bool_decide as Hk; cbn.
    + subst k'. by rewrite !decide_False.
    + destruct (decide (k' = key)); [done |].
      destruct (list_find _ (assign k v rest)) as [[i [k1 v1]]|],
               (list_find _ rest) as [[j [k2 v2]]|]; cbn in *; done.
Qed.

Lemma lookup_mergeEntry acc k v key :
  lookupAction (mergeEntry acc (k, v)) key
  = if decide (k = key)
    then match v with Some f => Some f | None => lookupAction acc key end
    else lookupAction acc key.
Proof.
  destruct (decide (k = key)) as [->|Hne].
  - destruct v as [f|]; [apply lookup_assign_eq |].
    case_bool_decide as Hk; [done |].
    by rewrite lookup_assign_eq, lookup_absent.
  - destruct v as [f|]; [by apply lookup_assign_ne |].
    case_bool_decide; [done |]. by apply lookup_assign_ne.
Qed.

Lemma lookup_merge_other (src dst : list (string * option Fn)) key :
  (∀ f, (key, Some f) ∉ src) →
  lookupAction (fold_left mergeEntry src dst) key = lookupAction dst key.
Proof.
  revert dst. induction src as [|[k v] rest IH]; intros dst Hk; [done |].
  cbn [fold_left]. rewrite IH.
  - rewrite (lookup_mergeEntry dst k v key).
    destruct (decide (k = key)) as [->|]; [|done].
    destruct v as [f|]; [|done]. exfalso. apply (Hk f), list_elem_of_here.
  - intros f Hf. apply (Hk f). by apply list_elem_of_further.
Qed.

Lemma lookup_merge_given (src dst : list (string * option Fn)) key f :
  NoDup src.*1 → (key, Some f) ∈ src →
  lookupAction (fold_left mergeEntry src dst) key = Some f.
Proof.
  revert dst. induction src as [|[k v] rest IH]; intros dst Hnd Hin.
  - by apply elem_of_nil in Hin.
  - cbn in Hnd. apply NoDup_cons in Hnd as [Hk Hnd].
    apply elem_of_cons in Hin as [[= <- <-]|Hin].
    + cbn [fold_left]. rewrite lookup_merge_other.
      * rewrite (lookup_mergeEntry dst key (Some f) key). by rewrite decide_True.
      * intros g Hg. apply Hk. apply list_elem_of_fmap. by exists (key, Some g).
    + cbn [fold_left]. by apply IH.
Qed.

(** X6. The merge does not replace the default [include] list, it writes
    over it index by index: the merged list has the user's entries (or
    ["src"] when the user gave none) at the front and, past their number,
    the entries of the default list at the same positions. Its length is
    the longer of the two. *)
Theorem MergeNormalizeConfig_include (config : IConfig)
    (packages : list Package) (argv : ArgsOptions) (final : InternalConfig) :
  MergeNormalizeConfig defaultConfig config packages argv = Ok final →
  length (i_include final)
    = length (default ["src"] (include config))
      `max` length (i_include (defaultConfig argv)) ∧
  ∀ i : nat,
    i_include final !! i
    = if decide (i < length (default ["src"] (include config)))
      then default ["src"] (include config) !! i
      else i_include (defaultConfig argv) !! i.
Proof.
  intros (normalized & Hn & ->)%MergeNormalizeConfig_inv.
  apply normalizeConfig_fields in Hn as (_ & _ & Hi & _).
  cbn [mergeWith i_include]. rewrite Hi. split.
  - apply mergeArray_length.
  - intros i. apply mergeArray_lookup.
Qed.

(** X7. The merged actions. An action function that the configuration file
    gives under a key is the one the watcher finds under that key,
    whatever the default configuration holds there; under every key for
    which the file gives no function (the key is absent, or its value is
    [undefined]) the watcher finds what the default configuration has. The
    keys of the file's [actions] object are distinct, as the keys of an
    object are. *)
Theorem MergeNormalizeConfig_actions (config : IConfig)
    (packages : list Package) (argv : ArgsOptions) (final : InternalConfig)
    (root : string) (packages' : list Package) (key : string) :
  MergeNormalizeConfig defaultConfig config packages argv = Ok final →
  NoDup (default [] (actions config)).*1 →
  (∀ f, (key, Some f) ∈ default [] (actions config) →
        action {| root := root; config := final; packages := packages' |} key
        = Some f ∧ isAsync f = true) ∧
  ((∀ f, (key, Some f) ∉ default [] (actions config)) →
   action {| root := root; config := final; packages := packages' |} key
   = action {| root := root; config := defaultConfig argv;
               packages := packages' |} key).
Proof.
  intros (normalized & Hn & ->)%MergeNormalizeConfig_inv Hnd.
  pose proof (normalizeConfig_fields _ _ _ _ Hn) as (Ha & _).
  apply normalizeConfig_inv in Hn as (c1 & _ & Hchk & _).
  unfold action, mergeWith. cbn. rewrite Ha.
  destruct (actions config) as [entries|]; cbn in *.
  - split.
    + intros f Hf. split.
      * by apply (lookup_merge_given entries).
      * apply checkActions_ok in Hchk.
        by apply (proj1 (Forall_forall _ _) Hchk (key, Some f)).
    + intros Hk. by apply (lookup_merge_other entries).
  - split; [intros f Hf; by apply elem_of_nil in Hf | done].
Qed.

(** X8. The merged prefix never comes from the default configuration: it is
    the non-empty prefix of the configuration file or, without one, the
    first "/"-separated segment of the first package's name. The merged
    [noChildProcessLogs] is the file's when the file gives one and the
    default's otherwise. *)
Theorem MergeNormalizeConfig_scalars (config : IConfig)
    (packages : list Package) (argv : ArgsOptions) (final : InternalConfig) :
  MergeNormalizeConfig defaultConfig config packages argv = Ok final →
  Some (i_prefix final)
    = (if falsyString (prefix config)
       then pkg0 ← head packages; head (JsString.split "/" (name pkg0))
       else prefix config) ∧
  i_noChildProcessLogs final
    = default (i_noChildProcessLogs (defaultConfig argv))
              (noChildProcessLogs config).
Proof.
  intros (normalized & Hn & ->)%MergeNormalizeConfig_inv.
  pose proof (normalizeConfig_fields _ _ _ _ Hn) as (_ & Hf & _).
  pose proof (normalizeConfig_prefix_cases _ _ _ _ Hn) as Hp.
  cbn [mergeWith i_prefix i_noChildProcessLogs]. rewrite Hf. split; [|done].
  destruct (falsyString (prefix config)) eqn:Hfalsy.
  - destruct Hp as (pkg0 & rest & p & -> & -> & Hh & _). cbn. by rewrite Hh.
  - rewrite Hp. unfold falsyString in Hfalsy.
    by destruct (prefix config).
Qed.

End MergeProperties.

(** The file includes "app", the default "src", "lib" and "test": the merged
    list is "app", "lib", "test". *)
Lemma MergeNormalizeConfig_include_witness :
  ∃ final,
    @MergeNormalizeConfig sampleHost sampleDefaultWide sampleUserConfig
                          [pkgCore] (mkArgs []) = Ok final ∧
    length (i_include final) = 3 ∧
    i_include final !! 0 = Some "app" ∧
    i_include final !! 2 = Some "test".
Proof.
  eexists. split; [reflexivity |].
  destruct (@MergeNormalizeConfig_include sampleHost sampleDefaultWide
              sampleUserConfig [pkgCore] (mkArgs []) _ eq_refl) as [Hl Hi].
  split; [exact Hl |]. split; [exact (Hi 0) | exact (Hi 2)].
Defined.

(** The file gives "notify" under "add" and nothing under "change", where
    the default has "rebuild". *)
Lemma MergeNormalizeConfig_actions_witness :
  ∃ final,
    @MergeNormalizeConfig sampleHost sampleDefaultWide sampleUserConfig
                          [pkgCore] (mkArgs []) = Ok final ∧
    @action sampleHost (@mkEvents sampleHost "/repo" final []) "add"
      = Some "notify" ∧
    @action sampleHost (@mkEvents sampleHost "/repo" final []) "change"
      = Some "rebuild".
Proof.
  eexists. split; [reflexivity |]. split.
  - refine (proj1 (proj1 (@MergeNormalizeConfig_actions sampleHost
              sampleDefaultWide sampleUserConfig [pkgCore] (mkArgs []) _
              "/repo" [] "add" eq_refl _) "notify" _)).
    + cbn. apply NoDup_singleton.
    + cbn. apply list_elem_of_here.
  - refine (proj2 (@MergeNormalizeConfig_actions sampleHost
              sampleDefaultWide sampleUserConfig [pkgCore] (mkArgs []) _
              "/repo" [] "change" eq_refl _) _).
    + cbn. apply NoDup_singleton.
    + cbn. intros f [[=]|Hf%elem_of_nil]%elem_of_cons. done.
Defined.

Lemma MergeNormalizeConfig_scalars_witness :
  ∃ final,
    @MergeNormalizeConfig sampleHost sampleDefaultWide sampleUserConfig
                          [pkgCore] (mkArgs []) = Ok final ∧
    Some (i_prefix final) = Some "@org" ∧ i_noChildProcessLogs final = false.
Proof.
  eexists. split; [reflexivity |].
  destruct (@MergeNormalizeConfig_scalars sampleHost sampleDefaultWide
              sampleUserConfig [pkgCore] (mkArgs []) _ eq_refl) as [Hp Hf].
  split; [exact Hp | exact Hf].
Defined.

(** ** Package resolution, further *)

Lemma includes_trans a b c :
  JsString.includes a b = true → JsString.includes b c = true →
  JsString.includes a c = true.
Proof.
  rewrite !includes_spec. intros (p1 & q1 & ->) (p2 & q2 & ->).
  exists (p1 +:+ p2), (q2 +:+ q1). by rewrite !append_assoc.
Qed.

Lemma includes_empty_hay needle :
  JsString.includes "" needle = true → needle = "".
Proof. by destruct needle. Qed.

Lemma matching_app l1 l2 path :
  matching (l1 ++ l2) path = matching l1 path ++ matching l2 path.
Proof. apply filter_app. Qed.

Lemma matching_hit pkg l path :
  JsString.includes path (dir pkg) = true →
  matching (pkg :: l) path = pkg :: matching l path.
Proof. intros Hm. unfold matching. by rewrite filter_cons, decide_True. Qed.

Lemma matching_elem pkg l path :
  pkg ∈ matching l path → pkg ∈ l ∧ JsString.includes path (dir pkg) = true.
Proof. unfold matching. rewrite list_elem_of_filter. tauto. Qed.

Lemma last_app_cons {A} (l1 l2 : list A) x :
  last (l1 ++ x :: l2) = last (x :: l2).
Proof.
  induction l1 as [|y l1 IH]; [done |].
  cbn [app]. destruct (l1 ++ x :: l2) eqn:E; [by destruct l1 | by rewrite <- IH].
Qed.

Lemma last_elem {A} (l : list A) x : last l = Some x → x ∈ l.
Proof.
  intros [l' ->]%last_Some. apply elem_of_app. right. apply list_elem_of_here.
Qed.

(** Splitting after a separator splits both parts. *)
Lemma split_app_sep sep pre seg :
  JsString.split sep (pre +:+ String sep seg)
  = JsString.split sep pre ++ JsString.split sep seg.
Proof.
  induction pre as [|c pre IH].
  - change ("" +:+ String sep seg) with (String sep seg).
    cbn. by rewrite Ascii.eqb_refl.
  - rewrite append_cons. cbn. rewrite IH.
    pose proof (split_nonempty sep pre) as Hn.
    destruct (Ascii.eqb c sep); [done |].
    by destruct (JsString.split sep pre).
Qed.

Lemma dirBasename_after_sep pre seg :
  JsString.lacks "/" seg = true →
  dirBasename (pre +:+ String "/" seg) = seg.
Proof.
  intros Hl. unfold dirBasename, JsString.pop.
  rewrite split_app_sep, (split_lacks_id _ _ Hl).
  by rewrite last_snoc.
Qed.

(** X9. Nested packages. The test is that the package's directory occurs in
    the path, so a path that matches a package matches every package whose
    directory occurs in that package's directory. When such an enclosing
    package stands later in the list than the nested one, the nested package
    is never the one resolved; a path in the nested package is attributed to
    the enclosing one, if nothing after it matches. *)
Theorem getPackage_nested_shadowed (l1 l2 l3 : list Package)
    (inner outer : Package) (path : string) :
  JsString.includes (dir inner) (dir outer) = true →
  dir inner ≠ dir outer →
  (Forall (λ pkg, dir pkg ≠ dir inner) l3 →
   packagePath (getPackage (l1 ++ inner :: l2 ++ outer :: l3) path)
   ≠ dir inner) ∧
  (JsString.includes path (dir inner) = true →
   matching l3 path = [] →
   getPackage (l1 ++ inner :: l2 ++ outer :: l3) path = resolvedOf outer).
Proof.
  intros Hnest Hne.
  assert (∀ l, JsString.includes path (dir inner) = true →
               last (matching (l1 ++ inner :: l2 ++ outer :: l) path)
               = last (outer :: matching l path)) as Hlast.
  { intros l Hin.
    pose proof (includes_trans _ _ _ Hin Hnest) as Hout.
    change (inner :: l2 ++ outer :: l) with ([inner] ++ l2 ++ outer :: l).
    rewrite !matching_app, (matching_hit outer l path Hout).
    by rewrite !app_assoc, last_app_cons. }
  split.
  - intros Hl3 Heq. rewrite getPackage_last_match in Heq.
    destruct (last _) as [pkg|] eqn:E; cbn in Heq.
    + pose proof (last_elem _ _ E) as [_ Hm]%matching_elem.
      rewrite Heq in Hm. rewrite (Hlast l3 Hm) in E.
      destruct (matching l3 path) as [|q qs] eqn:E3.
      * injection E as <-. done.
      * rewrite last_cons_cons in E.
        apply last_elem in E. rewrite <- E3 in E.
        apply matching_elem in E as [E _].
        by apply (proj1 (Forall_forall _ _) Hl3 pkg).
    + rewrite <- Heq in Hnest. apply includes_empty_hay in Hnest. congruence.
  - intros Hin Hl3. rewrite getPackage_last_match, (Hlast l3 Hin), Hl3. done.
Qed.

(** X10. The name reported for a matching package is what follows the last
    "/" of its directory: if the directory is [pre/seg] and [seg] has no
    "/", the name is [seg]. A directory written with a trailing "/" so
    gives the empty name, as if no package had matched. *)
Theorem getPackage_basename (packages : list Package) (path : string)
    (pkg : Package) (pre seg : string) :
  last (matching packages path) = Some pkg →
  dir pkg = pre +:+ String "/" seg →
  JsString.lacks "/" seg = true →
  currentPkg (getPackage packages path) = seg ∧
  packagePath (getPackage packages path) = dir pkg.
Proof.
  intros Hm Hd Hl. rewrite getPackage_last_match, Hm. cbn.
  by rewrite Hd, dirBasename_after_sep.
Qed.

(** "/repo/packages/core/utils" lies in "/repo/packages/core": listed before
    it, the nested package loses its files to the enclosing one. *)
Lemma getPackage_nested_shadowed_witness :
  getPackage [pkgCoreUtils; pkgCore; pkgWeb] "/repo/packages/core/utils/a.ts"
  = resolvedOf pkgCore.
Proof.
  refine (proj2 (getPackage_nested_shadowed [] [] [pkgWeb] pkgCoreUtils pkgCore
                   "/repo/packages/core/utils/a.ts" _ _) _ _).
  - reflexivity.
  - discriminate.
  - reflexivity.
  - reflexivity.
Defined.

(** The directory "/repo/docs/" gives the name "". *)
Lemma getPackage_basename_witness :
  currentPkg (getPackage [pkgCore; pkgDocs] "/repo/docs/intro.md") = "" ∧
  packagePath (getPackage [pkgCore; pkgDocs] "/repo/docs/intro.md")
  = "/repo/docs/".
Proof.
  refine (getPackage_basename [pkgCore; pkgDocs] "/repo/docs/intro.md" pkgDocs
            "/repo/docs" "" _ _ _); reflexivity.
Defined.

(** ** Whole runs of the watcher *)

Section RunProperties.

Context `{Host}.
Implicit Types (this : Events) (st : State) (options : ActionOpts).

(** *** The watch set *)

Lemma runQueue_watched this queue st :
  watched (runQueue this queue st) = watched st.
Proof.
  revert st. induction queue as [|job rest IH]; intros st; [done |].
  cbn [runQueue]. unfold changeJob.
  pose proof (runUserFn_frame this "Change" (j_options job) (j_fn job) st)
    as (Hw & _).
  destruct (runUserFn this "Change" (j_options job) (j_fn job) st)
    as [after [[]|e]]; cbn [fst] in Hw; rewrite IH; done.
Qed.

Lemma logAll_watched calls st : watched (logAll calls st) = watched st.
Proof. by rewrite logAll_app. Qed.

Lemma step_watched this st task :
  watched (step this st task).1
  = match task with
    | Add filePath _ | AddDir filePath _ => {[filePath]} ∪ watched st
    | Unlink filePath | UnlinkDir filePath => watched st ∖ {[filePath]}
    | _ => watched st
    end.
Proof.
  destruct task; cbn [step fst].
  1-4: unfold onAdd, onAddDir, onUnlink, onUnlinkDir;
       by rewrite (proj1 (runUserFn_frame _ _ _ _ _)).
  - apply logAll_watched.
  - unfold changeListener.
    destruct (match stats with Some s => Ok s | None => statSync filePath end);
      [|done].
    cbn [fst]. unfold acquire. destruct (lockAwaits _); [by rewrite logAll_app |].
    by rewrite runQueue_watched, logAll_watched.
  - unfold settle. destruct (list_find _ _) as [[i pa]|]; [|done].
    assert (∀ st', watched (settleAction pa s st') = watched st') as Hs
      by (intros st'; destruct s; [apply logAll_watched | done]).
    case_bool_decide; [rewrite runQueue_watched |]; by rewrite Hs.
Qed.

Lemma step_watched_elem this st task p :
  p ∈ watched (step this st task).1 ↔
  adds p task = true ∨ (removes p task = false ∧ p ∈ watched st).
Proof.
  rewrite step_watched.
  destruct task; cbn [adds removes];
    rewrite ?elem_of_union, ?elem_of_difference, ?elem_of_singleton,
      ?bool_decide_eq_true, ?bool_decide_eq_false; intuition congruence.
Qed.

Lemma runTasks_cons this st task tasks :
  runTasks this st (task :: tasks) = runTasks this (step this st task).1 tasks.
Proof. done. Qed.

Lemma runTasks_app this st tasks1 tasks2 :
  runTasks this st (tasks1 ++ tasks2)
  = runTasks this (runTasks this st tasks1) tasks2.
Proof. apply fold_left_app. Qed.

Lemma watched_kept this st tasks p :
  Forall (λ task, removes p task = false) tasks →
  p ∈ watched st → p ∈ watched (runTasks this st tasks).
Proof.
  revert st. induction tasks as [|task tasks IH]; intros st Hf Hp; [done |].
  inversion Hf; subst. rewrite runTasks_cons. apply IH; [done |].
  apply step_watched_elem. by right.
Qed.

Lemma watched_away this st tasks p :
  Forall (λ task, adds p task = false) tasks →
  p ∉ watched st → p ∉ watched (runTasks this st tasks).
Proof.
  revert st. induction tasks as [|task tasks IH]; intros st Hf Hp; [done |].
  inversion Hf as [|? ? Ha Hf']; subst. rewrite runTasks_cons.
  apply IH; [done |]. rewrite step_watched_elem, Ha. intuition congruence.
Qed.

(** X11. The watch set after any run of tasks. A path is watched if the
    last notification that names it is "add" or "addDir", and not watched
    if it is "unlink" or "unlinkDir", whatever came before and whatever
    other tasks (changes, watcher errors, settlements of actions, failing
    commands) ran in between; a path that no such notification names is
    watched exactly if it was at the start. *)
Theorem watched_after_run this st (tasks : list Task) (path : string) :
  (∀ pre task post,
     tasks = pre ++ task :: post → adds path task = true →
     Forall (λ t, removes path t = false) post →
     path ∈ watched (runTasks this st tasks)) ∧
  (∀ pre task post,
     tasks = pre ++ task :: post → removes path task = true →
     Forall (λ t, adds path t = false) post →
     path ∉ watched (runTasks this st tasks)) ∧
  (Forall (λ t, adds path t = false ∧ removes path t = false) tasks →
   (path ∈ watched (runTasks this st tasks) ↔ path ∈ watched st)).
Proof.
  split_and!.
  - intros pre task post -> Ha Hpost.
    rewrite runTasks_app, runTasks_cons. apply watched_kept; [done |].
    apply step_watched_elem. by left.
  - intros pre task post -> Hr Hpost.
    rewrite runTasks_app, runTasks_cons. apply watched_away; [done |].
    rewrite step_watched_elem, Hr.
    destruct task; cbn in Hr |- *; intuition congruence.
  - intros Hf. split.
    + intros Hp. destruct (decide (path ∈ watched st)) as [|Hn]; [done |].
      exfalso. revert Hp. apply watched_away; [|done].
      eapply Forall_impl; [exact Hf |]. by intros t [? ?].
    + apply watched_kept. eapply Forall_impl; [exact Hf |]. by intros t [? ?].
Qed.

End RunProperties.

Section RunInvariant.

Context `{Host}.
Implicit Types (this : Events) (st : State) (options : ActionOpts).

Local Ltac solve_key :=
  unfold eventKeys; rewrite !elem_of_cons; intuition.

Local Abbreviation colored env0 := (<["FORCE_COLOR" := "true"]> env0).

(** What holds between two tasks of a run that started in [env0]. *)
Local Abbreviation accounted this env0 st :=
  (ready st ∧
   env st = (if bool_decide (spawnRequests (trace st) = [])
             then env0 else colored env0) ∧
   Forall (configured this env0) (trace st)).

Lemma spawnRequests_app (tr1 tr2 : list Effect) :
  spawnRequests (tr1 ++ tr2) = spawnRequests tr1 ++ spawnRequests tr2.
Proof. apply omap_app. Qed.

Lemma spawnRequests_logged (calls : list LogCall) :
  spawnRequests (Logged <$> calls) = [].
Proof. by induction calls. Qed.

Lemma configured_logged this env0 (calls : list LogCall) :
  Forall (configured this env0) (Logged <$> calls).
Proof. induction calls; by constructor. Qed.

Lemma accounted_extend this env0 st st' extra :
  ready st' →
  trace st' = trace st ++ extra →
  Forall (configured this env0) extra →
  (spawnRequests extra = [] ∧ env st' = env st) ∨
  (spawnRequests extra ≠ [] ∧ env st' = colored (env st)) →
  accounted this env0 st → accounted this env0 st'.
Proof.
  intros Hr Ht Hextra Henv (_ & He & Hc). split; [done |].
  rewrite Ht, spawnRequests_app. split; [|by apply Forall_app].
  destruct Henv as [[-> ->]|[Hs ->]].
  - by rewrite app_nil_r.
  - rewrite (bool_decide_eq_false_2 (_ ++ _ = []))
      by (intros [_ ?]%app_eq_nil; done).
    rewrite He. case_bool_decide; [done | apply insert_insert_eq].
Qed.

Lemma colored_env this env0 st :
  accounted this env0 st → colored (env st) = colored env0.
Proof.
  intros (_ & -> & _). case_bool_decide; [done | apply insert_insert_eq].
Qed.

Lemma spawnRequest_optsFor this filePath stats env1 :
  spawnRequest this (optsFor this filePath stats) env1
  = spawnRequest this (optsFor this filePath None) env1.
Proof. done. Qed.

Lemma asyncAction_Some fn f :
  asyncAction fn = Some f → fn = Some f ∧ isAsync f = true.
Proof.
  unfold asyncAction. destruct fn as [g|]; [|done].
  destruct (isAsync g) eqn:Eg; [|done]. by intros [= <-].
Qed.

Lemma runUserFn_accounted this env0 eventName key filePath stats st :
  key ∈ eventKeys →
  accounted this env0 st →
  accounted this env0
    (runUserFn this eventName (optsFor this filePath stats)
               (action this key) st).1.
Proof.
  intros Hkey Hst.
  pose proof (runUserFn_ready this eventName (optsFor this filePath stats)
                (action this key) st (proj1 Hst)) as Hr.
  pose proof (colored_env _ _ _ Hst) as Hcol.
  destruct (asyncAction (action this key)) as [f|] eqn:Hf.
  - rewrite (runUserFn_async _ _ _ _ _ _ Hf) in Hr |- *. cbn [fst] in Hr |- *.
    apply asyncAction_Some in Hf as [Hact Hasync].
    eapply accounted_extend; [exact Hr | done | | by left | done].
    repeat constructor; [done | by exists key].
  - rewrite (runUserFn_spawn _ _ _ _ _ Hf) in Hr |- *.
    assert (configured this env0
              (Spawned (spawnRequest this (optsFor this filePath stats)
                          (colored (env st))))) as Hreq
      by (exists filePath; by rewrite Hcol).
    destruct (spawnSync _) as [[[code|] [buffer|]]|e];
      cbn [error stderr fst snd] in Hr |- *.
    1-3, 5: eapply accounted_extend;
            [exact Hr | done | by repeat constructor | by right | done].
    eapply accounted_extend; [exact Hr | | | right | done].
    + rewrite logAll_app. cbn [trace spawned]. by rewrite <- app_assoc.
    + constructor; [done | apply configured_logged].
    + split; [done | by rewrite logAll_app].
Qed.

Lemma emit_accounted this env0 st e :
  configured this env0 e → spawnRequests [e] = [] →
  accounted this env0 st →
  ∀ w, accounted this env0 (emit e (setWatched w st)).
Proof.
  intros He Hs Hst w.
  eapply accounted_extend; [| done | by repeat constructor | by left | done].
  exact (proj1 Hst).
Qed.

Lemma logAll_accounted this env0 calls st :
  accounted this env0 st → accounted this env0 (logAll calls st).
Proof.
  intros Hst. eapply accounted_extend; [| | apply configured_logged | | done].
  - apply logAll_ready, Hst.
  - by rewrite logAll_app.
  - left. split; [apply spawnRequests_logged | by rewrite logAll_app].
Qed.

Lemma step_accounted this env0 st task :
  accounted this env0 st → accounted this env0 (step this st task).1.
Proof.
  intros Hst. destruct task; cbn [step fst].
  - apply (runUserFn_accounted _ _ _ "add"); [solve_key |].
    by apply emit_accounted.
  - apply (runUserFn_accounted _ _ _ "addDir"); [solve_key |].
    by apply emit_accounted.
  - apply (runUserFn_accounted _ _ _ "unlink"); [solve_key |].
    by apply emit_accounted.
  - apply (runUserFn_accounted _ _ _ "unlinkDir"); [solve_key |].
    by apply emit_accounted.
  - by apply logAll_accounted.
  - unfold changeListener.
    destruct (match stats with Some s => Ok s | None => statSync filePath end)
      as [s|e]; [|done].
    cbn [fst].
    match goal with
    | |- context [acquire this ?job ?s0] =>
        pose proof (logAll_accounted this env0 _ st Hst : accounted this env0 s0)
          as Hlog;
        destruct (acquire_releases this job s0 (proj1 Hlog))
          as (Hr & after & result & Hrun & Hacq)
    end.
    rewrite Hacq in Hr |- *. cbn [j_options j_fn] in Hrun.
    match type of Hrun with
    | runUserFn _ _ ?o _ ?s0 = _ =>
        pose proof (runUserFn_accounted this env0 "Change" "change" filePath
                      (Some s) s0 ltac:(solve_key) Hlog) as Hafter
    end.
    change (optsFor this filePath (Some s)) with
      {| o_currentPkg := currentPkg (getPackage (packages this) filePath);
         o_filePath := filePath;
         o_packagePath := packagePath (getPackage (packages this) filePath);
         o_stats := Some s |} in Hafter.
    rewrite Hrun in Hafter. cbn [fst] in Hafter.
    eapply (accounted_extend _ _ _ _ []);
      [exact Hr | | exact (List.Forall_nil _) | left | exact Hafter].
    + destruct result; cbn; by rewrite app_nil_r.
    + by destruct result.
  - pose proof (settle_ready this p s st (proj1 Hst)) as Hr.
    pose proof Hst as (Hready & _).
    unfold settle in Hr |- *.
    destruct (list_find _ (pending st)) as [[i pa]|]; [|done].
    assert (lockAwaits (settleAction pa s
              (setPending (filter (λ pa', p_id pa' ≠ p) (pending st))
                          (promises st) st)) = None) as Hl.
    { destruct Hready as (_ & Hl & _).
      destruct s; cbn [settleAction]; [by rewrite logAll_app | done]. }
    rewrite Hl, bool_decide_eq_false_2 in Hr |- * by done.
    destruct s as [|e]; cbn [settleAction] in Hr |- *.
    + eapply (accounted_extend _ _ st);
        [exact Hr | | apply configured_logged | | exact Hst].
      * by rewrite logAll_app.
      * left. split; [apply spawnRequests_logged | by rewrite logAll_app].
    + eapply (accounted_extend _ _ st _ []);
        [exact Hr | | exact (List.Forall_nil _) | by left | exact Hst].
      cbn. by rewrite app_nil_r.
Qed.

Lemma runTasks_accounted this env0 st tasks :
  accounted this env0 st → accounted this env0 (runTasks this st tasks).
Proof.
  revert st. induction tasks as [|task tasks IH]; intros st Hst; [done |].
  apply IH. by apply step_accounted.
Qed.

Lemma initial_accounted this env0 include0 :
  accounted this env0 (initialState env0 include0).
Proof. split; [apply ready_initial | by split]. Qed.

Lemma getPackage_path_cases (packages : list Package) (path : string) :
  packagePath (getPackage packages path) = "" ∨
  ∃ pkg, pkg ∈ packages ∧ packagePath (getPackage packages path) = dir pkg
         ∧ JsString.includes path (dir pkg) = true.
Proof.
  rewrite getPackage_last_match.
  destruct (last (matching packages path)) as [pkg|] eqn:E; [|by left].
  right. exists pkg. apply last_elem, matching_elem in E as [? ?]. done.
Qed.

(** X12. What a run of the watcher can do. Whatever the notifications and
    however the actions settle, every function the watcher calls is one
    that the configuration holds under one of the five event keys and that
    [isAsync] recognises, and it receives the context resolved from the
    notified path; every process it starts is the configured command with
    the configured arguments and stdio, its environment the starting one
    with [FORCE_COLOR] set, its working directory the directory of a
    package that contains the notified path, or the empty string when no
    package does. *)
Theorem run_effects_configured this (env0 : gmap string string)
    (include0 : list string) (tasks : list Task) :
  let final := runTasks this (initialState env0 include0) tasks in
  (∀ f opts p,
     Called f opts p ∈ trace final →
     isAsync f = true ∧
     (∃ key, key ∈ eventKeys ∧ action this key = Some f) ∧
     o_currentPkg opts
       = currentPkg (getPackage (packages this) (o_filePath opts)) ∧
     o_packagePath opts
       = packagePath (getPackage (packages this) (o_filePath opts))) ∧
  (∀ req,
     Spawned req ∈ trace final →
     command req = head (i_runScripts (config this)) ∧
     args req = drop 1 (i_runScripts (config this)) ∧
     stdio req = stdioFor this ∧
     spawnEnv req = <["FORCE_COLOR" := "true"]> env0 ∧
     (cwd req = "" ∨ ∃ pkg, pkg ∈ packages this ∧ cwd req = dir pkg)).
Proof.
  cbv zeta.
  destruct (runTasks_accounted this env0 _ tasks
              (initial_accounted this env0 include0)) as (_ & _ & Hc).
  split.
  - intros f opts p Hin.
    apply (proj1 (Forall_forall _ _) Hc) in Hin as (Ha & Hk & Ho).
    split; [done |]. split; [done |]. by rewrite Ho.
  - intros req Hin.
    apply (proj1 (Forall_forall _ _) Hc) in Hin as (filePath & ->).
    split_and!; try done. cbn [spawnRequest cwd optsFor o_packagePath].
    destruct (getPackage_path_cases (packages this) filePath)
      as [?|(pkg & ? & ? & _)]; [by left | right; by exists pkg].
Qed.

(** X13. The environment of the watcher's own process after any run: it is
    the starting environment as long as no process has been started, and
    the starting environment with [FORCE_COLOR] set to "true" from the first
    start on. No other variable is ever written. *)
Theorem env_after_run this (env0 : gmap string string)
    (include0 : list string) (tasks : list Task) :
  let final := runTasks this (initialState env0 include0) tasks in
  env final = (if bool_decide (spawnRequests (trace final) = [])
               then env0 else <["FORCE_COLOR" := "true"]> env0) ∧
  ∀ key, key ≠ "FORCE_COLOR" → env final !! key = env0 !! key.
Proof.
  cbv zeta.
  destruct (runTasks_accounted this env0 _ tasks
              (initial_accounted this env0 include0)) as (_ & He & _).
  split; [done |]. intros key Hk. rewrite He.
  case_bool_decide; [done |]. by rewrite lookup_insert_ne.
Qed.

End RunInvariant.

Section ChangeFailures.

Context `{Host}.
Implicit Types (this : Events) (st : State).

(** X14. How a failing command surfaces. When no action is configured and
    the command fails, the listener of "add" throws the failure to its
    caller. The listener of "change" does not: for the same failure it
    returns normally, having logged its two entries and run the command, and
    the failure is the rejection of the promise that [acquire] returned,
    which nothing handles. The change listener throws only when it has to
    read the file's stats itself and [statSync] fails, and then before any
    effect. *)
Theorem change_failure_unhandled this (filePath : string)
    (stats : option Stats) (s : Stats) st (e : Thrown) :
  ready st →
  asyncAction (action this "add") = None →
  asyncAction (action this "change") = None →
  (onAdd this filePath stats st).2 = Throw e →
  (changeListener this filePath (Some s) st).2 = Ok () ∧
  unhandled (changeListener this filePath (Some s) st).1
    = unhandled st ++ [e] ∧
  unhandled (onAdd this filePath stats st).1 = unhandled st ∧
  (∃ entry1 entry2,
     trace (changeListener this filePath (Some s) st).1
     = trace st ++
       [ Logged entry1; Logged entry2;
         Spawned (spawnRequest this (optsFor this filePath None)
                    (<["FORCE_COLOR" := "true"]> (env st))) ]) ∧
  (∀ e', statSync filePath = Throw e' →
         changeListener this filePath None st = (st, Throw e')).
Proof.
  intros Hr Hadd Hchange Hthrow.
  assert (∃ entry1 entry2,
            changeListener this filePath (Some s) st
            = (setLock None []
                 (reject e
                    (spawned this (optsFor this filePath (Some s))
                       (logAll [entry1; entry2] st))), Ok ())) as Hc.
  { unfold changeListener.
    match goal with
    | |- context [acquire this ?job ?s0] =>
        destruct (acquire_releases this job s0)
          as (_ & after & result & Hrun & ->); [by apply logAll_ready |]
    end.
    cbn [j_options j_fn] in Hrun.
    rewrite (runUserFn_spawn _ _ _ _ _ Hchange) in Hrun.
    unfold onAdd in Hthrow.
    rewrite (runUserFn_spawn _ _ _ _ _ Hadd) in Hthrow.
    rewrite (f_equal env (logAll_app _ st)) in Hrun.
    cbn [spawnRequest o_packagePath optsFor env watchAdd emit setWatched]
      in Hrun, Hthrow.
    destruct (spawnSync _) as [[[code|] [buffer|]]|e0];
      cbn [error stderr fst snd] in Hrun, Hthrow;
      try discriminate;
      injection Hthrow as <-; injection Hrun as <- <-;
      eexists _, _; reflexivity. }
  destruct Hc as (entry1 & entry2 & ->). cbn [fst snd]. split_and!.
  - done.
  - cbn [unhandled setLock reject spawned]. by rewrite logAll_app.
  - unfold onAdd. by rewrite (proj1 (proj2 (proj2 (proj2
      (runUserFn_frame _ _ _ _ _))))).
  - exists entry1, entry2. cbn [trace env setLock reject spawned].
    rewrite logAll_app. cbn [trace env]. by rewrite <- app_assoc.
  - intros e' He'. unfold changeListener. by rewrite He'.
Qed.

End ChangeFailures.

(** The command "missing" cannot be started: [spawn.sync] hands back the
    error object ENOENT. *)
Lemma change_failure_unhandled_witness :
  let this := sampleEvents ["missing"] [] in
  (@changeListener sampleHost this "/repo/apps/web/n.ts" (Some 0) sampleState).2
    = Ok () ∧
  unhandled (@changeListener sampleHost this "/repo/apps/web/n.ts" (Some 0)
               sampleState).1
    = [SystemError "ENOENT"].
Proof.
  cbv zeta.
  destruct (@change_failure_unhandled sampleHost (sampleEvents ["missing"] [])
              "/repo/apps/web/n.ts" None 0 sampleState
              (SystemError "ENOENT"))
    as (Hres & Hun & _).
  - apply ready_initial.
  - reflexivity.
  - reflexivity.
  - reflexivity.
  - exact (conj Hres Hun).
Defined.

(** ** The debouncer, on any sequence of calls *)

Section OnChangeAnyCalls.

Import Debounce.
Local Open Scope Z_scope.

Context {A : Type}.
Variable clearsTimer : bool.

Local Abbreviation timerExpired := (@timerExpired A 2000 onChangeOptions).
Local Abbreviation debounced := (@debounced A 2000 onChangeOptions clearsTimer).
Local Abbreviation elapse := (@elapse A 2000 onChangeOptions).
Local Abbreviation calls := (@calls A 2000 onChangeOptions clearsTimer).
Local Abbreviation burst := (@burst A 2000 onChangeOptions clearsTimer).

Implicit Types (c : Closure A) (cs : list (Z * A)).

(** One or no pending arguments. *)
Local Abbreviation pend c :=
  (match lastArgs c with Some _ => 1%nat | None => 0%nat end).

(** A timer either invokes nothing and leaves the pending arguments, or
    invokes the function once with them and leaves none. *)
Lemma timerExpired_cases time c :
  ((timerExpired time c).2 = [] ∧
   lastArgs (timerExpired time c).1 = lastArgs c ∧
   lastCallTime (timerExpired time c).1 = lastCallTime c) ∨
  (∃ a, lastArgs c = Some a ∧ lastArgs (timerExpired time c).1 = None ∧
        (timerExpired time c).2 = [ {| at_ := time; with_ := Some a |} ]).
Proof.
  unfold Debounce.timerExpired. destruct (Debounce.shouldInvoke _ _ _ _).
  - unfold Debounce.trailingEdge. change (trailing onChangeOptions) with true.
    cbn [lastArgs andb]. destruct (lastArgs c) as [a|] eqn:Ha.
    + right. exists a. by rewrite bool_decide_eq_true_2 by by eexists.
    + left. by rewrite bool_decide_eq_false_2 by by intros [? ?].
  - by left.
Qed.

Lemma elapse_cases fuel horizon c :
  ((elapse fuel horizon c).2 = [] ∧
   lastArgs (elapse fuel horizon c).1 = lastArgs c ∧
   lastCallTime (elapse fuel horizon c).1 = lastCallTime c) ∨
  (∃ a time, lastArgs c = Some a ∧ lastArgs (elapse fuel horizon c).1 = None ∧
             (elapse fuel horizon c).2 = [ {| at_ := time; with_ := Some a |} ]).
Proof.
  revert c. induction fuel as [|fuel IH]; intros c; [by left |].
  cbn [Debounce.elapse]. destruct (earliest (timers c)) as [t|]; [|by left].
  destruct (dueBy horizon t); [|by left].
  match goal with
  | |- context [timerExpired t ?c0] =>
      pose proof (timerExpired_cases t c0) as Ht;
      destruct (timerExpired t c0) as [c1 f1]
  end.
  specialize (IH c1). destruct (elapse fuel horizon c1) as [c2 f2].
  cbn [fst snd lastArgs lastCallTime] in *.
  destruct Ht as [(-> & Ha1 & Hc1) | (a & Ha & Ha1 & ->)].
  - rewrite Ha1, Hc1 in IH. exact IH.
  - right. exists a, t. rewrite Ha1 in IH.
    destruct IH as [(-> & -> & _) | (? & ? & ? & _)]; done.
Qed.

(** A call either invokes the function at once with its own arguments, or
    leaves them pending. *)
Lemma debounced_cases time (a : A) c :
  lastCallTime (debounced time a c).1 = Some time ∧
  (((debounced time a c).2 = [] ∧ lastArgs (debounced time a c).1 = Some a) ∨
   ((debounced time a c).2 = [ {| at_ := time; with_ := Some a |} ] ∧
    lastArgs (debounced time a c).1 = None)).
Proof.
  unfold Debounce.debounced, Debounce.leadingEdge.
  change (maxing onChangeOptions) with true.
  change (leading onChangeOptions) with true.
  cbn [lastArgs timerId lastCallTime lastInvokeTime timers].
  destruct (Debounce.shouldInvoke _ _ _ _), (timerId c) eqn:Ht, clearsTimer;
    unfold Debounce.clearTimer; cbn; rewrite ?Ht; cbn;
    (split; [done |]); first [by left | by right].
Qed.

(** The invocations made by a list of calls carry arguments that were
    pending or came with one of the calls, and each uses up one call. *)
Lemma calls_fires fuel cs c :
  Forall (λ fire, ∃ a, with_ fire = Some a ∧
                       (lastArgs c = Some a ∨ a ∈ cs.*2))
         (calls fuel cs c).2 ∧
  (∀ a, lastArgs (calls fuel cs c).1 = Some a →
        lastArgs c = Some a ∨ a ∈ cs.*2) ∧
  (length (calls fuel cs c).2 + pend (calls fuel cs c).1
   ≤ pend c + length cs)%nat.
Proof.
  revert c. induction cs as [|[t a] cs IH]; intros c.
  { cbn. split_and!; [done | by left | lia]. }
  rewrite calls_cons.
  pose proof (elapse_cases fuel (Some t) c) as He.
  destruct (elapse fuel (Some t) c) as [c1 f1].
  pose proof (debounced_cases t a c1) as [_ Hd].
  destruct (debounced t a c1) as [c2 f2].
  specialize (IH c2). destruct (calls fuel cs c2) as [c3 f3].
  cbn [fst snd] in *. destruct IH as (IH1 & IH2 & IH3).
  assert (∀ b, lastArgs c2 = Some b ∨ b ∈ cs.*2 →
               lastArgs c = Some b ∨ b ∈ ((t, a) :: cs).*2) as Hstep.
  { intros b [Hb|Hb]; right; cbn; [|by apply list_elem_of_further].
    destruct Hd as [[_ Hd]|[_ Hd]]; rewrite Hd in Hb; [|done].
    injection Hb as ->. apply list_elem_of_here. }
  split_and!.
  - apply Forall_app. split; [|apply Forall_app; split].
    + destruct He as [(-> & _) | (b & time & Hb & _ & ->)]; [done |].
      repeat constructor. exists b. by split; [|left].
    + destruct Hd as [[-> _]|[-> _]]; [done |].
      repeat constructor. exists a. split; [done |].
      right. apply list_elem_of_here.
    + eapply Forall_impl; [exact IH1 |]. cbn.
      intros fire (b & Hb & Hor). exists b. split; [done | by apply Hstep].
  - intros b Hb. by apply Hstep, IH2.
  - rewrite !length_app. cbn [length].
    assert (length f1 + pend c1 ≤ pend c)%nat.
    { destruct He as [(-> & -> & _) | (b & time & -> & -> & ->)]; cbn; lia. }
    assert (length f2 + pend c2 ≤ 1)%nat.
    { destruct Hd as [[-> ->]|[-> ->]]; cbn; lia. }
    destruct (lastArgs c1), (lastArgs c2), (lastArgs c3), (lastArgs c);
      cbn in *; lia.
Qed.

Lemma calls_armed fuel cs c : armed c → armed (calls fuel cs c).1.
Proof.
  revert c. induction cs as [|[t a] cs IH]; intros c Hc; [done |].
  rewrite calls_cons.
  pose proof (elapse_armed fuel (Some t) c Hc) as H1.
  destruct (elapse fuel (Some t) c) as [c1 f1].
  pose proof (debounced_armed clearsTimer t a c1 H1) as H2.
  destruct (debounced t a c1) as [c2 f2].
  specialize (IH c2 H2). by destruct (calls fuel cs c2).
Qed.

Lemma calls_timers fuel cs c :
  (length (timers (calls fuel cs c).1) ≤ length (timers c) + length cs)%nat.
Proof.
  revert c. induction cs as [|[t a] cs IH]; intros c; [cbn; lia |].
  rewrite calls_cons.
  pose proof (elapse_timers fuel (Some t) c) as H1.
  destruct (elapse fuel (Some t) c) as [c1 f1].
  pose proof (debounced_timers clearsTimer t a c1) as H2.
  destruct (debounced t a c1) as [c2 f2].
  specialize (IH c2). destruct (calls fuel cs c2).
  cbn [fst length] in *. lia.
Qed.

Lemma armed_initial : armed (@initial A).
Proof. split_and!; [by intros [? ?].. | done]. Qed.

(** Whatever the times of the calls, the function is invoked at most once
    per call, and each time with the arguments of one of the calls. *)
Lemma burst_fires fuel cs :
  (length (burst fuel cs).2 ≤ length cs)%nat ∧
  Forall (λ fire, ∃ t a, (t, a) ∈ cs ∧ with_ fire = Some a) (burst fuel cs).2.
Proof.
  unfold Debounce.burst.
  pose proof (calls_fires fuel cs initial) as (H1 & H2 & H3).
  destruct (calls fuel cs initial) as [c1 f1].
  pose proof (elapse_cases fuel None c1) as He.
  destruct (elapse fuel None c1) as [c2 f2]. cbn [fst snd] in *.
  assert (∀ a, a ∈ cs.*2 → ∃ t, (t, a) ∈ cs) as Hin.
  { intros a ([t a'] & -> & Hin)%list_elem_of_fmap. by exists t. }
  split.
  - rewrite length_app.
    destruct He as [(-> & _) | (b & time & Hb & _ & ->)]; cbn in *.
    + destruct (lastArgs c1); lia.
    + rewrite Hb in H3. lia.
  - apply Forall_app. split.
    + eapply Forall_impl; [exact H1 |]. cbn.
      intros fire (a & Ha & [?|Ha']); [done |].
      destruct (Hin a Ha') as [t Ht]. by exists t, a.
    + destruct He as [(-> & _) | (b & time & Hb & _ & ->)]; [done |].
      repeat constructor. destruct (H2 b Hb) as [?|Hb']; [done |].
      destruct (Hin b Hb') as [t Ht]. by exists t, b.
Qed.

(** The arguments of the last call are never lost: the last invocation of
    the function carries them, and nothing stays pending. *)
Lemma burst_last_call fuel pre tN (pN : A) :
  (length pre + 1 < fuel)%nat →
  ∃ earlier time,
    (burst fuel (pre ++ [(tN, pN)])).2
      = earlier ++ [ {| at_ := time; with_ := Some pN |} ] ∧
    lastArgs (burst fuel (pre ++ [(tN, pN)])).1 = None.
Proof.
  intros Hfuel. unfold Debounce.burst. rewrite calls_app.
  pose proof (calls_armed fuel pre initial armed_initial) as Ha1.
  pose proof (calls_timers fuel pre initial) as Ht1.
  destruct (calls fuel pre initial) as [c1 f1].
  rewrite calls_cons.
  pose proof (elapse_armed fuel (Some tN) c1 Ha1) as Ha2.
  pose proof (elapse_timers fuel (Some tN) c1) as Ht2.
  destruct (elapse fuel (Some tN) c1) as [c2 g1].
  pose proof (debounced_armed clearsTimer tN pN c2 Ha2) as Ha3.
  pose proof (debounced_timers clearsTimer tN pN c2) as Ht3.
  pose proof (debounced_cases tN pN c2) as [Hlc Hd].
  destruct (debounced tN pN c2) as [c3 g2].
  cbn [Debounce.calls fst snd length timers] in *.
  pose proof (elapse_cases fuel None c3) as He.
  pose proof (settle_fires fuel c3 pN tN) as Hs.
  destruct (elapse fuel None c3) as [c4 g3]. cbn [fst snd] in *.
  rewrite app_nil_r.
  destruct Hd as [[-> Hla]|[-> Hla]].
  - destruct He as [(-> & _) | (b & time & Hb & Hnone & ->)].
    + exfalso. apply Hs; try done.
      * destruct Ha3 as (H1 & _ & H3).
        destruct H1 as [due Hdue]; [by rewrite Hla |].
        apply H3 in Hdue. intros Hnil. rewrite Hnil in Hdue.
        by apply elem_of_nil in Hdue.
      * eapply Nat.le_lt_trans; [apply length_filter |]. cbn in Ht1. lia.
    + rewrite Hla in Hb. injection Hb as <-.
      exists (f1 ++ g1), time. by rewrite app_nil_r, <- app_assoc.
  - destruct He as [(-> & Hsame & _) | (b & time & Hb & _)].
    + exists (f1 ++ g1), tN. rewrite Hsame, app_nil_r.
      by rewrite <- app_assoc.
    + by rewrite Hla in Hb.
Qed.

End OnChangeAnyCalls.

(** X15. The debounced change listener is never invoked more often than
    there are notifications, and every invocation carries the path of one
    of the notifications, never an absent one; this holds for any times of
    the notifications and for both published variants of the tight-loop
    branch. *)
Theorem onChange_invocations_are_notifications (clearsTimer : bool)
    (fuel : nat) (cs : list (Z * string)) :
  length (Debounce.onChange clearsTimer fuel cs).2 ≤ length cs ∧
  ∀ fire, fire ∈ (Debounce.onChange clearsTimer fuel cs).2 →
          ∃ t p, (t, p) ∈ cs ∧ Debounce.with_ fire = Some p.
Proof.
  destruct (burst_fires clearsTimer fuel cs) as [Hl Hf]. split; [done |].
  intros fire Hin. by apply (proj1 (Forall_forall _ _) Hf).
Qed.

(** X16. The last notification of a burst is never dropped: whatever came
    before it, the last invocation of the change listener carries the path
    of the last notification, and no arguments stay pending once the
    timers have run. *)
Theorem onChange_last_notification_delivered (clearsTimer : bool)
    (fuel : nat) (pre : list (Z * string)) (tN : Z) (pN : string) :
  length pre + 1 < fuel →
  ∃ earlier time,
    (Debounce.onChange clearsTimer fuel (pre ++ [(tN, pN)])).2
      = earlier ++ [ {| Debounce.at_ := time; Debounce.with_ := Some pN |} ] ∧
    Debounce.lastArgs (Debounce.onChange clearsTimer fuel (pre ++ [(tN, pN)])).1
      = None.
Proof. apply burst_last_call. Qed.

(** Five notifications over six seconds: the last invocation carries "e". *)
Lemma onChange_last_notification_delivered_witness :
  ∃ earlier time,
    (Debounce.onChange false 9
       [(0, "a"); (1500, "b"); (2900, "c"); (4500, "d"); (6100, "e")]%Z).2
      = earlier ++ [ {| Debounce.at_ := time; Debounce.with_ := Some "e" |} ].
Proof.
  destruct (onChange_last_notification_delivered false 9
              [(0, "a"); (1500, "b"); (2900, "c"); (4500, "d")]%Z 6100%Z "e")
    as (earlier & time & Hf & _).
  - cbn. lia.
  - by exists earlier, time.
Defined.

(** ** The console logger *)

Section LoggerProperties.

Import LoggerBase.

Variable chalk : Chalk.

(** X17. The five methods of the logger, as decorated. Every call prints
    exactly one line with [console.log], and nothing else but a screen
    clear, written before the line exactly when the argument is an object
    whose [clr] is set; a string argument never clears the screen. The four
    tagged methods style the whole line, a leading line break included;
    [Log] styles a string argument white and prints an object unstyled, its
    [custom] text taking precedence over its message. *)
Theorem logger_clears_then_logs :
  Forall (λ '(style, method),
            (∀ text, method (Text text) = [ConsoleLog (chalk style text)]) ∧
            (∀ o, ∃ line,
               method (Object o)
               = (if clr o then [StdoutWrite (String "027" "c")] else [])
                 ++ [ConsoleLog line] ∧
               line = match style with
                      | White =>
                          (if br o then JsString.lf else "")
                          +:+ match custom o with
                              | Some f => f chalk
                              | None => default "undefined" (message o)
                              end
                      | _ =>
                          chalk style
                            ((if br o then JsString.lf else "")
                             +:+ default "undefined" (message o))
                      end))
         [ (White, Log chalk); (BgGreenBlack, Sucessful chalk);
           (BgBlueBrightBlack, Info chalk); (BgRedBrightBlack, Error chalk);
           (YellowBrightBlack, Warn chalk) ].
Proof.
  repeat constructor; try done;
    intros o; eexists; (split; [reflexivity |]); cbn;
    by destruct (custom o).
Qed.

End LoggerProperties.

(** ** Loading the configuration file *)

Section ConfigFileProperties.

Import ConfigFile.

Context {Config : Type}.
Variable cwd : string.
Variable join : string → string → string.
Variable import_ : string → Result (@DynamicLoad Config).

(** X18. [getConfigFile] always settles the promise it returns. When the
    import succeeds the promise is fulfilled with the module's default
    export, [undefined] if it has none, and the executor ends normally.
    When the import throws, the promise is rejected with a string that
    names the joined path, the error of the import is not passed on, and
    the executor goes on to read [default] of [undefined]: it ends with a
    [TypeError] that nothing handles. *)
Theorem getConfigFile_outcome (configPath : string) :
  promise (getConfigFile cwd join import_ configPath) ≠ Pending ∧
  (∀ m, import_ (join cwd configPath) = Ok m →
        getConfigFile cwd join import_ configPath
        = {| promise := Fulfilled (default_ m); executor := Ok () |}) ∧
  (∀ err, import_ (join cwd configPath) = Throw err →
          promise (getConfigFile cwd join import_ configPath)
          = Rejected ("Couldn't find the config file at "
                      +:+ join cwd configPath) ∧
          ∃ m, executor (getConfigFile cwd join import_ configPath)
               = Throw (TypeError m)) ∧
  (returned (executor (getConfigFile cwd join import_ configPath)) = true ↔
   returned (import_ (join cwd configPath)) = true).
Proof.
  unfold getConfigFile.
  destruct (import_ (join cwd configPath)) as [m|err]; cbn.
  - split_and!; try done. intros ? [= <-]. done.
  - split_and!; try done. intros err' [= <-]. split; [done | by eexists].
Qed.

End ConfigFileProperties.

(** ** From the notifications to the runs of the action *)

Section BurstRuns.

Context `{Host}.
Implicit Types (this : Events) (st : State).

(** The processes started and the actions called in a trace. *)
Local Abbreviation runs tr :=
  (length (spawnRequests tr) + length (actionCalls tr)).

Lemma actionCalls_app (tr1 tr2 : list Effect) :
  actionCalls (tr1 ++ tr2) = actionCalls tr1 ++ actionCalls tr2.
Proof. apply filter_app. Qed.

Lemma actionCalls_logged (calls : list LogCall) :
  actionCalls (Logged <$> calls) = [].
Proof. by induction calls. Qed.

Lemma runs_app (tr1 tr2 : list Effect) :
  runs (tr1 ++ tr2) = (runs tr1 + runs tr2)%nat.
Proof. rewrite spawnRequests_app, actionCalls_app, !length_app. lia. Qed.

Lemma runs_logged (calls : list LogCall) : runs (Logged <$> calls) = 0.
Proof. by rewrite spawnRequests_logged, actionCalls_logged. Qed.

(** The action runner starts one process or calls one action. *)
Lemma runUserFn_runs this eventName options fn st :
  runs (trace (runUserFn this eventName options fn st).1)
  = S (runs (trace st)).
Proof.
  destruct (asyncAction fn) as [f|] eqn:Hf.
  - rewrite (runUserFn_async _ _ _ _ _ _ Hf). cbn [fst trace].
    rewrite runs_app.
    assert (runs [Called f options (promises st)] = 1) as -> by reflexivity.
    lia.
  - rewrite (runUserFn_spawn _ _ _ _ _ Hf).
    assert (∀ req, runs [Spawned req] = 1) as Hone by reflexivity.
    destruct (spawnSync _) as [[[code|] [buffer|]]|e];
      cbn [error stderr fst snd]; rewrite ?logAll_app; cbn [trace spawned];
      rewrite !runs_app, ?runs_logged, Hone; lia.
Qed.

(** One invocation of the change listener is one run, unless the stats
    have to be read and cannot. *)
Lemma changeListener_runs this filePath stats st :
  ready st →
  runs (trace (changeListener this filePath stats st).1)
  = (runs (trace st)
     + match stats with
       | Some _ => 1
       | None => if returned (statSync filePath) then 1 else 0
       end)%nat.
Proof.
  intros Hr. unfold changeListener.
  assert (∀ s : Stats,
            runs (trace (acquire this
                    {| j_options :=
                         {| o_currentPkg :=
                              currentPkg (getPackage (packages this) filePath);
                            o_filePath := filePath;
                            o_packagePath :=
                              packagePath (getPackage (packages this) filePath);
                            o_stats := Some s |};
                       j_fn := action this "change" |}
                    (logAll
                       [ Log (Structured
                                {| message := JsString.line "Performing Action";
                                   clr := true; spaceContent := false |}) "log";
                         Custom
                           [ Raw (Structured
                                    {| message := "File Changed"; clr := false;
                                       spaceContent := true |}) "info";
                             Lit " - ";
                             Raw (Plain (convertPath (root this) filePath)) "log";
                             Lit JsString.lf ] ] st)))
            = S (runs (trace st))) as Hacq.
  { intros s.
    match goal with
    | |- context [acquire this ?job ?s0] =>
        destruct (acquire_releases this job s0)
          as (_ & after & result & Hrun & ->); [by apply logAll_ready |];
        pose proof (runUserFn_runs this "Change" (j_options job) (j_fn job) s0)
          as Hone
    end.
    rewrite Hrun in Hone. cbn [fst] in Hone.
    rewrite logAll_app in Hone. cbn [trace] in Hone.
    rewrite runs_app, runs_logged in Hone.
    destruct result; cbn [trace setLock reject]; lia. }
  destruct stats as [s|]; [cbn [fst]; rewrite Hacq; lia |].
  destruct (statSync filePath) as [s|e]; cbn [fst returned];
    [rewrite Hacq |]; lia.
Qed.

Lemma changeTasks_runs this st (fires : list (Debounce.Fire string)) :
  ready st →
  (runs (trace (runTasks this st (changeTasks fires)))
   ≤ runs (trace st) + length fires)%nat ∧
  ((∀ path, returned (statSync path) = true) →
   runs (trace (runTasks this st (changeTasks fires)))
   = (runs (trace st) + length fires)%nat).
Proof.
  revert st. induction fires as [|fire fires IH]; intros st Hr.
  { cbn. split; [lia | intros _; lia]. }
  cbn [changeTasks fmap list_fmap]. rewrite runTasks_cons. cbn [step].
  pose proof (changeListener_runs this (default "" (Debounce.with_ fire))
                None st Hr) as Hone.
  destruct (IH _ (changeListener_ready this
                    (default "" (Debounce.with_ fire)) None st Hr))
    as [IH1 IH2].
  fold (changeTasks fires) in IH1, IH2 |- *.
  split.
  - cbn [length]. destruct (returned (statSync _)); lia.
  - intros Hstat. rewrite (IH2 Hstat), Hone, Hstat. cbn [length]. lia.
Qed.

(** X19. From notifications to runs. When the invocations that the
    debouncer lets through are run as tasks of the change listener, the
    processes started and the actions called are together at most as many
    as the change notifications, and exactly as many as the invocations
    let through when reading the stats never fails: every invocation runs
    the action or the command once, whether or not an earlier one has
    ended or failed. *)
Theorem change_burst_runs this (env0 : gmap string string)
    (include0 : list string) (clearsTimer : bool) (fuel : nat)
    (cs : list (Z * string)) :
  let fires := (Debounce.onChange clearsTimer fuel cs).2 in
  let final := runTasks this (initialState env0 include0) (changeTasks fires) in
  length (spawnRequests (trace final)) + length (actionCalls (trace final))
    ≤ length cs ∧
  ((∀ path, returned (statSync path) = true) →
   length (spawnRequests (trace final)) + length (actionCalls (trace final))
   = length fires).
Proof.
  cbv zeta.
  destruct (changeTasks_runs this (initialState env0 include0)
              (Debounce.onChange clearsTimer fuel cs).2
              (ready_initial env0 include0)) as [Hle Heq].
  destruct (burst_fires clearsTimer fuel cs) as [Hfires _].
  unfold Debounce.onChange in *. cbn [trace initialState] in Hle, Heq.
  split; [cbn in Hle; lia |].
  intros Hstat. rewrite (Heq Hstat). done.
Qed.

End BurstRuns.

(** ** Settlements out of order *)

Section Settlements.

Context `{Host}.
Implicit Types (this : Events) (st : State).

(** Between two tasks the pending promises have distinct identifiers. *)
Local Abbreviation distinct st := (ready st ∧ NoDup (p_id <$> pending st)).

Lemma NoDup_fmap_eq {A B} (f : A → B) (l : list A) x y :
  NoDup (f <$> l) → x ∈ l → y ∈ l → f x = f y → x = y.
Proof.
  induction l as [|z l IH]; [by intros _ ?%elem_of_nil |].
  cbn. intros [Hz Hnd]%NoDup_cons Hx Hy Hf.
  apply elem_of_cons in Hx as [->|Hx], Hy as [->|Hy]; [done | | | by apply IH].
  - exfalso. apply Hz. rewrite Hf. by apply list_elem_of_fmap_2.
  - exfalso. apply Hz. rewrite <- Hf. by apply list_elem_of_fmap_2.
Qed.

Lemma NoDup_filter_fmap {A B} (f : A → B) (P : A → Prop)
    `{∀ x, Decision (P x)} (l : list A) :
  NoDup (f <$> l) → NoDup (f <$> filter P l).
Proof.
  induction l as [|z l IH]; [done |].
  rewrite fmap_cons. intros [Hz Hnd]%NoDup_cons. rewrite filter_cons.
  destruct (decide (P z)); [|by apply IH].
  rewrite fmap_cons. apply NoDup_cons. split; [|by apply IH].
  intros (y & Hy & Hin)%list_elem_of_fmap.
  apply list_elem_of_filter in Hin as [_ Hin].
  apply Hz. rewrite Hy. by apply list_elem_of_fmap_2.
Qed.

Lemma runUserFn_distinct this eventName options fn st :
  distinct st → distinct (runUserFn this eventName options fn st).1.
Proof.
  intros [Hr Hnd]. split; [by apply runUserFn_ready |].
  destruct (asyncAction fn) as [f|] eqn:Hf.
  - rewrite (runUserFn_async _ _ _ _ _ _ Hf). cbn [fst pending].
    rewrite fmap_app. apply NoDup_app. split; [done |]. split.
    + intros p (pa & -> & Hin)%list_elem_of_fmap
        ?%list_elem_of_singleton. cbn in *.
      destruct Hr as (Hfresh & _).
      apply (proj1 (Forall_forall _ _) Hfresh) in Hin. lia.
    + apply NoDup_singleton.
  - rewrite (runUserFn_spawn _ _ _ _ _ Hf).
    destruct (spawnSync _) as [[[code|] [buffer|]]|e];
      cbn [error stderr fst snd]; rewrite ?logAll_app; done.
Qed.

Lemma step_distinct this st task :
  distinct st → distinct (step this st task).1.
Proof.
  intros Hd. split; [by apply ready_step, Hd |].
  destruct task; cbn [step fst].
  1-4: by apply runUserFn_distinct.
  - unfold onError. rewrite logAll_app. apply Hd.
  - unfold changeListener.
    destruct (match stats with Some s => Ok s | None => statSync filePath end)
      as [s|e]; [|apply Hd].
    cbn [fst].
    match goal with
    | |- context [acquire this ?job ?s0] =>
        assert (distinct s0) as Hlog by (by rewrite logAll_app);
        destruct (acquire_releases this job s0 (proj1 Hlog))
          as (_ & after & result & Hrun & ->);
        pose proof (runUserFn_distinct this "Change" (j_options job)
                      (j_fn job) s0 Hlog) as [_ Hafter]
    end.
    rewrite Hrun in Hafter. by destruct result.
  - destruct Hd as [Hr Hnd]. unfold settle.
    destruct (list_find _ (pending st)) as [[i pa]|]; [|done].
    assert (lockAwaits (settleAction pa s
              (setPending (filter (λ pa', p_id pa' ≠ p) (pending st))
                          (promises st) st)) = None) as Hl.
    { destruct Hr as (_ & Hl & _).
      destruct s; cbn [settleAction]; [by rewrite logAll_app | done]. }
    rewrite Hl, bool_decide_eq_false_2 by done.
    destruct s; cbn [settleAction]; rewrite ?logAll_app; cbn [pending];
      by apply NoDup_filter_fmap.
Qed.

Lemma runTasks_distinct this st tasks :
  distinct st → distinct (runTasks this st tasks).
Proof.
  revert st. induction tasks as [|task tasks IH]; intros st Hd; [done |].
  apply IH. by apply step_distinct.
Qed.

Lemma settle_pending this st pa s :
  distinct st → pa ∈ pending st →
  settle this (p_id pa) s st
  = settleAction pa s
      (setPending (filter (λ q, p_id q ≠ p_id pa) (pending st))
                  (promises st) st).
Proof.
  intros [Hr Hnd] Hin. unfold settle.
  destruct (list_find _ (pending st)) as [[i pa']|] eqn:E.
  - apply list_find_Some in E as (Hi & Hid & _).
    apply list_elem_of_lookup_2 in Hi.
    assert (pa' = pa) as -> by by apply (NoDup_fmap_eq p_id (pending st)).
    assert (lockAwaits (settleAction pa s
              (setPending (filter (λ q, p_id q ≠ p_id pa) (pending st))
                          (promises st) st)) = None) as Hl.
    { destruct Hr as (_ & Hl & _).
      destruct s; cbn [settleAction]; [by rewrite logAll_app | done]. }
    by rewrite Hl, bool_decide_eq_false_2.
  - exfalso. apply list_find_None in E.
    by apply (proj1 (Forall_forall _ _) E pa Hin).
Qed.

Lemma runUserFn_keeps_pending this eventName options fn st pa :
  pa ∈ pending st → pa ∈ pending (runUserFn this eventName options fn st).1.
Proof.
  intros Hin. destruct (asyncAction fn) as [f|] eqn:Hf.
  - rewrite (runUserFn_async _ _ _ _ _ _ Hf). cbn [fst pending].
    apply elem_of_app. by left.
  - rewrite (runUserFn_spawn _ _ _ _ _ Hf).
    destruct (spawnSync _) as [[[code|] [buffer|]]|e];
      cbn [error stderr fst snd]; rewrite ?logAll_app; done.
Qed.

(** A pending promise stays pending through every task but its own
    settlement. *)
Lemma step_keeps_pending this st task pa :
  ready st → pa ∈ pending st →
  (∀ s, task ≠ Settle (p_id pa) s) →
  pa ∈ pending (step this st task).1.
Proof.
  intros Hr Hin Hne. destruct task; cbn [step fst].
  1-4: by apply runUserFn_keeps_pending.
  - unfold onError. by rewrite logAll_app.
  - unfold changeListener.
    destruct (match stats with Some s => Ok s | None => statSync filePath end)
      as [s|e]; [|done].
    cbn [fst].
    match goal with
    | |- context [acquire this ?job ?s0] =>
        destruct (acquire_releases this job s0)
          as (_ & after & result & Hrun & ->); [by apply logAll_ready |];
        pose proof (runUserFn_keeps_pending this "Change" (j_options job)
                      (j_fn job) s0 pa) as Hkeep
    end.
    rewrite Hrun, logAll_app in Hkeep. specialize (Hkeep Hin).
    by destruct result.
  - unfold settle.
    destruct (list_find _ (pending st)) as [[i pa']|]; [|done].
    assert (lockAwaits (settleAction pa' s
              (setPending (filter (λ q, p_id q ≠ p) (pending st))
                          (promises st) st)) = None) as Hl.
    { destruct Hr as (_ & Hl & _).
      destruct s; cbn [settleAction]; [by rewrite logAll_app | done]. }
    rewrite Hl, bool_decide_eq_false_2 by done.
    assert (pa ∈ filter (λ q, p_id q ≠ p) (pending st)) as Hf.
    { apply list_elem_of_filter. split; [|done].
      intros Heq. apply (Hne s). by rewrite Heq. }
    destruct s; cbn [settleAction]; by rewrite ?logAll_app.
Qed.

Lemma runTasks_keep_pending this st tasks pa :
  ready st → pa ∈ pending st →
  Forall (λ task, ∀ s, task ≠ Settle (p_id pa) s) tasks →
  pa ∈ pending (runTasks this st tasks).
Proof.
  revert st. induction tasks as [|task tasks IH]; intros st Hr Hin Hf; [done |].
  inversion Hf; subst. rewrite runTasks_cons.
  apply IH; [by apply ready_step | by apply step_keeps_pending | done].
Qed.

(** A notification whose listener returns, with an asynchronous action
    under its key: the action is called with the notified path, and its
    promise is recorded with the event name and the relative path. *)
Lemma step_starts this st task (key eventName filePath : string) (f : Fn) :
  ready st →
  notified task = Some (key, eventName, filePath) →
  asyncAction (action this key) = Some f →
  (step this st task).2 = Ok () →
  pending (step this st task).1
  = pending st ++
    [ {| p_id := promises st; p_eventName := eventName;
         p_relativePath := convertPath (root this) filePath |} ] ∧
  ∃ opts, Called f opts (promises st) ∈ trace (step this st task).1 ∧
          o_filePath opts = filePath.
Proof.
  intros Hr Hn Hf Hok.
  destruct task; cbn in Hn; simplify_eq; cbn [step] in Hok |- *.
  1-4: unfold onAdd, onAddDir, onUnlink, onUnlinkDir;
       rewrite (runUserFn_async _ _ _ _ _ _ Hf); cbn [fst pending trace];
       (split; [done |]); eexists;
       (split; [apply elem_of_app; right; apply list_elem_of_here
               | reflexivity]).
  unfold changeListener in Hok |- *.
  destruct (match stats with Some s => Ok s | None => statSync filePath end)
    as [s|e]; [|done].
  cbn [fst].
  match goal with
  | |- context [acquire this ?job ?s0] =>
      destruct (acquire_releases this job s0)
        as (_ & after & result & Hrun & ->); [by apply logAll_ready |]
  end.
  cbn [j_options j_fn] in Hrun.
  rewrite (runUserFn_async _ _ _ _ _ _ Hf), logAll_app in Hrun.
  injection Hrun as <- <-. cbn. split; [done |].
  eexists. split; [apply elem_of_app; right; apply list_elem_of_here |].
  reflexivity.
Qed.

(** X20. Settlements in any order. A notification arrives in a state that
    a run of the watcher has reached; an asynchronous action is configured
    under its key and its listener returns, so the action is called and
    its promise is pending. Whatever tasks run before that promise settles
    (other notifications, settlements of other promises, failing commands),
    its settlement is attributed to this notification: on fulfilment the
    trace gains the line "Action Completed" and an entry with this
    notification's event name, tagged as success, and its path relative to
    the root, and no rejection is recorded; on rejection the reason becomes
    an unhandled rejection and nothing is logged. The promise leaves the
    pending ones, all others stay, and the watch set is untouched. *)
Theorem settle_attributed this (env0 : gmap string string)
    (include0 : list string) (before : list Task) (task : Task)
    (later : list Task) (key eventName filePath : string) (f : Fn) :
  let st0 := runTasks this (initialState env0 include0) before in
  let p := promises st0 in
  let st := runTasks this (step this st0 task).1 later in
  notified task = Some (key, eventName, filePath) →
  asyncAction (action this key) = Some f →
  (step this st0 task).2 = Ok () →
  Forall (λ t, ∀ s, t ≠ Settle p s) later →
  (∃ opts, Called f opts p ∈ trace (step this st0 task).1 ∧
           o_filePath opts = filePath) ∧
  (trace (settle this p Fulfilled st)
   = trace st ++
     [ Logged (Log (Plain (JsString.line "Action Completed")) "log");
       Logged (Custom [ Raw (Structured {| message := eventName; clr := false;
                                           spaceContent := true |}) "success";
                        Lit " - ";
                        Raw (Plain (convertPath (root this) filePath)) "log";
                        Lit JsString.lf ]) ] ∧
   unhandled (settle this p Fulfilled st) = unhandled st) ∧
  (∀ e, trace (settle this p (Rejected e) st) = trace st ∧
        unhandled (settle this p (Rejected e) st) = unhandled st ++ [e]) ∧
  (∀ s q, q ∈ pending (settle this p s st) ↔ q ∈ pending st ∧ p_id q ≠ p) ∧
  (∀ s, watched (settle this p s st) = watched st).
Proof.
  cbv zeta. intros Hn Hf Hok Hlater.
  set (st0 := runTasks this (initialState env0 include0) before) in *.
  set (pa := {| p_id := promises st0; p_eventName := eventName;
                p_relativePath := convertPath (root this) filePath |}).
  assert (distinct st0) as Hd0.
  { apply runTasks_distinct. split; [apply ready_initial | constructor]. }
  destruct (step_starts this st0 task key eventName filePath f
              (proj1 Hd0) Hn Hf Hok) as [Hpending Hcalled].
  pose proof (step_distinct this st0 task Hd0) as Hd1.
  set (st := runTasks this (step this st0 task).1 later) in *.
  assert (distinct st) as Hd by by apply runTasks_distinct.
  assert (pa ∈ pending st) as Hin.
  { apply runTasks_keep_pending; [apply Hd1 | | done].
    rewrite Hpending. apply elem_of_app. right. apply list_elem_of_here. }
  change (promises st0) with (p_id pa).
  split; [done |]. split_and!.
  - rewrite (settle_pending _ _ _ _ Hd Hin). cbn [settleAction].
    by rewrite logAll_app.
  - rewrite (settle_pending _ _ _ _ Hd Hin). cbn [settleAction].
    by rewrite logAll_app.
  - intros e. by rewrite (settle_pending _ _ _ _ Hd Hin).
  - intros s q. rewrite (settle_pending _ _ _ _ Hd Hin).
    assert (pending (settleAction pa s
              (setPending (filter (λ q, p_id q ≠ p_id pa) (pending st))
                          (promises st) st))
            = filter (λ q, p_id q ≠ p_id pa) (pending st))
      as -> by (destruct s; cbn [settleAction]; by rewrite ?logAll_app).
    rewrite list_elem_of_filter. tauto.
  - intros s. rewrite (settle_pending _ _ _ _ Hd Hin).
    destruct s; cbn [settleAction]; by rewrite ?logAll_app.
Qed.

End Settlements.

(** A file is added; then a second one, whose action ends first. When the
    action of the first one ends, the completion entry names the first
    file. *)
Lemma settle_attributed_witness :
  let this := sampleEvents ["echo"; "hi"] [("add", Some "notify")] in
  let st := @runTasks sampleHost this
              (@step sampleHost this sampleState
                     (Add "/repo/apps/web/a.ts" None)).1
              [Add "/repo/apps/web/b.ts" None; Settle 1 Fulfilled] in
  trace (@settle sampleHost this 0 Fulfilled st)
  = trace st ++
    [ Logged (Log (Plain (JsString.line "Action Completed")) "log");
      Logged (Custom [ Raw (Structured {| message := "Add"; clr := false;
                                          spaceContent := true |}) "success";
                       Lit " - ";
                       Raw (Plain "/repo/apps/web/a.ts") "log";
                       Lit JsString.lf ]) ].
Proof.
  cbv zeta.
  pose proof (@settle_attributed sampleHost
                (sampleEvents ["echo"; "hi"] [("add", Some "notify")]) ∅ ["src"]
                [] (Add "/repo/apps/web/a.ts" None)
                [Add "/repo/apps/web/b.ts" None; Settle 1 Fulfilled]
                "add" "Add" "/repo/apps/web/a.ts" "notify") as Hs.
  cbv zeta in Hs.
  destruct Hs as (_ & [Htrace _] & _).
  - reflexivity.
  - reflexivity.
  - reflexivity.
  - repeat constructor; intros s; discriminate.
  - exact Htrace.
Defined.
